(** * DeePKS descriptor-and-gradient engine: a shallow embedding

    Embedded sources:
    - [deepks/scf/scf.py]: [t_make_pdm], [t_shell_eig], [t_make_eig],
      [t_get_corr], [CorrMixin], [NetMixin];
    - [deepqc/scf/grad.py]: [t_make_grad_e_pdm], [t_make_grad_pdm_x],
      [t_grad_corr], [Gradients].

    Conventions.  Tensor entries are elements of an arbitrary commutative
    ring (exact arithmetic; rounding of double precision is not modelled).
    A torch tensor is a shape together with an entry function.  The torch
    primitives the sources call ([einsum], [cat], [sum], slicing, in-place
    accumulation) are written out here; [symeig], the differentiable model
    and the base mean-field solver are parameters. *)

From Stdlib Require Import String Ascii List Arith Bool Lia ZArith.
From Stdlib Require Import Ring Ring_theory FunctionalExtensionality.
Import ListNotations.

Set Implicit Arguments.

(* ================================================================== *)
(** * Part I.  Definitions                                             *)
(* ================================================================== *)

(** ** Scalars *)

Class Scalar (R : Type) : Type := {
  s0 : R;
  s1 : R;
  sadd : R -> R -> R;
  smul : R -> R -> R;
  ssub : R -> R -> R;
  sopp : R -> R
}.

Definition scalar_laws (R : Type) {RS : Scalar R} : Prop :=
  ring_theory s0 s1 sadd smul ssub sopp (@eq R).

Arguments scalar_laws R {RS}.

#[export] Instance Z_Scalar : Scalar Z := {
  s0 := 0%Z;
  s1 := 1%Z;
  sadd := Z.add;
  smul := Z.mul;
  ssub := Z.sub;
  sopp := Z.opp
}.

Declare Scope scalar_scope.
Delimit Scope scalar_scope with S.
Infix "+" := sadd : scalar_scope.
Infix "*" := smul : scalar_scope.
Infix "-" := ssub : scalar_scope.
Notation "- x" := (sopp x) : scalar_scope.

(** [rsum n f] is the sum of [f 0], ..., [f (n-1)]. *)
Definition rsum {R} {RS : Scalar R} (n : nat) (f : nat -> R) : R :=
  fold_right (fun i acc => sadd (f i) acc) s0 (seq 0 n).

(** Product of the operands' entries, left to right. *)
Definition rprod {R} {RS : Scalar R} (xs : list R) : R :=
  match xs with
  | [] => s1
  | x :: rest => fold_left smul rest x
  end.

(** ** Tensors *)

Record tensor (R : Type) : Type := mkT {
  shape : list nat;
  get : list nat -> R
}.

Arguments mkT {R} shape get.

Definition ndim {R} (t : tensor R) : nat := length (shape t).

(** Number of elements ([Tensor.nelement]). *)
Definition nelement {R} (t : tensor R) : nat := fold_right Nat.mul 1 (shape t).

(** Two tensors are the same when shapes agree and entries agree. *)
Definition teq {R} (t u : tensor R) : Prop :=
  shape t = shape u /\ forall idx, get t idx = get u idx.

Definition zeros {R} {RS : Scalar R} (sh : list nat) : tensor R :=
  mkT sh (fun _ => s0).

Definition ones {R} {RS : Scalar R} (sh : list nat) : tensor R :=
  mkT sh (fun _ => s1).

Definition zeros_like {R} {RS : Scalar R} (t : tensor R) : tensor R := zeros (shape t).
Definition ones_like {R} {RS : Scalar R} (t : tensor R) : tensor R := ones (shape t).

(** Elementwise [t + u] of equally shaped tensors. *)
Definition tadd {R} {RS : Scalar R} (t u : tensor R) : tensor R :=
  mkT (shape t) (fun idx => sadd (get t idx) (get u idx)).

(** [t[i]]: select along the first dimension. *)
Definition select0 {R} (i : nat) (t : tensor R) : tensor R :=
  mkT (tl (shape t)) (fun idx => get t (i :: idx)).

(** [t.sum(0)]. *)
Definition sum0 {R} {RS : Scalar R} (t : tensor R) : tensor R :=
  mkT (tl (shape t)) (fun idx => rsum (hd 0 (shape t)) (fun b => get t (b :: idx))).

(** [torch.stack(ts)] along a new leading dimension. *)
Definition stack {R} {RS : Scalar R} (ts : list (tensor R)) : tensor R :=
  mkT (length ts :: match ts with [] => [] | t :: _ => shape t end)
      (fun idx => match idx with
                  | [] => s0
                  | b :: idx' => match nth_error ts b with
                                 | Some t => get t idx'
                                 | None => s0
                                 end
                  end).

(** [t.unsqueeze(0)] and its inverse on a leading dimension of size one. *)
Definition unsqueeze0 {R} (t : tensor R) : tensor R :=
  mkT (1 :: shape t) (fun idx => get t (tl idx)).

Definition squeeze0 {R} (t : tensor R) : tensor R :=
  mkT (tl (shape t)) (fun idx => get t (0 :: idx)).

(** Swap of the last two indices. *)
Fixpoint swap_last2 (idx : list nat) : list nat :=
  match idx with
  | [p; q] => [q; p]
  | i :: rest => i :: swap_last2 rest
  | [] => []
  end.

(** [t.transpose(-1,-2)]. *)
Definition transpose_last2 {R} (t : tensor R) : tensor R :=
  mkT (swap_last2 (shape t)) (fun idx => get t (swap_last2 idx)).

(** ** [torch.einsum]

    The subscript string is parsed as torch does: operands separated by
    commas, the output after the arrow, three dots for the dimensions an
    operand has beyond its named ones.  Every output entry is the sum, over
    the labels that do not occur in the output, of the product of the
    operands' entries. *)

Inductive sub : Type :=
| SL (c : ascii)
| SEll.

Inductive label : Type :=
| L (c : ascii)
| B (i : nat).

Definition label_eqb (x y : label) : bool :=
  match x, y with
  | L c, L d => Ascii.eqb c d
  | B i, B j => Nat.eqb i j
  | _, _ => false
  end.

Fixpoint parse_operand (cs : list ascii) : list sub :=
  match cs with
  | "."%char :: rest =>
      match rest with
      | "."%char :: "."%char :: rest' => SEll :: parse_operand rest'
      | _ => parse_operand rest
      end
  | c :: rest => SL c :: parse_operand rest
  | [] => []
  end.

Fixpoint split_comma (cs acc : list ascii) : list (list ascii) :=
  match cs with
  | ","%char :: rest => rev acc :: split_comma rest []
  | c :: rest => split_comma rest (c :: acc)
  | [] => [rev acc]
  end.

Fixpoint split_arrow (cs acc : list ascii) : list ascii * list ascii :=
  match cs with
  | "-"%char :: rest =>
      match rest with
      | ">"%char :: rest' => (rev acc, rest')
      | _ => split_arrow rest ("-"%char :: acc)
      end
  | c :: rest => split_arrow rest (c :: acc)
  | [] => (rev acc, [])
  end.

Definition parse_spec (spec : string) : list (list sub) * list sub :=
  let (lhs, rhs) := split_arrow (list_ascii_of_string spec) [] in
  (map parse_operand (split_comma lhs []), parse_operand rhs).

Definition named (subs : list sub) : nat :=
  List.length (filter (fun s => match s with SL _ => true | SEll => false end) subs).

Definition has_ell (subs : list sub) : bool :=
  existsb (fun s => match s with SEll => true | SL _ => false end) subs.

(** Number of dimensions the ellipsis of an operand of rank [rank] covers. *)
Definition ell_dims (subs : list sub) (rank : nat) : nat :=
  if has_ell subs then rank - named subs else 0.

(** The labels of an operand; its ellipsis covers the last [k] of the [nb]
    batch dimensions (batch dimensions are aligned to the right). *)
Definition expand (nb k : nat) (subs : list sub) : list label :=
  flat_map (fun s => match s with
                     | SL c => [L c]
                     | SEll => map B (seq (nb - k) k)
                     end) subs.

Definition env : Type := list (label * nat).

Fixpoint lookup (e : env) (l : label) : nat :=
  match e with
  | [] => 0
  | (l', n) :: e' => if label_eqb l' l then n else lookup e' l
  end.

Fixpoint mem_label (l : label) (ls : list label) : bool :=
  match ls with
  | [] => false
  | l' :: ls' => label_eqb l' l || mem_label l ls'
  end.

Fixpoint dedup (ls seen : list label) : list label :=
  match ls with
  | [] => []
  | l :: ls' => if mem_label l seen then dedup ls' seen
                else l :: dedup ls' (l :: seen)
  end.

(** Sum of [f] over every assignment of the labels [ls], each ranging
    over its dimension. *)
Fixpoint sum_over {R} {RS : Scalar R} (dims : env) (ls : list label)
    (e : env) (f : env -> R) : R :=
  match ls with
  | [] => f e
  | l :: ls' => rsum (lookup dims l) (fun i => sum_over dims ls' ((l, i) :: e) f)
  end.

(** The dimension of every label, read off the operands' shapes. *)
Definition label_dims {R} (labs : list (list label)) (ops : list (tensor R)) : env :=
  flat_map (fun '(ls, t) => combine ls (shape t)) (combine labs ops).

(** The labels summed over: those of the operands, in order of first
    occurrence, that the output does not have. *)
Definition summed_labels (dims : env) (outl : list label) : list label :=
  filter (fun l => negb (mem_label l outl)) (dedup (map fst dims) []).

(** The contraction for operands labelled [labs] and output labelled
    [outl].  It raises when an operand's rank differs from its number of
    labels, when a label has two different dimensions, or when an output
    label occurs in no operand. *)
Definition contract {R} {RS : Scalar R} (labs : list (list label))
    (outl : list label) (ops : list (tensor R)) : option (tensor R) :=
  let dims := label_dims labs ops in
  let ranks_ok :=
    (List.length labs =? List.length ops) &&
    forallb (fun '(ls, t) => List.length ls =? ndim t) (combine labs ops) in
  let dims_ok := forallb (fun '(l, n) => lookup dims l =? n) dims in
  let out_ok := forallb (fun l => mem_label l (map fst dims)) outl in
  if ranks_ok && dims_ok && out_ok then
    Some (mkT (map (lookup dims) outl)
              (fun idx =>
                 sum_over dims (summed_labels dims outl) (combine outl idx)
                   (fun e => rprod (map (fun '(ls, t) => get t (map (lookup e) ls))
                                        (combine labs ops)))))
  else None.

Definition einsum {R} {RS : Scalar R} (spec : string) (ops : list (tensor R))
    : option (tensor R) :=
  let (ins, out) := parse_spec spec in
  let ks := map (fun '(subs, t) => ell_dims subs (ndim t)) (combine ins ops) in
  let nb := fold_right Nat.max 0 ks in
  let labs := map (fun '(subs, k) => expand nb k subs) (combine ins ks) in
  if List.length ins =? List.length ops
  then contract labs (expand nb nb out) ops
  else None.

(** ** Failure

    A Python exception is [None]. *)

Definition obind {A B} (x : option A) (f : A -> option B) : option B :=
  match x with
  | Some a => f a
  | None => None
  end.

Notation "x <- c ;; k" := (obind c (fun x => k))
  (at level 61, c at next level, right associativity).

Fixpoint mapM {A B} (f : A -> option B) (l : list A) : option (list B) :=
  match l with
  | [] => Some []
  | a :: l' => b <- f a ;; bs <- mapM f l' ;; Some (b :: bs)
  end.

(** ** [torch.cat(ts, dim=-1)] and [torch.split(t, sizes, -1)] *)

Definition last_dim {R} (t : tensor R) : nat := last (shape t) 0.

Fixpoint cat_get {R} {RS : Scalar R} (ts : list (tensor R)) (pre : list nat)
    (j : nat) : R :=
  match ts with
  | [] => s0
  | t :: rest => if j <? last_dim t then get t (pre ++ [j])
                 else cat_get rest pre (j - last_dim t)
  end.

Fixpoint shape_eqb (a b : list nat) : bool :=
  match a, b with
  | [], [] => true
  | x :: a', y :: b' => (x =? y) && shape_eqb a' b'
  | _, _ => false
  end.

(** [torch.cat] raises on an empty list, on a tensor without dimensions
    and on tensors whose other dimensions differ. *)
Definition cat_last {R} {RS : Scalar R} (ts : list (tensor R)) : option (tensor R) :=
  match ts with
  | [] => None
  | t :: _ =>
      if forallb (fun u => (1 <=? ndim u) &&
                           shape_eqb (removelast (shape u)) (removelast (shape t))) ts
      then Some (mkT (removelast (shape t) ++ [fold_right Nat.add 0 (map last_dim ts)])
                     (fun idx => cat_get ts (removelast idx) (last idx 0)))
      else None
  end.

(** The pieces of [t] along its last dimension, of the given sizes,
    the first starting at [off]. *)
Fixpoint split_from {R} (off : nat) (sizes : list nat) (t : tensor R)
    : list (tensor R) :=
  match sizes with
  | [] => []
  | n :: rest =>
      mkT (removelast (shape t) ++ [n])
          (fun idx => get t (removelast idx ++ [off + last idx 0]))
      :: split_from (off + n) rest t
  end.

(** [torch.split] raises unless the sizes add up to the last dimension. *)
Definition split_last {R} (sizes : list nat) (t : tensor R) : option (list (tensor R)) :=
  if (1 <=? ndim t) && (fold_right Nat.add 0 sizes =? last_dim t)
  then Some (split_from 0 sizes t)
  else None.

(** ** [a + b] of numpy arrays

    The shapes are aligned at the last dimension.  Two dimensions go
    together when they are equal or one of them is 1; the sum raises
    [ValueError] otherwise.  A dimension of size 1, and a leading
    dimension that an operand lacks, is repeated. *)

(** The common shape, for shapes written last dimension first. *)
Fixpoint broadcast_rev (a b : list nat) : option (list nat) :=
  match a, b with
  | [], _ => Some b
  | _, [] => Some a
  | n :: a', m :: b' =>
      d <- (if n =? m then Some n
            else if n =? 1 then Some m
            else if m =? 1 then Some n
            else None) ;;
      r <- broadcast_rev a' b' ;;
      Some (d :: r)
  end.

Definition broadcast_shapes (a b : list nat) : option (list nat) :=
  option_map (@rev nat) (broadcast_rev (rev a) (rev b)).

(** The entry of an operand of shape [sh] that entry [idx] of the sum,
    of shape [out], reads: the leading positions the operand lacks are
    dropped, and a dimension that was repeated is read at 0. *)
Fixpoint broadcast_zip (sh out idx : list nat) : list nat :=
  match sh, out, idx with
  | n :: sh', m :: out', i :: idx' =>
      (if n =? m then i else 0) :: broadcast_zip sh' out' idx'
  | _, _, _ => idx
  end.

Definition broadcast_index (sh out idx : list nat) : list nat :=
  let k := length out - length sh in
  broadcast_zip sh (skipn k out) (skipn k idx).

Definition badd {R} {RS : Scalar R} (t u : tensor R) : option (tensor R) :=
  out <- broadcast_shapes (shape t) (shape u) ;;
  Some (mkT out (fun idx => sadd (get t (broadcast_index (shape t) out idx))
                                 (get u (broadcast_index (shape u) out idx)))).

(** ** The external differentiable primitives

    [torch.symeig(_, eigenvectors=True)[0]] with its reverse-mode rule, and
    the model: a function from the descriptor to the energy with its
    reverse-mode rule ([backward x g] is the cotangent of the input [x] for
    the cotangent [g] of the output, what [torch.autograd.grad] obtains from
    the model's graph).

    [parameters] tells an [nn.Module] from any other callable, which
    [NetMixin] keeps as its net just the same: [None] for a callable that
    is not a module (it has no attribute [parameters]), the module's
    parameters, first one apart, otherwise.  A module without parameters,
    on which [next(model.parameters())] raises in [t_get_corr] and in
    [t_make_grad_e_pdm] alike, is not represented. *)

Record eigensolver (R : Type) : Type := {
  symeig : tensor R -> option (tensor R);
  symeig_vjp : tensor R -> tensor R -> tensor R
}.

Record model (R : Type) : Type := {
  forward : tensor R -> tensor R;
  backward : tensor R -> tensor R -> tensor R;
  parameters : option (tensor R * list (tensor R))
}.

(** [next(model.parameters())]: the first parameter of a module,
    [AttributeError] for a callable that is not one. *)
Definition next_parameters {R} (m : model R) : option (tensor R) :=
  match parameters m with
  | Some (p, _) => Some p
  | None => None
  end.

(** [ceig.to(_dref)]: the descriptor on the device and in the precision
    of the reference; the entries are the same. *)
Definition to_ref {R A} (t : tensor R) (_dref : A) : tensor R := t.

Section Scf.

Context {R : Type} {RS : Scalar R}.
Variable E : eigensolver R.

(** ** [deepks/scf/scf.py]: projection and descriptor *)

(** [t_make_pdm(dm, ovlp_shells)]: the projected density matrix by shell. *)
Definition t_make_pdm (dm : tensor R) (ovlp_shells : list (tensor R))
    : option (list (tensor R)) :=
  mapM (fun po => einsum "rap,...rs,saq->...apq" [po; dm; po]) ovlp_shells.

Definition t_shell_eig (pdm : tensor R) : option (tensor R) :=
  symeig E pdm.

(** [t_make_eig(dm, ovlp_shells)]: eigenvalues of the projected density. *)
Definition t_make_eig (dm : tensor R) (ovlp_shells : list (tensor R))
    : option (tensor R) :=
  pdm_shells <- t_make_pdm dm ovlp_shells ;;
  eig_shells <- mapM t_shell_eig pdm_shells ;;
  cat_last eig_shells.

(** *** The reverse pass of [t_make_eig]

    [torch.autograd.grad] walks the recorded graph backwards: the cotangent
    of the concatenation is split by shell, sent through the eigensolver's
    rule at each projected density, and through the transposed contraction
    of [t_make_pdm]; the shells' contributions to [dm] add up. *)

Definition t_make_pdm_vjp (po g : tensor R) : option (tensor R) :=
  einsum "rap,...apq,saq->...rs" [po; g; po].

(** Cotangents of the projected density, by shell, for the cotangent
    [g] of the descriptor. *)
Definition t_make_eig_grad_pdm (dm : tensor R) (ovlp_shells : list (tensor R))
    (g : tensor R) : option (list (tensor R)) :=
  pdm_shells <- t_make_pdm dm ovlp_shells ;;
  eig_shells <- mapM t_shell_eig pdm_shells ;;
  g_shells <- split_last (map last_dim eig_shells) g ;;
  Some (map (fun '(pdm, gk) => symeig_vjp E pdm gk) (combine pdm_shells g_shells)).

Definition t_make_eig_vjp (dm : tensor R) (ovlp_shells : list (tensor R))
    (g : tensor R) : option (tensor R) :=
  gpdm_shells <- t_make_eig_grad_pdm dm ovlp_shells g ;;
  parts <- mapM (fun '(po, gk) => t_make_pdm_vjp po gk)
                (combine ovlp_shells gpdm_shells) ;;
  Some (fold_left tadd parts (zeros_like dm)).

(** [t_get_corr(model, dm, ovlp_shells, with_vc)]: the correction energy
    and, when asked, [torch.autograd.grad(ec, dm, torch.ones_like(ec))]. *)
Definition t_get_corr (m : model R) (dm : tensor R) (ovlp_shells : list (tensor R))
    (with_vc : bool) : option (tensor R * option (tensor R)) :=
  ceig <- t_make_eig dm ovlp_shells ;;
  (* next(model.parameters()) if isinstance(model, nn.Module) else DEVICE *)
  let _dref := match parameters m with
               | Some (p, _) => Some p
               | None => None
               end in
  let ec := forward m (to_ref ceig _dref) in
  if negb with_vc then Some (ec, None)
  else
    vc <- t_make_eig_vjp dm ovlp_shells (backward m ceig (ones_like ec)) ;;
    Some (ec, Some vc).

End Scf.

(** ** [CorrMixin]: the mean-field hook layer

    The hooks run against the base solver: its own [get_veff] and
    [energy_elec] (reached through [super()]), [make_rdm1], [get_hcore],
    and the abstract [get_corr].  A hook returns its value together with
    the calls it made, in order; a Python exception is [None]. *)

Module CorrMixin.

(** An energy is a Python float or an array with one entry per sample. *)
Inductive energy (R : Type) : Type :=
| EScalar (x : R)
| EArray (t : tensor R).

Arguments EScalar {R} x.
Arguments EArray {R} t.

(** [x + e] for a float [x], broadcast over an array. *)
Definition eadd {R} {RS : Scalar R} (x : R) (e : energy R) : energy R :=
  match e with
  | EScalar y => EScalar (sadd x y)
  | EArray t => EArray (mkT (shape t) (fun idx => sadd x (get t idx)))
  end.

(** An array with the attributes [lib.tag_array] attaches; an attribute
    that is absent (or [None]) is [None]. *)
Record tagged (R : Type) : Type := mkTagged {
  arr : tensor R;
  tag_ec : option (energy R);
  tag_v0 : option (tensor R)
}.

Arguments mkTagged {R} arr tag_ec tag_v0.

Definition tag_array {R} (a : tensor R) (ec : energy R) (v0 : tensor R) : tagged R :=
  mkTagged a (Some ec) (Some v0).

(** Calls a hook makes; an array argument that is the integer [0] (the
    default of [dm_last] and [vhf_last]) or [None] is [None]. *)
Inductive call (R Mole : Type) : Type :=
| CallMakeRdm1
| CallGetHcore
| CallSuperGetVeff (mol : option Mole) (dm : option (tensor R))
    (dm_last vhf_last : option (tensor R)) (hermi : Z)
| CallSuperEnergyElec (dm h1e : option (tensor R)) (vhf : tensor R)
| CallGetCorr (dm : tensor R).

Arguments CallMakeRdm1 {R Mole}.
Arguments CallGetHcore {R Mole}.
Arguments CallSuperGetVeff {R Mole} mol dm dm_last vhf_last hermi.
Arguments CallSuperEnergyElec {R Mole} dm h1e vhf.
Arguments CallGetCorr {R Mole} dm.

Record base_solver (R Mole : Type) : Type := {
  self_mol : Mole;
  make_rdm1 : tensor R;
  get_hcore : tensor R;
  super_get_veff : option Mole -> option (tensor R) -> option (tensor R) ->
                   option (tensor R) -> Z -> tensor R;
  super_energy_elec : option (tensor R) -> option (tensor R) -> tensor R -> R * R;
  get_corr : tensor R -> option (energy R * tensor R)
}.

(** Value, calls made so far; [None] after an exception. *)
Definition traced (R Mole A : Type) : Type := option (A * list (call R Mole)).

Definition tret {R Mole A} (a : A) : traced R Mole A := Some (a, []).

Definition tbind {R Mole A B} (m : traced R Mole A) (f : A -> traced R Mole B)
    : traced R Mole B :=
  match m with
  | None => None
  | Some (a, l) =>
      match f a with
      | None => None
      | Some (b, l') => Some (b, l ++ l')
      end
  end.

Definition tcall {R Mole A} (c : call R Mole) (a : A) : traced R Mole A :=
  Some (a, [c]).

(** Reading an attribute that may be absent ([AttributeError]). *)
Definition tattr {R Mole A} (x : option A) : traced R Mole A :=
  match x with
  | Some a => Some (a, [])
  | None => None
  end.

(** An operation that makes no call and may raise. *)
Definition tlift {R Mole A} (x : option A) : traced R Mole A :=
  match x with
  | Some a => Some (a, [])
  | None => None
  end.

Notation "x <~ c ;; k" := (tbind c (fun x => k))
  (at level 61, c at next level, right associativity).

Section Hooks.

Context {R : Type} {RS : Scalar R} {Mole : Type}.
Variable self : base_solver R Mole.

#[local] Abbreviation T := (traced R Mole).

Definition get_veff0 (mol : option Mole) (dm dm_last vhf_last : option (tensor R))
    (hermi : Z) : T (tensor R) :=
  tcall (CallSuperGetVeff mol dm dm_last vhf_last hermi)
        (super_get_veff self mol dm dm_last vhf_last hermi).

Definition energy_elec0 (dm h1e vhf : option (tensor R)) : T (R * R) :=
  vhf <~ match vhf with
         | Some v => tret v
         | None => get_veff0 None dm None None 1%Z
         end ;;
  tcall (CallSuperEnergyElec dm h1e vhf) (super_energy_elec self dm h1e vhf).

(** [get_veff(mol=None, dm=None, dm_last=0, vhf_last=0, hermi=1)]:
    original mean field potential + correction potential. *)
Definition get_veff (mol : option Mole) (dm dm_last : option (tensor R))
    (vhf_last : option (tagged R)) (hermi : Z) : T (tagged R) :=
  let mol := match mol with Some m => m | None => self_mol self end in
  dm <~ match dm with
        | Some d => tret d
        | None => tcall CallMakeRdm1 (make_rdm1 self)
        end ;;
  (* base method part: getattr(vhf_last, 'v0', 0) *)
  let v0_last := match vhf_last with
                 | Some v => tag_v0 v
                 | None => None
                 end in
  v0 <~ get_veff0 (Some mol) (Some dm) dm_last v0_last hermi ;;
  (* correction part *)
  c <~ match get_corr self dm with
       | Some c => tcall (CallGetCorr dm) c
       | None => None
       end ;;
  let '(ec, vc) := c in
  (* total effective potential: vtot = v0 + vc *)
  vtot <~ tlift (badd v0 vc) ;;
  tret (tag_array vtot ec v0).

(** [energy_elec(dm=None, h1e=None, vhf=None)]: electronic energy and
    the two-electron part. *)
Definition energy_elec (dm h1e : option (tensor R)) (vhf : option (tagged R))
    : T (energy R * energy R) :=
  dm <~ match dm with
        | Some d => tret d
        | None => tcall CallMakeRdm1 (make_rdm1 self)
        end ;;
  h1e <~ match h1e with
         | Some h => tret h
         | None => tcall CallGetHcore (get_hcore self)
         end ;;
  vhf <~ match vhf with
         | Some v => match tag_ec v with
                     | Some _ => tret v
                     | None => get_veff None (Some dm) None None 1%Z
                     end
         | None => get_veff None (Some dm) None None 1%Z
         end ;;
  v0 <~ tattr (tag_v0 vhf) ;;
  e <~ energy_elec0 (Some dm) (Some h1e) (Some v0) ;;
  let '(etot, e2) := e in
  ec <~ tattr (tag_ec vhf) ;;
  tret (eadd etot ec, eadd e2 ec).


(** The body of the abstract [get_corr(dm=None)], which a subclass
    reaches through [super()]: no correction. *)
Definition abstract_get_corr (dm : option (tensor R)) : T (energy R * tensor R) :=
  dm <~ match dm with
        | Some d => tret d
        | None => tcall CallMakeRdm1 (make_rdm1 self)
        end ;;
  tret (EScalar s0, zeros_like dm).

End Hooks.

End CorrMixin.

(** ** More tensor primitives: reshape, slices, in-place accumulation *)

Definition numel (sh : list nat) : nat := fold_right Nat.mul 1 sh.

(** Row-major position of [idx] in an array of shape [sh], and back. *)
Fixpoint ravel (sh idx : list nat) (acc : nat) : nat :=
  match sh, idx with
  | n :: sh', i :: idx' => ravel sh' idx' (acc * n + i)
  | _, _ => acc
  end.

Fixpoint unravel (sh : list nat) (k : nat) : list nat :=
  match sh with
  | [] => []
  | _ :: sh' => (k / numel sh') :: unravel sh' (k mod numel sh')
  end.

(** [t.reshape(sh)]; raises when the sizes differ. *)
Definition reshape {R} (sh : list nat) (t : tensor R) : option (tensor R) :=
  if numel sh =? numel (shape t)
  then Some (mkT sh (fun idx => get t (unravel (shape t) (ravel sh idx 0))))
  else None.

(** [t.reshape(known..., -1)]: the last dimension is inferred. *)
Definition reshape_infer {R} (known : list nat) (t : tensor R) : option (tensor R) :=
  let k := numel known in
  if (k =? 0) || negb (numel (shape t) mod k =? 0) then None
  else reshape (known ++ [numel (shape t) / k]) t.

(** Length of the Python slice [bg:ed] of a dimension of size [n]. *)
Definition slice_len (n bg ed : nat) : nat := Nat.min ed n - Nat.min bg n.

(** [t[bg:ed]]. *)
Definition slice0 {R} (bg ed : nat) (t : tensor R) : tensor R :=
  mkT (match shape t with
       | n :: sh => slice_len n bg ed :: sh
       | [] => []
       end)
      (fun idx => match idx with
                  | i :: rest => get t ((bg + i) :: rest)
                  | [] => get t []
                  end).

(** [t[:, bg:ed]]. *)
Definition slice1 {R} (bg ed : nat) (t : tensor R) : tensor R :=
  mkT (match shape t with
       | n0 :: n1 :: sh => n0 :: slice_len n1 bg ed :: sh
       | sh => sh
       end)
      (fun idx => match idx with
                  | x :: i :: rest => get t (x :: (bg + i) :: rest)
                  | _ => get t idx
                  end).

(** [t[:, i]]. *)
Definition select1 {R} (i : nat) (t : tensor R) : tensor R :=
  mkT (match shape t with
       | n0 :: _ :: sh => n0 :: sh
       | sh => sh
       end)
      (fun idx => match idx with
                  | x :: rest => get t (x :: i :: rest)
                  | [] => get t []
                  end).

(** [-t] and [t * c]. *)
Definition tneg {R} {RS : Scalar R} (t : tensor R) : tensor R :=
  mkT (shape t) (fun idx => sopp (get t idx)).

Definition tscale {R} {RS : Scalar R} (t : tensor R) (c : R) : tensor R :=
  mkT (shape t) (fun idx => smul (get t idx) c).

Definition two {R} {RS : Scalar R} : R := sadd s1 s1.

(** [t[ia] -= u]. *)
Definition isub_row {R} {RS : Scalar R} (ia : nat) (t u : tensor R) : tensor R :=
  mkT (shape t)
      (fun idx => match idx with
                  | i :: rest => if i =? ia then ssub (get t idx) (get u rest)
                                 else get t idx
                  | [] => get t idx
                  end).

(** [t[k] += u]. *)
Definition iadd_row {R} {RS : Scalar R} (k : nat) (t u : tensor R) : tensor R :=
  mkT (shape t)
      (fun idx => match idx with
                  | i :: rest => if i =? k then sadd (get t idx) (get u rest)
                                 else get t idx
                  | [] => get t idx
                  end).

(** [t[ia, :, ia] += u]. *)
Definition iadd_block {R} {RS : Scalar R} (ia : nat) (t u : tensor R) : tensor R :=
  mkT (shape t)
      (fun idx => match idx with
                  | i :: x :: a :: rest =>
                      if (i =? ia) && (a =? ia)
                      then sadd (get t idx) (get u (x :: rest))
                      else get t idx
                  | _ => get t idx
                  end).

(** [t.item()] of a tensor with one element. *)
Definition item {R} (t : tensor R) : R := get t (repeat 0 (ndim t)).

(** Elementwise [t - u] and [t * u] of equally shaped tensors. *)
Definition tsub {R} {RS : Scalar R} (t u : tensor R) : tensor R :=
  mkT (shape t) (fun idx => ssub (get t idx) (get u idx)).

Definition tmul {R} {RS : Scalar R} (t u : tensor R) : tensor R :=
  mkT (shape t) (fun idx => smul (get t idx) (get u idx)).

(** [t.flatten(-2)]: the last two dimensions merged, row-major; raises
    on a tensor with fewer than two dimensions. *)
Definition flatten_last2 {R} (t : tensor R) : option (tensor R) :=
  match rev (shape t) with
  | n2 :: n1 :: pre =>
      Some (mkT (rev pre ++ [n1 * n2])
                (fun idx => get t (removelast idx ++
                                   [last idx 0 / n2; last idx 0 mod n2])))
  | _ => None
  end.

(** [t.unsqueeze(1).repeat(1, k, 1, ..., 1)]: [k] copies along a new
    second dimension. *)
Definition repeat1 {R} (k : nat) (t : tensor R) : tensor R :=
  mkT (match shape t with
       | b :: sh => b :: k :: sh
       | [] => []
       end)
      (fun idx => match idx with
                  | b :: _ :: rest => get t (b :: rest)
                  | _ => get t idx
                  end).

(** [torch.eye(k).reshape(1, k, k).repeat(n, 1, 1)]. *)
Definition eye_batch {R} {RS : Scalar R} (n k : nat) : tensor R :=
  mkT [n; k; k]
      (fun idx => match idx with
                  | [_; v; w] => if v =? w then s1 else s0
                  | _ => s0
                  end).

(** [t[bg:ed, :] -= c] and [t[:, bg:ed] += c] for a scalar [c]. *)
Definition isub_rows {R} {RS : Scalar R} (bg ed : nat) (t : tensor R) (c : R)
    : tensor R :=
  mkT (shape t)
      (fun idx => match idx with
                  | i :: _ => if (bg <=? i) && (i <? ed) then ssub (get t idx) c
                              else get t idx
                  | [] => get t idx
                  end).

Definition iadd_cols {R} {RS : Scalar R} (bg ed : nat) (t : tensor R) (c : R)
    : tensor R :=
  mkT (shape t)
      (fun idx => match idx with
                  | _ :: j :: _ => if (bg <=? j) && (j <? ed) then sadd (get t idx) c
                                   else get t idx
                  | _ => get t idx
                  end).

(** ** The molecule and integral interface ([pyscf.gto])

    [aoslice_by_atom mol ia] is the pair [(bg, ed)] of
    [mol.aoslice_by_atom()[ia, 2:]]; [build] is [gto.Mole()] with the given
    atoms and basis, built in Angstrom; [intor_cross] evaluates a
    one-electron integral between two molecules. *)

Record gto (R Mole Basis : Type) : Type := {
  natm : Mole -> nat;
  nao : Mole -> nat;
  atom_coords : Mole -> list (R * R * R);
  aoslice_by_atom : Mole -> nat -> nat * nat;
  build : list (string * (R * R * R)) -> Basis -> Mole;
  intor_cross : string -> Mole -> Mole -> tensor R
}.

(** [gen_proj_mol(mol, basis)]: one dummy centre per atom, carrying the
    projection basis. *)
Definition gen_proj_mol {R Mole Basis} (G : gto R Mole Basis) (mol : Mole)
    (basis : Basis) : Mole :=
  let mole_coords := atom_coords G mol in
  build G (map (fun coord => ("Ne"%string, coord)) mole_coords) basis.

(** ** [NetMixin]: the correction given by a model *)

Module NetMixin.

(** The attributes of the solver object the methods below read or
    write.  [mol] and the density [make_rdm1()] returns belong to the base
    solver; [is_UHF] is [isinstance(self, scf.uhf.UHF)]. *)
Record state (R Mole Basis : Type) : Type := mkState {
  mol : Mole;
  is_UHF : bool;
  make_rdm1 : tensor R;
  net : option (model R);
  _pbas : Basis;
  _shell_sec : list nat;
  _pmol : Mole;
  _t_ovlp_shells : list (tensor R)
}.

Section Methods.

Context {R : Type} {RS : Scalar R} {Mole Basis : Type}.
Variable G : gto R Mole Basis.
Variable E : eigensolver R.

#[local] Abbreviation state := (state R Mole Basis).

(** [proj_intor(intor)]: integrals between origin and projected basis. *)
Definition proj_intor (self : state) (intor : string) : tensor R :=
  intor_cross G intor (mol self) (_pmol self).

(** [proj_ovlp()]: the overlap, reshaped to [nao x natom x nproj];
    [pnao // natm] raises on a molecule without atoms. *)
Definition proj_ovlp (self : state) : option (tensor R) :=
  let pnao := nao G (_pmol self) in
  let nao := nao G (mol self) in
  let natm := natm G (mol self) in
  let proj := proj_intor self "int1e_ovlp" in
  if natm =? 0 then None
  else reshape [nao; natm; pnao / natm] proj.

(** [prepare_integrals()]. *)
Definition prepare_integrals (self : state) : option state :=
  let self1 := mkState (mol self) (is_UHF self) (make_rdm1 self) (net self)
                 (_pbas self) (_shell_sec self)
                 (gen_proj_mol G (mol self) (_pbas self))
                 (_t_ovlp_shells self) in
  t_proj_ovlp <- proj_ovlp self1 ;;
  shells <- split_last (_shell_sec self1) t_proj_ovlp ;;
  Some (mkState (mol self1) (is_UHF self1) (make_rdm1 self1) (net self1)
          (_pbas self1) (_shell_sec self1) (_pmol self1) shells).

(** The energy as [get_corr] returns it: [t_ec.item()] for a single
    element, the array otherwise. *)
Definition energy_of (t_ec : tensor R) : CorrMixin.energy R :=
  if nelement t_ec =? 1 then CorrMixin.EScalar (item t_ec)
  else CorrMixin.EArray t_ec.

(** The spin policy shared by [get_corr] and [make_eig]:
    [if dm.ndim >= 3 and isinstance(self, scf.uhf.UHF): dm = dm.sum(0)]. *)
Definition spin_sum (self : state) (dm : tensor R) : tensor R :=
  if (3 <=? ndim dm) && is_UHF self then sum0 dm else dm.

(** [get_corr(dm=None)]: correction energy and potential. *)
Definition get_corr (self : state) (dm : option (tensor R))
    : option (CorrMixin.energy R * tensor R) :=
  let dm := match dm with Some d => d | None => make_rdm1 self end in
  match net self with
  | None => Some (CorrMixin.EScalar s0, zeros_like dm)
  | Some m =>
      let dm := spin_sum self dm in
      r <- t_get_corr E m dm (_t_ovlp_shells self) true ;;
      match r with
      | (t_ec, Some t_vc) => Some (energy_of t_ec, t_vc)
      | (_, None) => None
      end
  end.

(** Modelled from the spec: the base solver's own [reset(mol)] (the
    reset protocol of the external mean-field solver, not under src/):
    it rebinds the molecule when one is given and clears nothing that
    this layer caches. *)
Definition super_reset (self : state) (m : option Mole) : state :=
  match m with
  | None => self
  | Some m' => mkState m' (is_UHF self) (make_rdm1 self) (net self)
                 (_pbas self) (_shell_sec self) (_pmol self)
                 (_t_ovlp_shells self)
  end.

(** [reset(mol=None)]. *)
Definition reset (self : state) (m : option Mole) : option state :=
  prepare_integrals (super_reset self m).

(** [make_eig(dm=None)]: eigenvalues of the projected density matrix. *)
Definition make_eig (self : state) (dm : option (tensor R)) : option (tensor R) :=
  let dm := match dm with Some d => d | None => make_rdm1 self end in
  let dm := spin_sum self dm in
  t_make_eig E dm (_t_ovlp_shells self).

(** [make_pdm(dm=None, flatten=False)]: the projected density matrix by
    shell, or, flattened, one array with the shells' matrices unrolled and
    concatenated.  The density matrix is used as it is: spin channels are
    not summed here. *)
Definition make_pdm (self : state) (dm : option (tensor R)) (flatten : bool)
    : option (list (tensor R) + tensor R) :=
  let dm := match dm with Some d => d | None => make_rdm1 self end in
  t_pdm_shells <- t_make_pdm dm (_t_ovlp_shells self) ;;
  if negb flatten then Some (inl t_pdm_shells)
  else
    flat <- mapM flatten_last2 t_pdm_shells ;;
    c <- cat_last flat ;;
    Some (inr c).

End Methods.

End NetMixin.

(** ** [deepqc/scf/grad.py]: the analytic gradient engine *)

Section Grad.

Context {R : Type} {RS : Scalar R} {Mole Basis : Type}.
Variable G : gto R Mole Basis.
Variable E : eigensolver R.

(** [t_make_grad_e_pdm(model, dm, ovlp_shells)]: gradient of the energy
    with respect to the projected density matrix, by shell.  The model is
    asked for its first parameter, without the test [t_get_corr] makes, so
    a callable that is not a module raises here; it is evaluated on the
    descriptor with a leading dimension added;
    [torch.autograd.grad(ec, pdm_shells)] has no cotangent argument and
    raises unless [ec] has a single element. *)
Definition t_make_grad_e_pdm (m : model R) (dm : tensor R)
    (ovlp_shells : list (tensor R)) : option (list (tensor R)) :=
  pdm_shells <- mapM (fun po => einsum "rap,rs,saq->apq" [po; dm; po]) ovlp_shells ;;
  eig_shells <- mapM (symeig E) pdm_shells ;;
  c <- cat_last eig_shells ;;
  let ceig := unsqueeze0 c in
  _dref <- next_parameters m ;;
  let ec := forward m (to_ref ceig _dref) in
  if nelement ec =? 1 then
    let g := squeeze0 (backward m ceig (ones_like ec)) in
    g_shells <- split_last (map last_dim eig_shells) g ;;
    Some (map (fun '(pdm, gk) => symeig_vjp E pdm gk) (combine pdm_shells g_shells))
  else None.

(** One pass of the inner loop of [t_make_grad_pdm_x] for atom [ia]. *)
Definition grad_pdm_x_atom (mol : Mole) (dm govx ovlp gproj : tensor R)
    (gdmx : tensor R) (ia : nat) : option (tensor R) :=
  let '(bg, ed) := aoslice_by_atom G mol ia in
  (* contribution of < \nabla mol_ao | *)
  c <- einsum "xrap,rs,saq->xapq" [slice1 bg ed govx; slice0 bg ed dm; ovlp] ;;
  let gdmx := isub_row ia gdmx c in
  (* contribution of | \nabla alpha^I_rlm > *)
  Some (iadd_block ia gdmx (select1 ia gproj)).

Fixpoint grad_pdm_x_atoms (mol : Mole) (dm govx ovlp gproj : tensor R)
    (gdmx : tensor R) (ias : list nat) : option (tensor R) :=
  match ias with
  | [] => Some gdmx
  | ia :: rest =>
      gdmx' <- grad_pdm_x_atom mol dm govx ovlp gproj gdmx ia ;;
      grad_pdm_x_atoms mol dm govx ovlp gproj gdmx' rest
  end.

(** The body of the loop over shells of [t_make_grad_pdm_x]. *)
Definition grad_pdm_x_shell (mol : Mole) (dm : tensor R)
    (gdmx govx ovlp : tensor R) : option (tensor R) :=
  (* contribution of projection for all I *)
  gproj <- einsum "xrap,rs,saq->xapq" [govx; dm; ovlp] ;;
  gdmx <- grad_pdm_x_atoms mol dm govx ovlp gproj gdmx (seq 0 (natm G mol)) ;;
  (* symmetrize p and q *)
  Some (tadd gdmx (transpose_last2 gdmx)).

(** The loop over [zip(gdmx_shells, ipov_shells, ovlp_shells)]: it stops
    with the shortest list, and the remaining [gdmx] stay as they are. *)
Fixpoint grad_pdm_x_shells (mol : Mole) (dm : tensor R)
    (gdmx_shells ipov_shells ovlp_shells : list (tensor R))
    : option (list (tensor R)) :=
  match gdmx_shells, ipov_shells, ovlp_shells with
  | gdmx :: gs, govx :: ips, ovlp :: ovs =>
      gdmx' <- grad_pdm_x_shell mol dm gdmx govx ovlp ;;
      rest <- grad_pdm_x_shells mol dm gs ips ovs ;;
      Some (gdmx' :: rest)
  | _, _, _ => Some gdmx_shells
  end.

(** [t_make_grad_pdm_x(mol, dm, ovlp_shells, ipov_shells)]: jacobian of
    the projected density matrix with respect to atomic coordinates. *)
Definition t_make_grad_pdm_x (mol : Mole) (dm : tensor R)
    (ovlp_shells ipov_shells : list (tensor R)) : option (list (tensor R)) :=
  let natm := natm G mol in
  let shell_sec := map last_dim ovlp_shells in
  let gdmx_shells := map (fun ss => zeros (R:=R) [natm; 3; natm; ss; ss]) shell_sec in
  grad_pdm_x_shells mol dm gdmx_shells ipov_shells ovlp_shells.

(** The loop over [enumerate(atmlst)] of [t_grad_corr]; [k] is the
    position of the first atom of [ias] in [atmlst].  Indexing with an
    atom the molecule does not have raises. *)
Fixpoint grad_corr_atoms (mol : Mole) (dm ginner gouter gedm : tensor R)
    (dec : tensor R) (k : nat) (ias : list nat) : option (tensor R) :=
  match ias with
  | [] => Some dec
  | ia :: rest =>
      if ia <? natm G mol then
        let '(bg, ed) := aoslice_by_atom G mol ia in
        a <- einsum "xpq,pq->x" [select1 ia ginner; select0 ia gedm] ;;
        let dec := iadd_row k dec a in
        b <- einsum "xrs,rs->x" [slice1 bg ed gouter; slice0 bg ed dm] ;;
        let dec := iadd_row k dec b in
        grad_corr_atoms mol dm ginner gouter gedm dec (S k) rest
      else None
  end.

Fixpoint grad_corr_shells (mol : Mole) (dm : tensor R)
    (gedm_shells ipov_shells ovlp_shells : list (tensor R))
    (atmlst : list nat) (dec : tensor R) : option (tensor R) :=
  match gedm_shells, ipov_shells, ovlp_shells with
  | gedm :: gs, govx :: ips, ovlp :: ovs =>
      gi <- einsum "xrap,rs,saq->xapq" [govx; dm; ovlp] ;;
      let ginner := tscale gi two in
      go <- einsum "xrap,apq,saq->xrs" [govx; gedm; ovlp] ;;
      let gouter := tscale (tneg go) two in
      dec' <- grad_corr_atoms mol dm ginner gouter gedm dec 0 atmlst ;;
      grad_corr_shells mol dm gs ips ovs atmlst dec'
  | _, _, _ => Some dec
  end.

(** [t_grad_corr(mol, model, dm, ovlp_shells, ipov_shells, atmlst=None)]. *)
Definition t_grad_corr (mol : Mole) (m : model R) (dm : tensor R)
    (ovlp_shells ipov_shells : list (tensor R)) (atmlst : option (list nat))
    : option (tensor R) :=
  let atmlst := match atmlst with
                | Some l => l
                | None => seq 0 (natm G mol)
                end in
  let dec := zeros (R:=R) [List.length atmlst; 3] in
  gedm_shells <- t_make_grad_e_pdm m dm ovlp_shells ;;
  grad_corr_shells mol dm gedm_shells ipov_shells ovlp_shells atmlst dec.

(** [t_batch_jacobian(f, x, noutputs)]: the jacobian of [f] at every
    element of the batch [x], by one reverse pass on [noutputs] copies of
    the input with the rows of the identity as cotangents.  The
    differentiable function [f] is given by its value and its reverse-mode
    rule; [torch.autograd.grad] raises when the cotangent does not have the
    shape of the output. *)
Definition t_batch_jacobian (f : eigensolver R) (x : tensor R) (noutputs : nat)
    : option (tensor R) :=
  match shape x with
  | [] => None
  | n :: _ =>
      let x := repeat1 noutputs x in (* b, out_dim, *in_dim *)
      y <- symeig f x ;;
      let input_val := eye_batch n noutputs in
      if shape_eqb (shape y) (shape input_val)
      then Some (symeig_vjp f x input_val)
      else None
  end.

(** [t_make_grad_eig_x(mol, dm, ovlp_shells, ipov_shells)]: jacobian of
    the descriptor eigenvalues with respect to atomic coordinates. *)
Definition t_make_grad_eig_x (mol : Mole) (dm : tensor R)
    (ovlp_shells ipov_shells : list (tensor R)) : option (tensor R) :=
  (* v stands for eigen values *)
  pdm_shells <- mapM (fun po => einsum "rap,rs,saq->apq" [po; dm; po]) ovlp_shells ;;
  gvdm_shells <- mapM (fun pdm => t_batch_jacobian E pdm (last_dim pdm)) pdm_shells ;;
  gdmx_shells <- t_make_grad_pdm_x mol dm ovlp_shells ipov_shells ;;
  gvx_shells <- mapM (fun '(gdmx, gvdm) => einsum "bxapq,avpq->bxav" [gdmx; gvdm])
                     (combine gdmx_shells gvdm_shells) ;;
  cat_last gvx_shells.

End Grad.

(** ** [Gradients]: the gradient object and its scanner *)

Module Gradients.

(** The attributes of the gradient object.  It refers to the solver it
    was built from ([self.base], passed to the methods below) and keeps
    its own [mol] and its own references to the projection integrals. *)
Record state (R Mole : Type) : Type := mkState {
  mol : Mole;
  _t_ovlp_shells : list (tensor R);
  _t_ipov_shells : list (tensor R)
}.

(** A gradient object together with the solver it refers to. *)
Record world (R Mole Basis : Type) : Type := mkWorld {
  base : NetMixin.state R Mole Basis;
  grad : state R Mole
}.

(** The attributes [de] and [dec] of the gradient object: the gradient
    the driver stores after a run, and the memorized correction term;
    [None] until they are set. *)
Record memo (R : Type) : Type := mkMemo {
  de : option (tensor R);
  dec : option (tensor R)
}.

(** What [grad_elec] asks of the base gradient class, of the solver and
    of the molecule: the base class's own [grad_elec], the solver's
    [make_rdm1(mo_coeff, mo_occ)], [mol.symmetry] and [symmetrize].  [MO]
    stands for the orbital arguments, passed through as they are. *)
Record grad_base (R Mole MO : Type) : Type := {
  super_grad_elec : MO -> option (list nat) -> tensor R;
  make_rdm1_mo : MO -> tensor R;
  symmetry : Mole -> bool;
  symmetrize : tensor R -> option (list nat) -> tensor R
}.

Section Methods.

Context {R : Type} {RS : Scalar R} {Mole Basis : Type}.
Variable G : gto R Mole Basis.
Variable E : eigensolver R.

#[local] Abbreviation solver := (NetMixin.state R Mole Basis).
#[local] Abbreviation world := (world R Mole Basis).

(** [prepare_integrals()]. *)
Definition prepare_integrals (mf : solver) (self : state R Mole)
    : option (state R Mole) :=
  (* < mol_ao | alpha^I_rlm > by shells *)
  let ovlp := NetMixin._t_ovlp_shells mf in
  (* < \nabla mol_ao | alpha^I_rlm > *)
  let t_proj_ipovlp := NetMixin.proj_intor G mf "int1e_ipovlp" in
  t <- reshape_infer [3; nao G (mol self); natm G (mol self)] t_proj_ipovlp ;;
  ipov <- split_last (NetMixin._shell_sec mf) t ;;
  Some (mkState (mol self) ovlp ipov).

(** Modelled from the spec: the constructor of the base gradient class
    (not under src/), which binds [self.base = mf] and [self.mol = mf.mol];
    the rest is [__init__(mf)] as written: [prepare_integrals] runs. *)
Definition init (mf : solver) : option world :=
  g <- prepare_integrals mf (mkState (NetMixin.mol mf) [] []) ;;
  Some (mkWorld mf g).

(** [grad_corr(dm=None, atmlst=None)]: contribution of the correction. *)
Definition grad_corr (w : world) (dm : option (tensor R))
    (atmlst : option (list nat)) : option (tensor R) :=
  let self := grad w in
  let atmlst := match atmlst with
                | Some l => l
                | None => seq 0 (natm G (mol self))
                end in
  match NetMixin.net (base w) with
  | None => Some (zeros [List.length atmlst; 3])
  | Some m =>
      let dm := match dm with
                | Some d => d
                | None => NetMixin.make_rdm1 (base w)
                end in
      t_grad_corr G E (mol self) m dm (_t_ovlp_shells self)
                  (_t_ipov_shells self) (Some atmlst)
  end.

(** [grad_elec(mo_energy, mo_coeff, mo_occ, atmlst)]: the base
    gradient plus the correction term, which is memorized in [self.dec]
    (symmetrized when the molecule has symmetry). *)
Definition grad_elec {MO} (B : grad_base R Mole MO) (w : world) (mm : memo R)
    (mo : MO) (atmlst : option (list nat)) : option (tensor R * memo R) :=
  let de0 := super_grad_elec B mo atmlst in
  dec0 <- grad_corr w (Some (make_rdm1_mo B mo)) atmlst ;;
  (* memeorize the result to save time in get_base *)
  let mm' := mkMemo (de mm)
               (Some (if symmetry B (mol (grad w)) then symmetrize B dec0 atmlst
                      else dec0)) in
  Some (tadd de0 dec0, mm').

(** [get_base()]: the gradient given by the raw base method; the
    assertion fails unless both [de] and [dec] are set. *)
Definition get_base (mm : memo R) : option (tensor R) :=
  match de mm, dec mm with
  | Some d, Some c => Some (tsub d c)
  | _, _ => None
  end.

(** [make_grad_pdm_x(dm=None, flatten=False)]: jacobian of the projected
    density matrix with respect to atomic coordinates. *)
Definition make_grad_pdm_x (w : world) (dm : option (tensor R)) (flatten : bool)
    : option (list (tensor R) + tensor R) :=
  let self := grad w in
  let dm := match dm with
            | Some d => d
            | None => NetMixin.make_rdm1 (base w)
            end in
  t_gdmx_shells <- t_make_grad_pdm_x G (mol self) dm (_t_ovlp_shells self)
                     (_t_ipov_shells self) ;;
  if negb flatten then Some (inl t_gdmx_shells)
  else
    flat <- mapM flatten_last2 t_gdmx_shells ;;
    c <- cat_last flat ;;
    Some (inr c).

(** [make_grad_eig_x(dm=None)]: jacobian of the descriptor eigenvalues
    with respect to atomic coordinates. *)
Definition make_grad_eig_x (w : world) (dm : option (tensor R)) : option (tensor R) :=
  let self := grad w in
  let dm := match dm with
            | Some d => d
            | None => NetMixin.make_rdm1 (base w)
            end in
  t_make_grad_eig_x G E (mol self) dm (_t_ovlp_shells self) (_t_ipov_shells self).

(** Modelled from the spec: the solver scanner [mf_scanner(mol)] (the
    base solver's function-of-geometry interface, not under src/): it
    issues the solver's reset at the new geometry and runs the
    self-consistent iteration, which leaves a new density; [converge]
    stands for that iteration. *)
Definition mf_scanner (converge : solver -> tensor R) (mf : solver) (m : Mole)
    : option solver :=
  mf' <- NetMixin.reset G mf (Some m) ;;
  Some (NetMixin.mkState (NetMixin.mol mf') (NetMixin.is_UHF mf') (converge mf')
          (NetMixin.net mf') (NetMixin._pbas mf') (NetMixin._shell_sec mf')
          (NetMixin._pmol mf') (NetMixin._t_ovlp_shells mf')).

(** [NewScanner.__call__(mol)] up to the point where the gradient is
    evaluated: the solver scanner runs at the new molecule, the gradient
    object takes the molecule and refreshes its integrals. *)
Definition scanner_call (converge : solver -> tensor R) (w : world) (m : Mole)
    : option world :=
  mf' <- mf_scanner converge (base w) m ;;
  let self := mkState m (_t_ovlp_shells (grad w)) (_t_ipov_shells (grad w)) in
  (* adding the following line to refresh integrals *)
  self' <- prepare_integrals mf' self ;;
  Some (mkWorld mf' self').

(** A reset issued on the solver itself: the gradient object is not
    touched. *)
Definition solver_reset (w : world) (m : option Mole) : option world :=
  mf' <- NetMixin.reset G (base w) m ;;
  Some (mkWorld mf' (grad w)).

End Methods.

End Gradients.

(** ** [make_mask]: the legacy sign mask of one moving atom

    [mask[bg1:ed1, :] -= 1] for the orbitals of the atom in [mol1],
    [mask[:, bg2:ed2] += 1] for its functions in [mol2]; indexing
    [aoslice_by_atom()] with an atom a molecule does not have raises. *)
Definition make_mask {R} {RS : Scalar R} {Mole Basis} (G : gto R Mole Basis)
    (mol1 mol2 : Mole) (atom_id : nat) : option (tensor R) :=
  let mask := zeros (R:=R) [nao G mol1; nao G mol2] in
  if atom_id <? natm G mol1 then
    let '(bg1, ed1) := aoslice_by_atom G mol1 atom_id in
    if atom_id <? natm G mol2 then
      let '(bg2, ed2) := aoslice_by_atom G mol2 atom_id in
      let mask := isub_rows bg1 ed1 mask s1 in
      let mask := iadd_cols bg2 ed2 mask s1 in
      Some mask
    else None
  else None.

(** ** [deepqc/iterate/iterate.py]: argument dictionaries

    A Python [dict] with string keys is a list of pairs with distinct
    keys, in insertion order.  [load_yaml] and the text Python prints for a
    list of keys are external. *)

Section Iterate.

Variable V : Type.

#[local] Abbreviation dict := (list (string * V)).

(** [d.get(k)] and [k in d]. *)
Fixpoint dict_get (d : dict) (k : string) : option V :=
  match d with
  | [] => None
  | (k', v) :: d' => if String.eqb k' k then Some v else dict_get d' k
  end.

Definition dict_mem (d : dict) (k : string) : bool :=
  match dict_get d k with
  | Some _ => true
  | None => false
  end.

(** [d[k] = v]: an existing key keeps its position, a new one goes last. *)
Fixpoint dict_set (d : dict) (k : string) (v : V) : dict :=
  match d with
  | [] => [(k, v)]
  | (k', v') :: d' => if String.eqb k' k then (k', v) :: d'
                      else (k', v') :: dict_set d' k v
  end.

(** [{**d1, **d2}]. *)
Definition dict_update (d1 d2 : dict) : dict :=
  fold_left (fun acc kv => dict_set acc (fst kv) (snd kv)) d2 d1.

(** The argument [data] of [check_arg_dict]: [None], the path of a YAML
    file, or a dict. *)
Inductive arg_data : Type :=
| ANone
| APath (path : string)
| ADict (d : dict).

Variable load_yaml : string -> option dict.
Variable repr_keys : list string -> string.

(** [check_arg_dict(data, default, strict=True)]: the merged dict and
    the lines written to [sys.stderr].  The conditional expression binds
    weaker than [+]: the message is the key list followed by
    ["and would be discarded"] when [strict], and ["but kept"] alone
    otherwise. *)
Definition check_arg_dict (data : arg_data) (default : dict) (strict : bool)
    : option (dict * list string) :=
  data <- match data with
          | ANone => Some []
          | APath path => load_yaml path
          | ADict d => Some d
          end ;;
  let allowed := filter (fun kv => dict_mem default (fst kv)) data in
  let outside := filter (fun kv => negb (dict_mem default (fst kv))) data in
  let err :=
    match outside with
    | [] => []
    | _ :: _ =>
        [if strict
         then (("following ars are not in the default list: "
                ++ repr_keys (map fst outside)) ++ "and would be discarded")%string
         else "but kept"%string]
    end in
  if strict then Some (dict_update default allowed, err)
  else Some (dict_update default data, err).

End Iterate.

(** The values of the machine settings: integers, [None] and strings. *)
Inductive pyval : Type :=
| PInt (z : Z)
| PNone
| PStr (s : string).

Definition DEFAULT_SCF_MACHINE : list (string * pyval) :=
  [("sub_size"%string, PInt 1);
   ("group_size"%string, PInt 1);
   ("ingroup_parallel"%string, PInt 1);
   ("dispatcher"%string, PNone);
   ("resources"%string, PNone);
   ("python"%string, PStr "python")].

Definition DEFAULT_TRN_MACHINE : list (string * pyval) :=
  [("dispatcher"%string, PNone);
   ("resources"%string, PNone);
   ("python"%string, PStr "python")].

(** ** The contraction as the specification writes it

    [(D^I)_{pq} = sum_{r,s} O_{r,I,p} * DM_{rs} * O_{s,I,q}], for the
    density matrix at batch position [b]. *)
Definition pdm_entry {R} {RS : Scalar R} (po dm : tensor R) (nao : nat)
    (b : list nat) (a p q : nat) : R :=
  rsum nao (fun r => rsum nao (fun s =>
    smul (smul (get po [r; a; p]) (get dm (b ++ [r; s]))) (get po [s; a; q]))).

(** ** The contributions to the projected-density jacobian as the
    specification lists them

    (a) the derivative from the orbitals centred on the moving atom: the
    contraction with the orbital index restricted to the atom's range
    [bg:ed]; (b) the derivative from the projection functions: the full
    contraction. *)
Definition orbital_term {R} {RS : Scalar R} (govx dm ovlp : tensor R)
    (nao bg ed : nat) (x a p q : nat) : R :=
  rsum (slice_len nao bg ed) (fun r => rsum nao (fun s =>
    smul (smul (get govx [x; bg + r; a; p]) (get dm [bg + r; s]))
         (get ovlp [s; a; q]))).

Definition projector_term {R} {RS : Scalar R} (govx dm ovlp : tensor R)
    (nao : nat) (x a p q : nat) : R :=
  rsum nao (fun r => rsum nao (fun s =>
    smul (smul (get govx [x; r; a; p]) (get dm [r; s])) (get ovlp [s; a; q]))).

(** What moving atom [ia] contributes at projection atom [a] before the
    symmetrization: (a) subtracted, and (b) added where [a] is [ia]. *)
Definition moving_atom_term {R} {RS : Scalar R} (govx dm ovlp : tensor R)
    (nao : nat) (slice : nat * nat) (ia x a p q : nat) : R :=
  let orb := ssub s0 (orbital_term govx dm ovlp nao (fst slice) (snd slice) x a p q) in
  if a =? ia then sadd orb (projector_term govx dm ovlp nao x a p q) else orb.

(** ** The projection integrals of a geometry, as the specification
    defines them

    The overlap between the molecular basis and the local basis of the
    surrogate molecule, reshaped to [nao x natm x nproj] and split by
    shell; and its coordinate derivative, reshaped to
    [3 x nao x natm x nproj] and split by shell.  Both are functions of
    the geometry, the local basis and the shell sizes alone. *)
Definition projection_overlaps {R Mole Basis} (G : gto R Mole Basis)
    (pbas : Basis) (shell_sec : list nat) (m : Mole) : option (list (tensor R)) :=
  let pmol := gen_proj_mol G m pbas in
  t <- reshape [nao G m; natm G m; fold_right Nat.add 0 shell_sec]
               (intor_cross G "int1e_ovlp" m pmol) ;;
  split_last shell_sec t.

Definition derivative_overlaps {R Mole Basis} (G : gto R Mole Basis)
    (pbas : Basis) (shell_sec : list nat) (m : Mole) : option (list (tensor R)) :=
  let pmol := gen_proj_mol G m pbas in
  t <- reshape [3; nao G m; natm G m; fold_right Nat.add 0 shell_sec]
               (intor_cross G "int1e_ipovlp" m pmol) ;;
  split_last shell_sec t.

(** ** The force terms of [t_grad_corr] in closed form *)

(** The two terms [t_grad_corr] adds to the row of atom [ia]. *)
Definition force_inner {R} {RS : Scalar R} (ginner gedm : tensor R) (ss ia x : nat) : R :=
  rsum ss (fun p => rsum ss (fun q =>
    smul (get ginner [x; ia; p; q]) (get gedm [ia; p; q]))).

Definition force_outer {R} {RS : Scalar R} (gouter dm : tensor R) (nao : nat)
    (slice : nat * nat) (x : nat) : R :=
  rsum (slice_len nao (fst slice) (snd slice)) (fun r => rsum nao (fun s =>
    smul (get gouter [x; fst slice + r; s]) (get dm [fst slice + r; s]))).

(** The force terms of one shell in closed form: the projector part
    [einsum('xpq,pq->x', ginner[:,ia], gedm[ia])] and the orbital part
    [einsum('xrs,rs->x', gouter[:,bg:ed], dm[bg:ed])]. *)
Definition projector_force {R} {RS : Scalar R} (gedm govx dm ovlp : tensor R)
    (nao ss ia x : nat) : R :=
  rsum ss (fun p => rsum ss (fun q =>
    smul (smul (projector_term govx dm ovlp nao x ia p q) two) (get gedm [ia; p; q]))).

Definition orbital_force {R} {RS : Scalar R} (gedm govx dm ovlp : tensor R)
    (nao na ss : nat) (slice : nat * nat) (x : nat) : R :=
  rsum (slice_len nao (fst slice) (snd slice)) (fun i => rsum nao (fun s =>
    smul (smul (sopp (rsum na (fun a => rsum ss (fun p => rsum ss (fun q =>
                  smul (smul (get govx [x; fst slice + i; a; p]) (get gedm [a; p; q]))
                       (get ovlp [s; a; q]))))))
               two)
         (get dm [fst slice + i; s]))).

(** What one pass of the loop over shells adds to the row of atom [ia]. *)
Definition shell_force_step {R} {RS : Scalar R} (dm : tensor R) (nao na : nat)
    (slice : nat * nat) (ia x : nat) (acc : R)
    (sh : tensor R * (tensor R * tensor R)) : R :=
  let '(gedm, (govx, ovlp)) := sh in
  sadd (sadd acc (projector_force gedm govx dm ovlp nao (last_dim ovlp) ia x))
       (orbital_force gedm govx dm ovlp nao na (last_dim ovlp) slice x).

(** The descriptor-level pairing, shell by shell: the sum over atoms
    and over the eigenvalues of each shell of the energy gradient [g] at
    the shell's columns (starting at [off]) times the shell's
    eigenvalue jacobian, for moving atom [ia] and direction [x]. *)
Fixpoint shell_pairing {R} {RS : Scalar R} (na ia x : nat) (g : tensor R)
    (off : nat) (gvx_shells : list (tensor R)) : R :=
  match gvx_shells with
  | [] => s0
  | t :: rest =>
      sadd (rsum na (fun a => rsum (last_dim t) (fun v =>
              smul (get g [a; off + v]) (get t [ia; x; a; v]))))
           (shell_pairing na ia x g (off + last_dim t) rest)
  end.

(** ** Instances of the parameters

    An eigensolver for batches of diagonal matrices with ascending
    diagonal, in particular of one-by-one matrices (shells of a single
    function): the eigenvalues are the diagonal entries, and the
    reverse-mode rule [V diag(g) V^T] has the identity for [V]. *)
Definition diag_symeig {R} (t : tensor R) : option (tensor R) :=
  match rev (shape t) with
  | n :: n' :: _ =>
      if n =? n'
      then Some (mkT (removelast (shape t)) (fun idx => get t (idx ++ [last idx 0])))
      else None
  | _ => None
  end.

Definition diag_symeig_vjp {R} {RS : Scalar R} (pdm g : tensor R) : tensor R :=
  mkT (shape pdm)
      (fun idx => let pre := removelast idx in
                  if last pre 0 =? last idx 0 then get g pre else s0).

Definition diag_eigensolver {R} {RS : Scalar R} : eigensolver R :=
  {| symeig := diag_symeig; symeig_vjp := diag_symeig_vjp |}.

(** The sum of all entries of a tensor. *)
Fixpoint sum_entries {R} {RS : Scalar R} (sh : list nat) (f : list nat -> R) : R :=
  match sh with
  | [] => f []
  | n :: sh' => rsum n (fun i => sum_entries sh' (fun idx => f (i :: idx)))
  end.

Definition total {R} {RS : Scalar R} (t : tensor R) : R :=
  sum_entries (shape t) (get t).

(** The trivial model: a module with one weight [c] that returns the
    weight times the sum of all descriptor entries, [c * x.sum()]. *)
Definition model_sum (c : Z) : model Z :=
  {| forward := fun x => mkT [] (fun _ => (c * total x)%Z);
     backward := fun x g => mkT (shape x) (fun _ => (c * get g [])%Z);
     parameters := Some (mkT [] (fun _ => c), []) |}.

(** A model that tells a descriptor with a leading batch dimension from
    one without: a module with one weight [w] (here 1) that returns
    [x.dim() * w * x.sum()]. *)
Definition model_rank : model Z :=
  {| forward := fun x => mkT [] (fun _ => (Z.of_nat (ndim x) * total x)%Z);
     backward := fun x g => mkT (shape x) (fun _ => (Z.of_nat (ndim x) * get g [])%Z);
     parameters := Some (mkT [] (fun _ => 1%Z), []) |}.

(** A callable that is not a module: the function [lambda x: x.sum()]. *)
Definition plain_sum : model Z :=
  {| forward := fun x => mkT [] (fun _ => total x);
     backward := fun x g => mkT (shape x) (fun _ => get g []);
     parameters := None |}.

(** Integer matrices and three-index arrays from nested lists. *)
Definition matrix (rows : list (list Z)) : tensor Z :=
  mkT [List.length rows; List.length (hd [] rows)]
      (fun idx => match idx with
                  | [i; j] => nth j (nth i rows []) 0%Z
                  | _ => 0%Z
                  end).

Definition array3 (a : list (list (list Z))) : tensor Z :=
  mkT [List.length a; List.length (hd [] a); List.length (hd [] (hd [] a))]
      (fun idx => match idx with
                  | [i; j; k] => nth k (nth j (nth i a []) []) 0%Z
                  | _ => 0%Z
                  end).

Definition array4 (a : list (list (list (list Z)))) : tensor Z :=
  mkT [List.length a; List.length (hd [] a); List.length (hd [] (hd [] a));
       List.length (hd [] (hd [] (hd [] a)))]
      (fun idx => match idx with
                  | [i; j; k; l] => nth l (nth k (nth j (nth i a []) []) []) 0%Z
                  | _ => 0%Z
                  end).

(** A molecule on a line: atoms at integer positions with [per_atom]
    basis functions each, and a stand-in integral provider whose values
    depend on the positions of the two centres. *)
Record line_mol : Type := mkLine {
  positions : list Z;
  per_atom : nat
}.

Definition centre (m : line_mol) (i : nat) : Z :=
  nth (i / per_atom m) (positions m) 0%Z.

Definition line_intor (intor : string) (m1 m2 : line_mol) : tensor Z :=
  let n1 := List.length (positions m1) * per_atom m1 in
  let n2 := List.length (positions m2) * per_atom m2 in
  if String.eqb intor "int1e_ovlp"
  then mkT [n1; n2]
           (fun idx => match idx with
                       | [r; c] => (centre m1 r * centre m2 c + 1)%Z
                       | _ => 0%Z
                       end)
  else mkT [3; n1; n2]
           (fun idx => match idx with
                       | [x; r; c] => if x =? 0 then (2 * centre m1 r + centre m2 c + 1)%Z
                                      else 0%Z
                       | _ => 0%Z
                       end).

Definition line_gto : gto Z line_mol nat :=
  {| natm := fun m => List.length (positions m);
     nao := fun m => List.length (positions m) * per_atom m;
     atom_coords := fun m => map (fun x => (x, 0%Z, 0%Z)) (positions m);
     aoslice_by_atom := fun m ia => (ia * per_atom m, (ia + 1) * per_atom m);
     build := fun atoms basis =>
                mkLine (map (fun a => fst (fst (snd a))) atoms) basis;
     intor_cross := line_intor |}.

(** Two geometries of a two-atom molecule, one function per atom, and a
    solver with one projection shell of a single function. *)
Definition mol_a : line_mol := mkLine [0; 1]%Z 1.
Definition mol_b : line_mol := mkLine [0; 2]%Z 1.

Definition solver_at (m : line_mol) (net : option (model Z))
    : NetMixin.state Z line_mol nat :=
  NetMixin.mkState m false (matrix [[1; 0]; [0; 1]]%Z) net 1 [1]
    (gen_proj_mol line_gto m 1) [].


(** ** Inputs of the worked instances *)

Definition dm_a : tensor Z := matrix [[1; 2]; [2; 3]]%Z.
Definition dm_half : tensor Z := matrix [[1; 0]; [0; 1]]%Z.
Definition ovlp_a : tensor Z := array3 [[[1; 0]]; [[0; 1]]]%Z.
Definition ovlp_s : tensor Z := array3 [[[1]; [1]]; [[1]; [2]]]%Z.
Definition ipov_s : tensor Z :=
  array4 [[[[1]; [2]]; [[3]; [4]]]; [[[0]; [0]]; [[0]; [0]]];
          [[[0]; [0]]; [[0]; [0]]]]%Z.

(** Overlaps of one shell for a molecule without atoms. *)
Definition ovlp_no_atoms : tensor Z := zeros [2; 0; 1].

(** An unrestricted and a restricted solver with the same overlaps. *)
Definition uhf_solver : NetMixin.state Z line_mol nat :=
  NetMixin.mkState mol_a true dm_half (Some (model_sum 1)) 1 [1]
    (gen_proj_mol line_gto mol_a 1) [ovlp_s].

Definition rhf_solver : NetMixin.state Z line_mol nat :=
  NetMixin.mkState mol_a false dm_half (Some (model_sum 1)) 1 [1]
    (gen_proj_mol line_gto mol_a 1) [ovlp_s].

(** A solver without model and a gradient object on it. *)
Definition world_no_model : Gradients.world Z line_mol nat :=
  Gradients.mkWorld (solver_at mol_a None) (Gradients.mkState mol_a [] []).

(** The solver at the first geometry, integrals prepared. *)
Definition solver_a : option (NetMixin.state Z line_mol nat) :=
  NetMixin.prepare_integrals line_gto (solver_at mol_a (Some (model_sum 1))).

(** The entries of a tensor at the listed positions. *)
Definition entries (t : tensor Z) (idxs : list (list nat)) : list Z :=
  map (get t) idxs.

(** A base solver for the hook layer: its potential is the density plus
    the previous potential, its energies are entries of the potential it
    is given, and the correction is a fixed energy and potential. *)
Definition toy_base : CorrMixin.base_solver Z unit :=
  {| CorrMixin.self_mol := tt;
     CorrMixin.make_rdm1 := dm_a;
     CorrMixin.get_hcore := dm_half;
     CorrMixin.super_get_veff :=
       fun _ dm _ vhf_last _ =>
         match dm, vhf_last with
         | Some d, Some v => tadd d v
         | Some d, None => d
         | None, _ => dm_a
         end;
     CorrMixin.super_energy_elec :=
       fun _ _ vhf => (get vhf [0; 0], get vhf [0; 1]);
     CorrMixin.get_corr := fun dm => Some (CorrMixin.EScalar 7%Z, dm_half) |}.

(** A base solver for the hook layer of an unrestricted method: the
    potential has the two spin channels, the correction potential has
    none. *)
Definition dm_spin : tensor Z := stack [dm_a; dm_half].
Definition v0_spin : tensor Z := array3 [[[1; 2]; [3; 4]]; [[1; 0]; [1; 2]]]%Z.
Definition vc_flat : tensor Z := matrix [[2; 3]; [2; 4]]%Z.

Definition toy_base_uhf : CorrMixin.base_solver Z unit :=
  {| CorrMixin.self_mol := tt;
     CorrMixin.make_rdm1 := dm_spin;
     CorrMixin.get_hcore := dm_half;
     CorrMixin.super_get_veff := fun _ _ _ _ _ => v0_spin;
     CorrMixin.super_energy_elec :=
       fun _ _ vhf => (get vhf [0; 0; 0], get vhf [0; 0; 1]);
     CorrMixin.get_corr := fun dm => Some (CorrMixin.EScalar 7%Z, vc_flat) |}.

(** A base solver whose potential cannot be added to the correction
    potential. *)
Definition toy_base_mismatch : CorrMixin.base_solver Z unit :=
  {| CorrMixin.self_mol := tt;
     CorrMixin.make_rdm1 := dm_a;
     CorrMixin.get_hcore := dm_half;
     CorrMixin.super_get_veff := fun _ _ _ _ _ => zeros [2; 3];
     CorrMixin.super_energy_elec := fun _ _ vhf => (0%Z, 0%Z);
     CorrMixin.get_corr := fun dm => Some (CorrMixin.EScalar 7%Z, vc_flat) |}.

(** A base solver for the hook layer whose correction is the one of a
    solver without model. *)
Definition toy_base_no_model : CorrMixin.base_solver Z line_mol :=
  {| CorrMixin.self_mol := mol_a;
     CorrMixin.make_rdm1 := dm_a;
     CorrMixin.get_hcore := dm_half;
     CorrMixin.super_get_veff :=
       fun _ dm dm_last vhf_last hermi =>
         CorrMixin.super_get_veff toy_base None dm dm_last vhf_last hermi;
     CorrMixin.super_energy_elec := CorrMixin.super_energy_elec toy_base;
     CorrMixin.get_corr :=
       fun dm => NetMixin.get_corr diag_eigensolver (solver_at mol_a None) (Some dm) |}.

(** A solver whose projection basis has two shells, of one and of two
    functions per atom. *)
Definition solver_two_shells : NetMixin.state Z line_mol nat :=
  NetMixin.mkState mol_a false dm_half None 3 [1; 2]
    (gen_proj_mol line_gto mol_a 3) [].

(** Overlaps of a shell of two functions on two atoms, and a solver
    holding a shell of one and a shell of two functions. *)
Definition ovlp_p : tensor Z := array3 [[[1; 0]; [0; 1]]; [[1; 1]; [2; 0]]]%Z.

Definition solver_flat : NetMixin.state Z line_mol nat :=
  NetMixin.mkState mol_a false dm_a None 3 [1; 2]
    (gen_proj_mol line_gto mol_a 3) [ovlp_s; ovlp_p].

(** The same solver with a model, and with a callable that is not a
    module for its net. *)
Definition solver_with_model : NetMixin.state Z line_mol nat :=
  NetMixin.mkState mol_a false dm_half (Some (model_sum 1)) 3 [1; 2]
    (gen_proj_mol line_gto mol_a 3) [].

Definition solver_with_callable : NetMixin.state Z line_mol nat :=
  NetMixin.mkState mol_a false dm_half (Some plain_sum) 3 [1; 2]
    (gen_proj_mol line_gto mol_a 3) [].

(** Derivative integrals of the shell of two functions, and a gradient
    object holding both shells. *)
Definition ipov_p : tensor Z :=
  array4 [[[[1; 0]; [2; 1]]; [[0; 3]; [1; 1]]];
          [[[0; 1]; [1; 0]]; [[2; 0]; [0; 1]]];
          [[[0; 0]; [0; 0]]; [[0; 0]; [0; 0]]]]%Z.

Definition world_two_shells : Gradients.world Z line_mol nat :=
  Gradients.mkWorld solver_flat
    (Gradients.mkState mol_a [ovlp_s; ovlp_p] [ipov_s; ipov_p]).

(** A gradient object on a solver with model, and a stand-in for the base
    gradient class of a molecule without symmetry. *)
Definition world_with_model : Gradients.world Z line_mol nat :=
  Gradients.mkWorld rhf_solver (Gradients.mkState mol_a [ovlp_s] [ipov_s]).

Definition toy_grad_base : Gradients.grad_base Z line_mol unit :=
  {| Gradients.super_grad_elec := fun _ _ => matrix [[1; 0; 0]; [2; 0; 0]]%Z;
     Gradients.make_rdm1_mo := fun _ => dm_a;
     Gradients.symmetry := fun _ => false;
     Gradients.symmetrize := fun t _ => t |}.

(* ================================================================== *)
(** * Part II.  Theorems                                               *)
(* ================================================================== *)

#[local] Arguments rsum : simpl never.

(** ** Labels, environments and sums *)


Lemma mem_label_app l xs ys :
  mem_label l (xs ++ ys) = mem_label l xs || mem_label l ys.
Proof.
  induction xs as [|x xs IH]; simpl; [reflexivity|].
  rewrite IH. apply orb_assoc.
Qed.

Lemma mem_label_rev l xs : mem_label l (rev xs) = mem_label l xs.
Proof.
  induction xs as [|x xs IH]; simpl; [reflexivity|].
  rewrite mem_label_app, IH. simpl. rewrite orb_false_r. apply orb_comm.
Qed.

Lemma mem_label_L_batch c xs : mem_label (L c) (map B xs) = false.
Proof. induction xs; simpl; auto. Qed.

Lemma mem_label_B_seq i s k :
  mem_label (B i) (map B (seq s k)) = (s <=? i) && (i <? s + k).
Proof.
  revert s; induction k as [|k IH]; intros s; simpl.
  - destruct (Nat.leb_spec s i), (Nat.ltb_spec i (s + 0)); simpl; auto; lia.
  - rewrite IH.
    destruct (Nat.eqb_spec s i), (Nat.leb_spec s i), (Nat.leb_spec (S s) i),
      (Nat.ltb_spec i (S s + k)), (Nat.ltb_spec i (s + S k)); simpl; auto; lia.
Qed.

Lemma combine_app_eq {A B} (l1 l2 : list A) (v1 v2 : list B) :
  List.length l1 = List.length v1 ->
  combine (l1 ++ l2) (v1 ++ v2) = combine l1 v1 ++ combine l2 v2.
Proof.
  revert v1; induction l1 as [|a l1 IH]; intros [|b v1] H; simpl in *; try discriminate.
  - reflexivity.
  - f_equal. apply IH. lia.
Qed.

Lemma map_fst_combine {A B} (l : list A) (v : list B) :
  List.length l = List.length v -> map fst (combine l v) = l.
Proof.
  revert v; induction l as [|a l IH]; intros [|b v] H; simpl in *; try discriminate.
  - reflexivity.
  - f_equal. apply IH. lia.
Qed.




Lemma map_lookup_batch s k vals e :
  List.length vals = k ->
  map (lookup (combine (map B (seq s k)) vals ++ e)) (map B (seq s k)) = vals.
Proof.
  revert s vals; induction k as [|k IH]; intros s [|v vals] H; simpl in *;
    try discriminate; [reflexivity|].
  rewrite Nat.eqb_refl. f_equal.
  transitivity (map (lookup (combine (map B (seq (S s) k)) vals ++ e))
                    (map B (seq (S s) k))); [|apply IH; lia].
  rewrite !map_map. apply map_ext_in. intros j Hj.
  apply in_seq in Hj. simpl. destruct (Nat.eqb_spec s j); [lia|]. reflexivity.
Qed.

Lemma dedup_batch s k rest seen :
  (forall i, s <= i < s + k -> mem_label (B i) seen = false) ->
  dedup (map B (seq s k) ++ rest) seen =
  map B (seq s k) ++ dedup rest (rev (map B (seq s k)) ++ seen).
Proof.
  revert s seen; induction k as [|k IH]; intros s seen H; simpl; [reflexivity|].
  rewrite H by lia. f_equal. rewrite IH.
  - rewrite <- app_assoc. reflexivity.
  - intros i Hi. simpl. destruct (Nat.eqb_spec s i); [lia|]. apply H. lia.
Qed.

Ltac einsum_labels :=
  unfold einsum;
  match goal with |- context [parse_spec ?s] =>
    let ps := eval vm_compute in (parse_spec s) in
    change (parse_spec s) with ps
  end;
  cbv beta iota zeta.

(** Evaluation of [einsum] for a subscript string without ellipsis. *)
Ltac einsum_eval :=
  einsum_labels;
  cbn [combine map List.length Nat.eqb ell_dims has_ell existsb orb named filter
       fold_right Nat.max expand flat_map app seq Nat.sub];
  unfold contract, label_dims, summed_labels, ndim;
  cbn [combine flat_map app forallb List.length].


Lemma lookup_batch_app_L xs vals e c :
  lookup (combine (map B xs) vals ++ e) (L c) = lookup e (L c).
Proof.
  revert vals; induction xs as [|x xs IH]; intros [|v vals]; simpl; auto.
Qed.

Lemma filter_batch_out k rest :
  filter (fun l => negb (mem_label l (map B (seq 0 k) ++ rest))) (map B (seq 0 k)) = [].
Proof.
  assert (H : forall xs, (forall x, In x xs -> x < k) ->
    filter (fun l => negb (mem_label l (map B (seq 0 k) ++ rest))) (map B xs) = []).
  { induction xs as [|x xs IH]; intros Hx; simpl; [reflexivity|].
    rewrite mem_label_app, mem_label_B_seq.
    destruct (Nat.ltb_spec x (0 + k)) as [_|Hk]; [|specialize (Hx x (or_introl eq_refl)); lia].
    simpl. apply IH. intros y Hy. apply Hx. now right. }
  apply H. intros x Hx. apply in_seq in Hx. lia.
Qed.

Lemma forallb_lookup_combine (e : env) ls vs :
  List.length ls = List.length vs -> map (lookup e) ls = vs ->
  forallb (fun '(l, n) => lookup e l =? n) (combine ls vs) = true.
Proof.
  revert vs; induction ls as [|l ls IH]; intros [|v vs] Hl Hm; simpl in *;
    try discriminate; [reflexivity|].
  injection Hm as Hv Hm. rewrite Hv, Nat.eqb_refl. simpl. apply IH; [lia|assumption].
Qed.



Lemma rsum_ext {R} {RS : Scalar R} n (f g : nat -> R) :
  (forall i, i < n -> f i = g i) -> rsum n f = rsum n g.
Proof.
  unfold rsum. intros H.
  assert (Hs : forall l, (forall i, In i l -> i < n) ->
     fold_right (fun i acc => sadd (f i) acc) s0 l =
     fold_right (fun i acc => sadd (g i) acc) s0 l).
  { induction l as [|x l IH]; intros Hl; simpl; [reflexivity|].
    rewrite H by (apply Hl; now left). rewrite IH; [reflexivity|].
    intros i Hi. apply Hl. now right. }
  apply Hs. intros i Hi. apply in_seq in Hi. lia.
Qed.

Lemma map_lookup_skip_L c n (e : env) xs :
  map (lookup ((L c, n) :: e)) (map B xs) = map (lookup e) (map B xs).
Proof. rewrite !map_map. reflexivity. Qed.

Lemma forallb_mem_batch_mid k (e1 e2 : list label) :
  forallb (fun l => mem_label l (e1 ++ map B (seq 0 k) ++ e2)) (map B (seq 0 k)) = true.
Proof.
  apply forallb_forall. intros l Hl. apply in_map_iff in Hl as [i [<- Hi]].
  apply in_seq in Hi. rewrite !mem_label_app, mem_label_B_seq.
  destruct (Nat.ltb_spec i (0 + k)); [|lia]. simpl. apply orb_true_r.
Qed.

(** ** The contraction of [t_make_pdm] *)

Section Projection.

Context {R : Type} {RS : Scalar R}.
Variables (po dm : tensor R) (nao natm nsph : nat) (bs : list nat).
Hypothesis Hpo : shape po = [nao; natm; nsph].
Hypothesis Hdm : shape dm = bs ++ [nao; nao].

Lemma einsum_pdm_labels :
  einsum "rap,...rs,saq->...apq" [po; dm; po] =
  contract [[L "r"; L "a"; L "p"];
            map B (seq 0 (List.length bs)) ++ [L "r"; L "s"];
            [L "s"; L "a"; L "q"]]
           (map B (seq 0 (List.length bs)) ++ [L "a"; L "p"; L "q"])
           [po; dm; po].
Proof.
  einsum_labels. cbn [combine map List.length Nat.eqb].
  unfold ell_dims, ndim. cbn [has_ell existsb orb named filter List.length fold_right].
  rewrite Hdm, length_app. cbn [List.length].
  replace (Nat.max 0 (Nat.max (List.length bs + 2 - 2) (Nat.max 0 0)))
    with (List.length bs) by lia.
  replace (List.length bs + 2 - 2) with (List.length bs) by lia.
  unfold expand. cbn [flat_map app]. rewrite Nat.sub_diag. reflexivity.
Qed.

Lemma einsum_pdm :
  exists t, einsum "rap,...rs,saq->...apq" [po; dm; po] = Some t /\
    shape t = bs ++ [natm; nsph; nsph] /\
    forall b a p q, List.length b = List.length bs ->
      get t (b ++ [a; p; q]) = pdm_entry po dm nao b a p q.
Proof.
  rewrite einsum_pdm_labels. unfold contract.
  set (k := List.length bs). set (Bs := map B (seq 0 k)).
  assert (HBs : List.length Bs = k) by (unfold Bs; rewrite length_map, length_seq; reflexivity).
  assert (Hdims : label_dims [[L "r"; L "a"; L "p"]; Bs ++ [L "r"; L "s"]; [L "s"; L "a"; L "q"]]
            [po; dm; po] =
          [(L "r", nao); (L "a", natm); (L "p", nsph)] ++ combine Bs bs ++
          [(L "r", nao); (L "s", nao); (L "s", nao); (L "a", natm); (L "q", nsph)]).
  { unfold label_dims. cbn [combine flat_map]. rewrite Hpo, Hdm.
    rewrite combine_app_eq by (rewrite HBs; reflexivity).
    cbn [combine app]. rewrite <- !app_assoc. reflexivity. }
  rewrite Hdims. clear Hdims.
  set (dims := _ ++ combine Bs bs ++ _).
  assert (HlB : map (lookup dims) Bs = bs).
  { unfold dims, Bs. cbn [app]. rewrite !map_lookup_skip_L.
    apply map_lookup_batch. reflexivity. }
  assert (HlL : lookup dims (L "r") = nao /\ lookup dims (L "a") = natm /\
                lookup dims (L "p") = nsph /\ lookup dims (L "s") = nao /\
                lookup dims (L "q") = nsph).
  { unfold dims, Bs. cbn. rewrite !lookup_batch_app_L. cbn. auto. }
  destruct HlL as (Hr & Ha & Hp & Hs & Hq).
  assert (Hfst : map fst dims =
     [L "r"; L "a"; L "p"] ++ Bs ++ [L "r"; L "s"; L "s"; L "a"; L "q"]).
  { unfold dims. rewrite !map_app, map_fst_combine by (rewrite HBs; reflexivity).
    reflexivity. }
  assert (Hranks : (List.length [[L "r"; L "a"; L "p"]; Bs ++ [L "r"; L "s"];
                                 [L "s"; L "a"; L "q"]] =? List.length [po; dm; po]) &&
      forallb (fun '(ls, t0) => List.length ls =? ndim t0)
        (combine [[L "r"; L "a"; L "p"]; Bs ++ [L "r"; L "s"]; [L "s"; L "a"; L "q"]]
                 [po; dm; po]) = true).
  { cbn [List.length combine forallb Nat.eqb andb]. unfold ndim.
    rewrite Hpo, Hdm, !length_app, HBs. cbn [List.length]. fold k.
    rewrite !Nat.eqb_refl. reflexivity. }
  assert (Hdok : forallb (fun '(l, n) => lookup dims l =? n) dims = true).
  { unfold dims at 2. rewrite !forallb_app. cbn [forallb].
    rewrite Hr, Ha, Hp, Hs, Hq, !Nat.eqb_refl.
    rewrite forallb_lookup_combine; auto. }
  assert (Hout : forallb (fun l => mem_label l (map fst dims))
                   (Bs ++ [L "a"; L "p"; L "q"]) = true).
  { rewrite Hfst, forallb_app. unfold Bs. rewrite forallb_mem_batch_mid.
    cbn [forallb]. rewrite !mem_label_app, !mem_label_L_batch. reflexivity. }
  assert (Hsum : summed_labels dims (Bs ++ [L "a"; L "p"; L "q"]) = [L "r"; L "s"]).
  { unfold summed_labels. rewrite Hfst. unfold Bs. clearbody k.
    assert (Hd : dedup ([L "r"; L "a"; L "p"] ++ map B (seq 0 k) ++
                        [L "r"; L "s"; L "s"; L "a"; L "q"]) [] =
                 [L "r"; L "a"; L "p"] ++ map B (seq 0 k) ++ [L "s"; L "q"]).
    { simpl. do 3 f_equal. rewrite dedup_batch by (intros; reflexivity).
      f_equal. simpl.
      repeat (rewrite ?mem_label_app, ?mem_label_rev, ?mem_label_L_batch; simpl).
      reflexivity. }
    rewrite Hd, !filter_app, filter_batch_out. simpl.
    repeat (rewrite ?mem_label_app, ?mem_label_L_batch; simpl).
    reflexivity. }
  rewrite Hranks, Hdok, Hout. cbn [andb].
  eexists. split; [reflexivity|]. cbn [shape get]. split.
  - rewrite map_app, HlB. cbn [map]. rewrite Ha, Hp, Hq. reflexivity.
  - intros b a p q Hb. rewrite Hsum.
    rewrite combine_app_eq by (rewrite HBs, Hb; reflexivity).
    cbn [sum_over combine]. rewrite Hr, Hs. unfold pdm_entry.
    apply rsum_ext; intros i _. apply rsum_ext; intros j _.
    cbn [combine map rprod fold_left].
    rewrite map_app. unfold Bs. rewrite !map_lookup_skip_L.
    rewrite map_lookup_batch by assumption.
    cbn. rewrite !lookup_batch_app_L. cbn. reflexivity.
Qed.
End Projection.

Lemma mapM_Forall2 {A B} (f : A -> option B) (P : A -> B -> Prop) (l : list A) :
  Forall (fun a => exists b, f a = Some b /\ P a b) l ->
  exists bs, mapM f l = Some bs /\ Forall2 P l bs.
Proof.
  induction 1 as [|a l [b [Hb HP]] _ [bs' [Hbs HF]]]; simpl.
  - exists []. split; [reflexivity | constructor].
  - rewrite Hb. simpl. rewrite Hbs. simpl.
    exists (b :: bs'). split; [reflexivity | constructor; assumption].
Qed.


Section ProjectionClaim.

Context {R : Type} {RS : Scalar R}.

(** Shapes and entries of what [t_make_pdm] returns. *)
Lemma t_make_pdm_entries (dm : tensor R) (ovlp_shells : list (tensor R))
    (nao natm : nat) (bs : list nat) :
  shape dm = bs ++ [nao; nao] ->
  Forall (fun po => shape po = [nao; natm; last_dim po]) ovlp_shells ->
  exists pdm_shells,
    t_make_pdm dm ovlp_shells = Some pdm_shells /\
    Forall2 (fun po pdm =>
               shape pdm = bs ++ [natm; last_dim po; last_dim po] /\
               forall b a p q, List.length b = List.length bs ->
                 get pdm (b ++ [a; p; q]) = pdm_entry po dm nao b a p q)
            ovlp_shells pdm_shells.
Proof.
  intros Hd Hov. unfold t_make_pdm. apply mapM_Forall2.
  eapply Forall_impl; [|exact Hov]. intros po Hpo. cbv beta in Hpo.
  destruct (@einsum_pdm R RS po dm nao natm (last_dim po) bs Hpo Hd)
    as [t [Ht [Hs He]]].
  exists t. auto.
Qed.

(** C2.  [t_make_pdm] accepts every density matrix of shape
    [bs ++ [nao; nao]] (any number of leading batch dimensions [bs], none
    included) with overlaps of shape [nao x natm x nsph] per shell, and
    returns per shell a tensor of shape [bs ++ [natm; nsph; nsph]] whose
    entry at batch position [b] and [(a, p, q)] is
    [sum_{r,s} O[r,a,p] * DM[b,r,s] * O[s,a,q]]: the contraction of the
    density matrix at batch position [b] alone.  With at least one batch
    dimension, the entries at leading position [i] are those [t_make_pdm]
    returns for the [i]-th density matrix [dm[i]] by itself. *)
Theorem t_make_pdm_contraction :
  forall (dm : tensor R) (ovlp_shells : list (tensor R)) (nao natm : nat)
         (bs : list nat),
    shape dm = bs ++ [nao; nao] ->
    Forall (fun po => shape po = [nao; natm; last_dim po]) ovlp_shells ->
    exists pdm_shells,
      t_make_pdm dm ovlp_shells = Some pdm_shells /\
      Forall2 (fun po pdm =>
                 shape pdm = bs ++ [natm; last_dim po; last_dim po] /\
                 forall b a p q, List.length b = List.length bs ->
                   get pdm (b ++ [a; p; q]) = pdm_entry po dm nao b a p q)
              ovlp_shells pdm_shells /\
      forall n bs' i, bs = n :: bs' ->
        exists pdm_i,
          t_make_pdm (select0 i dm) ovlp_shells = Some pdm_i /\
          Forall2 (fun pdm pdi =>
                     shape pdi = tl (shape pdm) /\
                     forall b a p q, List.length b = List.length bs' ->
                       get pdm (i :: b ++ [a; p; q]) = get pdi (b ++ [a; p; q]))
                  pdm_shells pdm_i.
Proof.
  intros dm ovlp_shells nao natm bs Hdm Hov.
  destruct (t_make_pdm_entries dm bs Hdm Hov) as [pdm_shells [Hpdm HF]].
  exists pdm_shells. split; [exact Hpdm|]. split; [exact HF|].
  intros n bs' i Hbs. subst bs.
  assert (Hsel : shape (select0 i dm) = bs' ++ [nao; nao]).
  { unfold select0. cbn [shape]. rewrite Hdm. reflexivity. }
  destruct (t_make_pdm_entries (select0 i dm) bs' Hsel Hov) as [pdm_i [Hi HFi]].
  exists pdm_i. split; [exact Hi|].
  clear Hpdm Hi Hov. revert pdm_i HFi.
  induction HF as [|po pdm ovs pds [Hs He] HF IH]; intros pdm_i HFi;
    inversion HFi as [|po' pdi ovs' pdis [Hsi Hei] HFi']; subst; constructor.
  - split.
    + rewrite Hs, Hsi. reflexivity.
    + intros b a p q Hb.
      change (i :: b ++ [a; p; q]) with ((i :: b) ++ [a; p; q]).
      rewrite He by (simpl; lia). rewrite Hei by assumption.
      unfold pdm_entry, select0. cbn [get]. reflexivity.
  - apply IH. assumption.
Qed.

End ProjectionClaim.

(** ** The sum of numpy arrays *)

Lemma broadcast_rev_same (a : list nat) : broadcast_rev a a = Some a.
Proof.
  induction a as [|n a IH]; cbn; [reflexivity|].
  rewrite Nat.eqb_refl. cbn. rewrite IH. reflexivity.
Qed.

Lemma broadcast_rev_app (a l : list nat) :
  broadcast_rev (a ++ l) a = Some (a ++ l).
Proof.
  induction a as [|n a IH]; cbn.
  - destruct l; reflexivity.
  - rewrite Nat.eqb_refl. cbn. rewrite IH. reflexivity.
Qed.

(** Equal shapes go together. *)
Lemma broadcast_shapes_same (sh : list nat) : broadcast_shapes sh sh = Some sh.
Proof.
  unfold broadcast_shapes. rewrite broadcast_rev_same. cbn.
  rewrite rev_involutive. reflexivity.
Qed.

(** A leading dimension that the second operand lacks is repeated. *)
Lemma broadcast_shapes_stack (ns : nat) (sh : list nat) :
  broadcast_shapes (ns :: sh) sh = Some (ns :: sh).
Proof.
  unfold broadcast_shapes. cbn [rev]. rewrite broadcast_rev_app. cbn.
  rewrite rev_app_distr, rev_involutive. reflexivity.
Qed.

(** Last dimensions that differ, neither of them 1, do not go together. *)
Lemma broadcast_shapes_mismatch (sh sh' : list nat) (n n' : nat) :
  n <> n' -> n <> 1 -> n' <> 1 ->
  broadcast_shapes (sh ++ [n]) (sh' ++ [n']) = None.
Proof.
  intros Hne H1 H1'. unfold broadcast_shapes. rewrite !rev_app_distr. cbn.
  destruct (Nat.eqb_spec n n'); [contradiction|].
  destruct (Nat.eqb_spec n 1); [contradiction|].
  destruct (Nat.eqb_spec n' 1); [contradiction|]. reflexivity.
Qed.

Lemma broadcast_zip_same (sh : list nat) :
  forall idx, broadcast_zip sh sh idx = idx.
Proof.
  induction sh as [|n sh IH]; intros [|i idx]; cbn; try reflexivity.
  rewrite Nat.eqb_refl, IH. reflexivity.
Qed.

Lemma broadcast_index_same (sh idx : list nat) : broadcast_index sh sh idx = idx.
Proof.
  unfold broadcast_index. rewrite Nat.sub_diag. cbn. apply broadcast_zip_same.
Qed.

Lemma broadcast_index_stack (ns : nat) (sh idx : list nat) :
  broadcast_index sh (ns :: sh) idx = tl idx.
Proof.
  unfold broadcast_index. cbn [length].
  replace (S (length sh) - length sh) with 1 by lia.
  destruct idx as [|s idx]; cbn [skipn tl]; apply broadcast_zip_same.
Qed.

Section BroadcastSum.
Context {R : Type} {RS : Scalar R}.

(** Arrays of one shape are added entry by entry. *)
Lemma badd_same_shape (t u : tensor R) :
  shape u = shape t -> badd t u = Some (tadd t u).
Proof.
  intros H. unfold badd. rewrite H, broadcast_shapes_same. cbn [obind].
  unfold tadd. do 2 f_equal. apply functional_extensionality. intros idx.
  rewrite !broadcast_index_same. reflexivity.
Qed.

(** An array with one more leading dimension takes the other array in
    each of its slices. *)
Lemma badd_stack (t u : tensor R) (ns : nat) :
  shape t = ns :: shape u ->
  badd t u = Some (mkT (shape t) (fun idx => sadd (get t idx) (get u (tl idx)))).
Proof.
  intros H. unfold badd. rewrite H, broadcast_shapes_stack. cbn [obind].
  do 2 f_equal. apply functional_extensionality. intros idx.
  rewrite broadcast_index_same, broadcast_index_stack. reflexivity.
Qed.

Lemma badd_None (t u : tensor R) :
  badd t u = None <-> broadcast_shapes (shape t) (shape u) = None.
Proof.
  unfold badd. destruct (broadcast_shapes (shape t) (shape u)); cbn [obind];
    split; intros H; (discriminate H || reflexivity).
Qed.

End BroadcastSum.

(** ** The mean-field hook layer *)

Section HookLayer.

Import CorrMixin.

Context {R : Type} {RS : Scalar R} {Mole : Type}.
Variable self : base_solver R Mole.

(** What [get_veff] does once the density matrix is in hand. *)
Lemma get_veff_unfold (mol : option Mole) (dm dm_last : option (tensor R))
    (vhf_last : option (tagged R)) (hermi : Z) :
  let d := match dm with Some x => x | None => make_rdm1 self end in
  let m := match mol with Some x => x | None => self_mol self end in
  let v0_last := match vhf_last with Some v => tag_v0 v | None => None end in
  let rdm := match dm with Some _ => [] | None => [CallMakeRdm1] end in
  let v0 := super_get_veff self (Some m) (Some d) dm_last v0_last hermi in
  get_veff self mol dm dm_last vhf_last hermi =
  match get_corr self d with
  | Some (ec, vc) =>
      match badd v0 vc with
      | Some vtot =>
          Some (mkTagged vtot (Some ec) (Some v0),
                rdm ++ [CallSuperGetVeff (Some m) (Some d) dm_last v0_last hermi;
                        CallGetCorr d])
      | None => None
      end
  | None => None
  end.
Proof.
  intros d m v0_last rdm v0. unfold get_veff. subst d rdm v0.
  destruct dm as [x|]; simpl; fold m; fold v0_last;
    destruct (get_corr self _) as [[ec vc]|]; simpl; try reflexivity;
    destruct (badd _ vc); reflexivity.
Qed.

(** What [energy_elec] does with a potential that carries both tags. *)
Lemma energy_elec_tagged (dm h1e : option (tensor R)) (a : tensor R)
    (ec : energy R) (v0 : tensor R) :
  let d := match dm with Some x => x | None => make_rdm1 self end in
  let h := match h1e with Some x => x | None => get_hcore self end in
  let rdm := match dm with Some _ => [] | None => [CallMakeRdm1] end in
  let hcore := match h1e with Some _ => [] | None => [CallGetHcore] end in
  let e := super_energy_elec self (Some d) (Some h) v0 in
  energy_elec self dm h1e (Some (mkTagged a (Some ec) (Some v0))) =
    Some ((eadd (fst e) ec, eadd (snd e) ec),
          rdm ++ hcore ++ [CallSuperEnergyElec (Some d) (Some h) v0]).
Proof.
  intros d h rdm hcore e. unfold energy_elec. subst d h rdm hcore e.
  destruct dm as [x|], h1e as [y|]; simpl;
    destruct (super_energy_elec self _ _ _); reflexivity.
Qed.

(** What [energy_elec] does without a tagged correction energy. *)
Lemma energy_elec_recomputes (dm h1e : option (tensor R))
    (vhf : option (tagged R)) :
  match vhf with Some v => tag_ec v = None | None => True end ->
  let d := match dm with Some x => x | None => make_rdm1 self end in
  let h := match h1e with Some x => x | None => get_hcore self end in
  let rdm := match dm with Some _ => [] | None => [CallMakeRdm1] end in
  let hcore := match h1e with Some _ => [] | None => [CallGetHcore] end in
  let v1 := super_get_veff self (Some (self_mol self)) (Some d) None None 1%Z in
  let e := super_energy_elec self (Some d) (Some h) v1 in
  energy_elec self dm h1e vhf =
  match get_corr self d with
  | Some (ec, vc) =>
      match badd v1 vc with
      | Some _ =>
          Some ((eadd (fst e) ec, eadd (snd e) ec),
                rdm ++ hcore ++
                [CallSuperGetVeff (Some (self_mol self)) (Some d) None None 1%Z;
                 CallGetCorr d;
                 CallSuperEnergyElec (Some d) (Some h) v1])
      | None => None
      end
  | None => None
  end.
Proof.
  intros Hv d h rdm hcore v1 e. unfold energy_elec.
  assert (Hsel : match vhf with
                 | Some v => match tag_ec v with
                             | Some _ => tret v
                             | None => get_veff self None (Some d) None None 1%Z
                             end
                 | None => get_veff self None (Some d) None None 1%Z
                 end = get_veff self None (Some d) None None 1%Z).
  { destruct vhf as [v|]; [rewrite Hv|]; reflexivity. }
  subst d h rdm hcore e v1.
  destruct dm as [x|], h1e as [y|]; cbn [tbind tret tcall app];
    rewrite Hsel, get_veff_unfold; cbn [app];
    destruct (get_corr self _) as [[ec vc]|]; try reflexivity;
    destruct (badd _ vc); try reflexivity; simpl;
    destruct (super_energy_elec self _ _ _); reflexivity.
Qed.

(** C1.  With [d] the density matrix in force (the argument, or
    [make_rdm1()] when it is absent), [v0] the base potential and
    [(ec, vc)] what the correction [get_corr d] returns: [get_veff]
    returns the array [v0 + vc], tagged with [ec] and [v0]: entry by
    entry [v0[idx] + vc[idx]] when the two have one shape, and
    [v0[s, idx] + vc[idx]] when [v0] has one more leading dimension (the
    spin channels of an unrestricted solver, whose correction potential
    has none); it raises when the last dimensions differ and neither is
    1, and when the correction raises.  [energy_elec] called with no
    potential, or with one that carries no tagged [ec], goes through
    [get_veff] again (its calls show the base potential and the
    correction being recomputed) and returns the base energy for the
    fresh [v0] plus the fresh [ec]; and [energy_elec] called with a
    potential tagged [(ec, v0)] makes the single call of the base energy
    with [v0] (neither the combined array nor a new correction enters)
    and returns that energy plus [ec].  An energy plus [ec] is the sum
    of the two numbers, taken entry by entry when [ec] is an array. *)
Theorem hook_potential_and_energy :
  forall (mol : option Mole) (dm h1e dm_last : option (tensor R))
         (vhf_last : option (tagged R)) (hermi : Z),
    let d := match dm with Some x => x | None => make_rdm1 self end in
    let h := match h1e with Some x => x | None => get_hcore self end in
    let m := match mol with Some x => x | None => self_mol self end in
    let v0_last := match vhf_last with Some v => tag_v0 v | None => None end in
    let rdm := match dm with Some _ => [] | None => [CallMakeRdm1] end in
    let hcore := match h1e with Some _ => [] | None => [CallGetHcore] end in
    let plus := fun (x : R) (ec r : energy R) =>
      match ec, r with
      | EScalar y, EScalar z => z = sadd x y
      | EArray t, EArray u =>
          shape u = shape t /\ forall idx, get u idx = sadd x (get t idx)
      | _, _ => False
      end in
    (match get_corr self d with
     | Some (ec, vc) =>
         let v0 := super_get_veff self (Some m) (Some d) dm_last v0_last hermi in
         let v1 := super_get_veff self (Some (self_mol self)) (Some d) None None 1%Z in
         let e := super_energy_elec self (Some d) (Some h) v1 in
         let calls := rdm ++ [CallSuperGetVeff (Some m) (Some d) dm_last v0_last hermi;
                              CallGetCorr d] in
         (shape vc = shape v0 ->
          exists vtot,
            get_veff self mol dm dm_last vhf_last hermi =
              Some (mkTagged vtot (Some ec) (Some v0), calls) /\
            shape vtot = shape v0 /\
            forall idx, get vtot idx = sadd (get v0 idx) (get vc idx)) /\
         (forall ns, shape v0 = ns :: shape vc ->
          exists vtot,
            get_veff self mol dm dm_last vhf_last hermi =
              Some (mkTagged vtot (Some ec) (Some v0), calls) /\
            shape vtot = shape v0 /\
            forall s idx, get vtot (s :: idx) = sadd (get v0 (s :: idx)) (get vc idx)) /\
         (forall sh sh' n n',
            shape v0 = sh ++ [n] -> shape vc = sh' ++ [n'] ->
            n <> n' -> n <> 1 -> n' <> 1 ->
            get_veff self mol dm dm_last vhf_last hermi = None) /\
         (shape vc = shape v1 \/ (exists ns, shape v1 = ns :: shape vc) ->
          exists r1 r2,
            let recomputed :=
              Some ((r1, r2),
                    rdm ++ hcore ++
                    [CallSuperGetVeff (Some (self_mol self)) (Some d) None None 1%Z;
                     CallGetCorr d;
                     CallSuperEnergyElec (Some d) (Some h) v1]) in
            plus (fst e) ec r1 /\ plus (snd e) ec r2 /\
            energy_elec self dm h1e None = recomputed /\
            forall a v, energy_elec self dm h1e (Some (mkTagged a None v)) = recomputed)
     | None =>
         get_veff self mol dm dm_last vhf_last hermi = None /\
         energy_elec self dm h1e None = None
     end) /\
    (forall a ec v0,
       let e := super_energy_elec self (Some d) (Some h) v0 in
       exists r1 r2,
         plus (fst e) ec r1 /\ plus (snd e) ec r2 /\
         energy_elec self dm h1e (Some (mkTagged a (Some ec) (Some v0))) =
           Some ((r1, r2), rdm ++ hcore ++ [CallSuperEnergyElec (Some d) (Some h) v0])).
Proof.
  intros mol dm h1e dm_last vhf_last hermi d h m v0_last rdm hcore plus.
  assert (plus_eadd : forall x ec, plus x ec (eadd x ec)).
  { intros x ec. subst plus. destruct ec; cbn; [reflexivity|split; reflexivity]. }
  pose proof (get_veff_unfold mol dm dm_last vhf_last hermi) as Hveff.
  pose proof (@energy_elec_recomputes dm h1e None I) as Hnone.
  cbv zeta in Hveff, Hnone. fold d in Hveff, Hnone. fold h in Hnone.
  fold m in Hveff. fold v0_last in Hveff. fold rdm in Hveff, Hnone.
  fold hcore in Hnone.
  split.
  - destruct (get_corr self d) as [[ec vc]|] eqn:Hc;
      [|split; assumption].
    cbv zeta. split; [|split; [|split]].
    + intros Hs. rewrite Hveff, (badd_same_shape _ _ Hs).
      eexists. split; [reflexivity|]. split; reflexivity.
    + intros ns Hs. rewrite Hveff, (badd_stack _ _ Hs).
      eexists. split; [reflexivity|]. split; reflexivity.
    + intros sh sh' n n' Hs Hs' Hne H1 H1'. rewrite Hveff.
      destruct (badd _ vc) eqn:Hb; [|reflexivity].
      assert (Hn : badd (super_get_veff self (Some m) (Some d) dm_last v0_last hermi) vc
                   = None).
      { apply badd_None. rewrite Hs, Hs'. apply broadcast_shapes_mismatch; assumption. }
      congruence.
    + intros Hs.
      assert (Hb : exists vtot,
                badd (super_get_veff self (Some (self_mol self)) (Some d) None None 1%Z) vc
                = Some vtot).
      { destruct Hs as [Hs|[ns Hs]].
        - rewrite (badd_same_shape _ _ Hs). eexists. reflexivity.
        - rewrite (badd_stack _ _ Hs). eexists. reflexivity. }
      destruct Hb as [vtot Hb]. rewrite Hb in Hnone.
      exists (eadd (fst (super_energy_elec self (Some d) (Some h)
                      (super_get_veff self (Some (self_mol self)) (Some d) None None 1%Z)))
                   ec),
             (eadd (snd (super_energy_elec self (Some d) (Some h)
                      (super_get_veff self (Some (self_mol self)) (Some d) None None 1%Z)))
                   ec).
      cbv zeta. split; [apply plus_eadd|]. split; [apply plus_eadd|].
      split; [exact Hnone|].
      intros a v.
      pose proof (@energy_elec_recomputes dm h1e (Some (mkTagged a None v)) eq_refl) as Hv.
      cbv zeta in Hv. fold d in Hv. fold h in Hv. rewrite Hc, Hb in Hv. exact Hv.
  - intros a ec v0 e. do 2 eexists.
    split; [apply plus_eadd|]. split; [apply plus_eadd|].
    apply energy_elec_tagged.
Qed.

(** C10.  In every call of [get_veff], the previous potential handed to
    the base solver's own builder is [getattr(vhf_last, 'v0', 0)]: the
    tagged base-only potential of [vhf_last], or [0] (here [None]) when
    [vhf_last] is [0] or carries no such tag; the combined array of
    [vhf_last] is never passed.  The call is the only one made to the base
    builder.  Hence, when the potential returned by one iteration is
    supplied as [vhf_last] of the next, the base builder receives the
    base-only potential of the first iteration, which contains no
    correction potential.  ([get_veff] raises only when the correction
    does, or when the base potential and the correction potential cannot
    be added.) *)
Theorem veff_forwards_base_potential :
  forall (mol : option Mole) (dm dm_last : option (tensor R))
         (vhf_last : option (tagged R)) (hermi : Z),
    let d := match dm with Some x => x | None => make_rdm1 self end in
    let m := match mol with Some x => x | None => self_mol self end in
    let rdm := match dm with Some _ => [] | None => [CallMakeRdm1] end in
    let forwarded := match vhf_last with
                     | None => None
                     | Some (mkTagged a _ None) => None
                     | Some (mkTagged a _ (Some v0)) => Some v0
                     end in
    let v0 := super_get_veff self (Some m) (Some d) dm_last forwarded hermi in
    match get_veff self mol dm dm_last vhf_last hermi with
    | Some (v1, calls) =>
        calls = rdm ++ [CallSuperGetVeff (Some m) (Some d) dm_last forwarded hermi;
                        CallGetCorr d] /\
        tag_v0 v1 = Some v0 /\
        forall dm2 : tensor R,
          match get_veff self mol (Some dm2) (Some d) (Some v1) hermi with
          | Some (_, calls2) =>
              calls2 = [CallSuperGetVeff (Some m) (Some dm2) (Some d) (Some v0) hermi;
                        CallGetCorr dm2]
          | None =>
              get_corr self dm2 = None \/
              exists ec vc,
                get_corr self dm2 = Some (ec, vc) /\
                broadcast_shapes
                  (shape (super_get_veff self (Some m) (Some dm2) (Some d) (Some v0) hermi))
                  (shape vc) = None
          end
    | None =>
        get_corr self d = None \/
        exists ec vc,
          get_corr self d = Some (ec, vc) /\
          broadcast_shapes (shape v0) (shape vc) = None
    end.
Proof.
  intros mol dm dm_last vhf_last hermi d m rdm forwarded v0.
  assert (Hfw : forwarded = match vhf_last with Some v => tag_v0 v | None => None end).
  { subst forwarded. destruct vhf_last as [[a e [t|]]|]; reflexivity. }
  pose proof (get_veff_unfold mol dm dm_last vhf_last hermi) as Hfirst.
  cbv zeta in Hfirst. fold d in Hfirst. fold m in Hfirst. fold rdm in Hfirst.
  rewrite <- Hfw in Hfirst. fold v0 in Hfirst. rewrite Hfirst.
  destruct (get_corr self d) as [[ec vc]|] eqn:Hc; [|left; reflexivity].
  destruct (badd v0 vc) as [vtot|] eqn:Hb.
  - split; [reflexivity|]. split; [reflexivity|].
    intros dm2.
    pose proof (get_veff_unfold mol (Some dm2) (Some d)
                  (Some (mkTagged vtot (Some ec) (Some v0))) hermi) as Hnext.
    cbv zeta in Hnext. fold m in Hnext. cbn [tag_v0 app] in Hnext. rewrite Hnext.
    destruct (get_corr self dm2) as [[ec2 vc2]|] eqn:Hc2; [|left; reflexivity].
    destruct (badd _ vc2) eqn:Hb2; [reflexivity|].
    right. exists ec2, vc2. split; [reflexivity|]. apply badd_None. exact Hb2.
  - right. exists ec, vc. split; [reflexivity|]. apply badd_None. exact Hb.
Qed.

End HookLayer.

(** ** No model *)

Section ZeroModel.

Context {R : Type} {RS : Scalar R} {Mole Basis : Type}.
Variable G : gto R Mole Basis.
Variable E : eigensolver R.

(** C7.  When the solver has no model ([net] is [None]), for every
    density matrix (given, or the solver's own when absent) and every atom
    list (given, or all atoms of the gradient object's molecule):
    [get_corr] returns the energy [0.] and a potential of the shape of the
    density matrix with every entry zero, and [grad_corr] returns a tensor
    of shape [len(atmlst) x 3] with every entry zero.  Both return: no
    exception is raised. *)
Theorem no_model_zero_correction :
  forall (w : Gradients.world R Mole Basis) (dm : option (tensor R))
         (atmlst : option (list nat)),
    NetMixin.net (Gradients.base w) = None ->
    let d := match dm with
             | Some x => x
             | None => NetMixin.make_rdm1 (Gradients.base w)
             end in
    let atoms := match atmlst with
                 | Some l => l
                 | None => seq 0 (natm G (Gradients.mol (Gradients.grad w)))
                 end in
    (exists vc,
       NetMixin.get_corr E (Gradients.base w) dm = Some (CorrMixin.EScalar s0, vc) /\
       shape vc = shape d /\ forall idx, get vc idx = s0) /\
    (exists dec,
       Gradients.grad_corr G E w dm atmlst = Some dec /\
       shape dec = [List.length atoms; 3] /\ forall idx, get dec idx = s0).
Proof.
  intros w dm atmlst Hnet d atoms. split.
  - exists (zeros_like d). unfold NetMixin.get_corr. rewrite Hnet.
    repeat split.
  - exists (zeros [List.length atoms; 3]). unfold Gradients.grad_corr.
    rewrite Hnet. repeat split.
Qed.

End ZeroModel.

(** ** Scalar laws and tensor equality *)

Lemma tensor_ext {R} (t u : tensor R) :
  shape t = shape u -> (forall idx, get t idx = get u idx) -> t = u.
Proof.
  destruct t as [st gt], u as [su gu]; simpl. intros -> H.
  f_equal. apply functional_extensionality. exact H.
Qed.

Section ScalarLaws.

Context {R : Type} {RS : Scalar R}.
Hypothesis laws : scalar_laws R.

Add Ring scalar_ring :
  (laws : ring_theory s0 s1 sadd smul ssub sopp (@eq R)).


Lemma sadd_comm (x y : R) : sadd x y = sadd y x.
Proof. ring. Qed.

Lemma rsum_0 n : rsum n (fun _ => s0) = s0.
Proof.
  unfold rsum. induction (seq 0 n) as [|x l IH]; simpl; [reflexivity|].
  rewrite IH. ring.
Qed.

Lemma rsum_add n (f g : nat -> R) :
  rsum n (fun i => sadd (f i) (g i)) = sadd (rsum n f) (rsum n g).
Proof.
  unfold rsum. induction (seq 0 n) as [|x l IH]; simpl; [ring|].
  rewrite IH. ring.
Qed.

Lemma rsum_swap n m (f : nat -> nat -> R) :
  rsum n (fun i => rsum m (fun j => f i j)) =
  rsum m (fun j => rsum n (fun i => f i j)).
Proof.
  unfold rsum at 1 4. induction (seq 0 n) as [|x l IH]; simpl.
  - symmetry. apply rsum_0.
  - rewrite IH. symmetry. apply rsum_add.
Qed.

Lemma rsum_scale_r n (f : nat -> R) (c : R) :
  rsum n (fun i => smul (f i) c) = smul (rsum n f) c.
Proof.
  unfold rsum. induction (seq 0 n) as [|x l IH]; simpl; [ring|].
  rewrite IH. ring.
Qed.

Lemma rsum_scale_l n (f : nat -> R) (c : R) :
  rsum n (fun i => smul c (f i)) = smul c (rsum n f).
Proof.
  unfold rsum. induction (seq 0 n) as [|x l IH]; simpl; [ring|].
  rewrite IH. ring.
Qed.


End ScalarLaws.

(** ** Spin channels *)

Section Spin.

Context {R : Type} {RS : Scalar R} {Mole Basis : Type}.
Variable E : eigensolver R.


End Spin.

(** ** Empty inputs of the descriptor *)

Lemma Forall2_length_eq {A B} (P : A -> B -> Prop) l l' :
  Forall2 P l l' -> List.length l = List.length l'.
Proof. induction 1; simpl; auto. Qed.

Lemma Forall2_Forall_r {A B} (P : A -> B -> Prop) (Q : B -> Prop) l l' :
  Forall2 P l l' -> (forall a b, P a b -> Q b) -> Forall Q l'.
Proof. induction 1; intros HPQ; constructor; eauto. Qed.

Lemma Forall2_trans_r {A B C} (P : A -> B -> Prop) (Q : B -> C -> Prop)
    (S : A -> C -> Prop) l l' l'' :
  Forall2 P l l' -> Forall2 Q l' l'' ->
  (forall a b c, P a b -> Q b c -> S a c) -> Forall2 S l l''.
Proof.
  intros HP; revert l''. induction HP; intros l'' HQ HS; inversion HQ; subst;
    constructor; eauto.
Qed.


Section Descriptor.

Context {R : Type} {RS : Scalar R}.
Variable E : eigensolver R.

(** The forward pass of [t_make_eig] on a single density matrix: every
    intermediate exists and has the expected shape, provided the
    eigensolver handles the shells' batches of matrices. *)
Lemma t_make_eig_returns (dm : tensor R) (ovlp_shells : list (tensor R))
    (nao na : nat) :
  (forall t n, shape t = [na; n; n] ->
     exists e, symeig E t = Some e /\ shape e = [na; n]) ->
  shape dm = [nao; nao] ->
  Forall (fun po => shape po = [nao; na; last_dim po]) ovlp_shells ->
  ovlp_shells <> [] ->
  exists pdm_shells eig_shells ceig,
    t_make_pdm dm ovlp_shells = Some pdm_shells /\
    mapM (t_shell_eig E) pdm_shells = Some eig_shells /\
    cat_last eig_shells = Some ceig /\
    t_make_eig E dm ovlp_shells = Some ceig /\
    Forall2 (fun po pdm => shape pdm = [na; last_dim po; last_dim po])
            ovlp_shells pdm_shells /\
    Forall2 (fun po e => shape e = [na; last_dim po]) ovlp_shells eig_shells /\
    map last_dim eig_shells = map last_dim ovlp_shells /\
    shape ceig = [na; fold_right Nat.add 0 (map last_dim ovlp_shells)].
Proof.
  intros Heig Hdm Hov Hne.
  destruct (@t_make_pdm_entries R RS dm ovlp_shells nao na [] Hdm Hov)
    as [pdm_shells [Hpdm HF]].
  assert (HF1 : Forall2 (fun po pdm => shape pdm = [na; last_dim po; last_dim po])
                  ovlp_shells pdm_shells).
  { eapply Forall2_impl; [|exact HF]. intros po pdm [Hs _]. exact Hs. }
  assert (Hsym : exists eig_shells,
    mapM (t_shell_eig E) pdm_shells = Some eig_shells /\
    Forall2 (fun pdm e => shape e = [na; last (shape pdm) 0]) pdm_shells eig_shells).
  { apply mapM_Forall2.
    eapply Forall2_Forall_r; [exact HF1|]. intros po pdm Hs. cbv beta.
    destruct (Heig pdm (last_dim po) Hs) as [e [He Hse]].
    exists e. split; [exact He|]. rewrite Hs. exact Hse. }
  destruct Hsym as [eig_shells [Hmap HF2]].
  assert (HF3 : Forall2 (fun po e => shape e = [na; last_dim po]) ovlp_shells eig_shells).
  { eapply Forall2_trans_r; [exact HF1|exact HF2|].
    intros po pdm e Hs He. cbv beta in He. rewrite He, Hs. reflexivity. }
  assert (Hlast : map last_dim eig_shells = map last_dim ovlp_shells).
  { clear -HF3. induction HF3 as [|po e l l' He HF IH]; simpl; [reflexivity|].
    rewrite IH. f_equal. unfold last_dim at 1. rewrite He. reflexivity. }
  assert (Hall : Forall (fun e : tensor R => exists n, shape e = [na; n]) eig_shells).
  { eapply Forall2_Forall_r; [exact HF3|]. intros po e He.
    exists (last_dim po). exact He. }
  assert (Hcat : exists ceig, cat_last eig_shells = Some ceig /\
            shape ceig = [na; fold_right Nat.add 0 (map last_dim ovlp_shells)]).
  { destruct eig_shells as [|e0 rest].
    { apply Forall2_length_eq in HF3. destruct ovlp_shells; [congruence|discriminate]. }
    unfold cat_last.
    assert (Hchk : forallb (fun u : tensor R => (1 <=? ndim u) &&
               shape_eqb (removelast (shape u)) (removelast (shape e0)))
               (e0 :: rest) = true).
    { apply forallb_forall. intros u Hu.
      rewrite Forall_forall in Hall.
      destruct (Hall u Hu) as [n Hn].
      destruct (Hall e0 (or_introl eq_refl)) as [n0 Hn0].
      unfold ndim. rewrite Hn, Hn0. cbn. rewrite Nat.eqb_refl. reflexivity. }
    rewrite Hchk. eexists. split; [reflexivity|].
    rewrite Forall_forall in Hall.
    destruct (Hall e0 (or_introl eq_refl)) as [n0 Hn0].
    cbn [shape]. rewrite Hn0, Hlast. reflexivity. }
  destruct Hcat as [ceig [Hcat Hsc]].
  exists pdm_shells, eig_shells, ceig.
  repeat split; try assumption.
  unfold t_make_eig. rewrite Hpdm. cbn [obind]. rewrite Hmap. cbn [obind].
  exact Hcat.
Qed.

(** C9 (amended).  For a molecule without atoms and a projection basis
    with at least one shell (overlaps of shape [nao x 0 x nsph]), with an
    eigensolver that returns the empty list of eigenvalues for an empty
    batch of matrices, [t_make_eig] returns a descriptor of shape
    [0 x nproj], which has no element, and does not raise.  With no shell
    at all, [t_make_eig] raises: there is nothing to concatenate. *)
Theorem t_make_eig_empty_inputs :
  (forall t n, shape t = [0; n; n] ->
     exists e, symeig E t = Some e /\ shape e = [0; n]) ->
  forall (dm : tensor R) (ovlp_shells : list (tensor R)) (nao : nat),
    shape dm = [nao; nao] ->
    Forall (fun po => shape po = [nao; 0; last_dim po]) ovlp_shells ->
    (ovlp_shells <> [] ->
     exists ceig,
       t_make_eig E dm ovlp_shells = Some ceig /\
       shape ceig = [0; fold_right Nat.add 0 (map last_dim ovlp_shells)] /\
       nelement ceig = 0) /\
    t_make_eig E dm [] = None.
Proof.
  intros Heig dm ovlp_shells nao Hdm Hov. split; [|reflexivity].
  intros Hne.
  destruct (@t_make_eig_returns dm ovlp_shells nao 0 Heig Hdm Hov Hne)
    as (pdm_shells & eig_shells & ceig & _ & _ & _ & Hc & _ & _ & _ & Hs).
  exists ceig. split; [exact Hc|]. split; [exact Hs|].
  unfold nelement. rewrite Hs. reflexivity.
Qed.

End Descriptor.

(** ** The projected-density jacobian *)

Section GradPdmX.

Context {R : Type} {RS : Scalar R} {Mole Basis : Type}.
Variable G : gto R Mole Basis.

Lemma einsum_xrap (g d o : tensor R) nx nr ns na np nq :
  shape g = [nx; nr; na; np] -> shape d = [nr; ns] -> shape o = [ns; na; nq] ->
  exists t, einsum "xrap,rs,saq->xapq" [g; d; o] = Some t /\
    shape t = [nx; na; np; nq] /\
    forall x a p q, get t [x; a; p; q] =
      rsum nr (fun r => rsum ns (fun s =>
        smul (smul (get g [x; r; a; p]) (get d [r; s])) (get o [s; a; q]))).
Proof.
  intros Hg Hd Ho. einsum_eval. rewrite Hg, Hd, Ho.
  cbn. rewrite !Nat.eqb_refl. cbn.
  eexists. split; [reflexivity|]. split; [reflexivity|].
  intros x a p q. cbn. reflexivity.
Qed.

Variables (mol : Mole) (dm govx ovlp gproj : tensor R) (nao na ss : nat).
Hypothesis Hdm : shape dm = [nao; nao].
Hypothesis Hovlp : shape ovlp = [nao; na; ss].
Hypothesis Hgovx : shape govx = [3; nao; na; ss].
Hypothesis Hgproj : forall x a p q,
  get gproj [x; a; p; q] = projector_term govx dm ovlp nao x a p q.

(** One atom of the inner loop. *)
Lemma grad_pdm_x_atom_entries (gdmx : tensor R) (ia : nat) :
  exists g', grad_pdm_x_atom G mol dm govx ovlp gproj gdmx ia = Some g' /\
    shape g' = shape gdmx /\
    forall i x a p q,
      get g' [i; x; a; p; q] =
      if i =? ia
      then (let orb := ssub (get gdmx [i; x; a; p; q])
                         (orbital_term govx dm ovlp nao
                            (fst (aoslice_by_atom G mol ia))
                            (snd (aoslice_by_atom G mol ia)) x a p q) in
            if a =? ia then sadd orb (projector_term govx dm ovlp nao x a p q)
            else orb)
      else get gdmx [i; x; a; p; q].
Proof.
  unfold grad_pdm_x_atom. destruct (aoslice_by_atom G mol ia) as [bg ed].
  destruct (@einsum_xrap (slice1 bg ed govx) (slice0 bg ed dm) ovlp
              3 (slice_len nao bg ed) nao na ss ss) as [c [Hc [Hsc Hec]]].
  - unfold slice1. cbn [shape]. rewrite Hgovx. reflexivity.
  - unfold slice0. cbn [shape]. rewrite Hdm. reflexivity.
  - exact Hovlp.
  - rewrite Hc. cbn [obind]. eexists. split; [reflexivity|]. split; [reflexivity|].
    intros i x a p q. cbn [fst snd iadd_block isub_row get select1].
    destruct (i =? ia); cbn [andb]; [|reflexivity].
    rewrite Hec. unfold orbital_term. cbn [slice1 slice0 get].
    destruct (Nat.eqb_spec a ia) as [->|_]; [|reflexivity].
    rewrite Hgproj. reflexivity.
Qed.

(** The loop over the atoms: every listed atom is visited once. *)
Lemma grad_pdm_x_atoms_entries (ias : list nat) :
  NoDup ias ->
  forall gdmx : tensor R,
  exists g', grad_pdm_x_atoms G mol dm govx ovlp gproj gdmx ias = Some g' /\
    shape g' = shape gdmx /\
    forall i x a p q,
      get g' [i; x; a; p; q] =
      if existsb (Nat.eqb i) ias
      then (let orb := ssub (get gdmx [i; x; a; p; q])
                         (orbital_term govx dm ovlp nao
                            (fst (aoslice_by_atom G mol i))
                            (snd (aoslice_by_atom G mol i)) x a p q) in
            if a =? i then sadd orb (projector_term govx dm ovlp nao x a p q)
            else orb)
      else get gdmx [i; x; a; p; q].
Proof.
  induction 1 as [|ia ias Hnotin Hnd IH]; intros gdmx.
  - exists gdmx. repeat split.
  - destruct (grad_pdm_x_atom_entries gdmx ia) as [g1 [Hg1 [Hs1 He1]]].
    destruct (IH g1) as [g' [Hg' [Hs' He']]].
    exists g'. cbn [grad_pdm_x_atoms]. rewrite Hg1. cbn [obind].
    split; [exact Hg'|]. split; [congruence|].
    intros i x a p q. rewrite He', He1. cbn [existsb].
    destruct (Nat.eqb_spec i ia) as [->|Hne]; cbn [orb].
    + assert (Hex : existsb (Nat.eqb ia) ias = false).
      { apply not_true_is_false. intros Hex. apply existsb_exists in Hex.
        destruct Hex as [y [Hy Heq]]. apply Nat.eqb_eq in Heq. subst y.
        contradiction. }
      rewrite Hex. reflexivity.
    + reflexivity.
Qed.

End GradPdmX.

Section GradPdmXClaim.

Context {R : Type} {RS : Scalar R} {Mole Basis : Type}.
Variable G : gto R Mole Basis.

Lemma existsb_seq (i n : nat) : existsb (Nat.eqb i) (seq 0 n) = (i <? n).
Proof.
  destruct (Nat.ltb_spec i n) as [Hlt|Hge].
  - apply existsb_exists. exists i. split; [apply in_seq; lia|apply Nat.eqb_refl].
  - apply not_true_is_false. intros Hex. apply existsb_exists in Hex.
    destruct Hex as [y [Hy Heq]]. apply Nat.eqb_eq in Heq. subst y.
    apply in_seq in Hy. lia.
Qed.

(** One shell of [t_make_grad_pdm_x]. *)
Lemma grad_pdm_x_shell_entries (laws : scalar_laws R) (mol : Mole)
    (dm govx ovlp : tensor R) (nao ss : nat) :
  shape dm = [nao; nao] ->
  shape ovlp = [nao; natm G mol; ss] ->
  shape govx = [3; nao; natm G mol; ss] ->
  exists g,
    grad_pdm_x_shell G mol dm (zeros [natm G mol; 3; natm G mol; ss; ss]) govx ovlp
      = Some g /\
    shape g = [natm G mol; 3; natm G mol; ss; ss] /\
    forall ia x a p q, ia < natm G mol ->
      get g [ia; x; a; p; q] =
        sadd (moving_atom_term govx dm ovlp nao (aoslice_by_atom G mol ia) ia x a p q)
             (moving_atom_term govx dm ovlp nao (aoslice_by_atom G mol ia) ia x a q p) /\
      get g [ia; x; a; p; q] = get g [ia; x; a; q; p].
Proof.
  intros Hdm Hov Hgo. unfold grad_pdm_x_shell.
  destruct (@einsum_xrap R RS govx dm ovlp 3 nao nao (natm G mol) ss ss Hgo Hdm Hov)
    as [gproj [Hgp [Hsgp Hegp]]].
  rewrite Hgp. cbn [obind].
  destruct (@grad_pdm_x_atoms_entries R RS Mole Basis G mol dm govx ovlp gproj
              nao (natm G mol) ss Hdm Hov Hgo Hegp (seq 0 (natm G mol))
              (seq_NoDup _ _) (zeros [natm G mol; 3; natm G mol; ss; ss]))
    as [g' [Hg' [Hs' He']]].
  rewrite Hg'. cbn [obind]. eexists. split; [reflexivity|].
  split; [exact Hs'|].
  intros ia x a p q Hia.
  assert (Hent : forall p' q', get g' [ia; x; a; p'; q'] =
            moving_atom_term govx dm ovlp nao (aoslice_by_atom G mol ia) ia x a p' q').
  { intros p' q'. rewrite He', existsb_seq.
    destruct (Nat.ltb_spec ia (natm G mol)); [|lia]. reflexivity. }
  cbn [tadd transpose_last2 get swap_last2]. rewrite !Hent.
  split; [reflexivity|]. apply (sadd_comm laws).
Qed.

(** C5.  For every shell (overlaps [nao x natm x nsph], derivative overlaps
    [3 x nao x natm x nsph]) and every moving atom [ia] of the molecule,
    the jacobian [t_make_grad_pdm_x] returns is, entry by entry, the sum of
    the term of the moving atom and of the same term with the two local
    indices exchanged; the term is minus the contraction over the orbital
    range [bg:ed] of atom [ia], plus the full contraction where the
    projection atom is [ia] and nothing elsewhere.  Each returned shell
    tensor is therefore symmetric in its last two indices. *)
Theorem t_make_grad_pdm_x_contributions :
  scalar_laws R ->
  forall (mol : Mole) (dm : tensor R) (ovlp_shells ipov_shells : list (tensor R))
         (nao : nat),
    shape dm = [nao; nao] ->
    Forall2 (fun ovlp govx =>
               shape ovlp = [nao; natm G mol; last_dim ovlp] /\
               shape govx = [3; nao; natm G mol; last_dim ovlp])
            ovlp_shells ipov_shells ->
    exists gdmx_shells,
      t_make_grad_pdm_x G mol dm ovlp_shells ipov_shells = Some gdmx_shells /\
      Forall2 (fun '(ovlp, govx) gdmx =>
                 shape gdmx = [natm G mol; 3; natm G mol; last_dim ovlp; last_dim ovlp] /\
                 forall ia x a p q, ia < natm G mol ->
                   get gdmx [ia; x; a; p; q] =
                     sadd (moving_atom_term govx dm ovlp nao
                             (aoslice_by_atom G mol ia) ia x a p q)
                          (moving_atom_term govx dm ovlp nao
                             (aoslice_by_atom G mol ia) ia x a q p) /\
                   get gdmx [ia; x; a; p; q] = get gdmx [ia; x; a; q; p])
              (combine ovlp_shells ipov_shells) gdmx_shells.
Proof.
  intros laws mol dm ovlp_shells ipov_shells nao Hdm HF.
  unfold t_make_grad_pdm_x.
  induction HF as [|ovlp govx ovs ips [Hov Hgo] HF IH].
  - exists []. split; [reflexivity|constructor].
  - destruct IH as [rest [Hrest HFr]].
    destruct (@grad_pdm_x_shell_entries laws mol dm govx ovlp nao (last_dim ovlp)
                Hdm Hov Hgo) as [g [Hg [Hsg Heg]]].
    exists (g :: rest). cbn [map grad_pdm_x_shells].
    rewrite Hg. cbn [obind]. rewrite Hrest. cbn [obind].
    split; [reflexivity|]. cbn [combine]. constructor; [|exact HFr].
    split; [exact Hsg|exact Heg].
Qed.

End GradPdmXClaim.

(** ** The correction potential *)

Lemma Forall2_map_combine {A B C D} (P : A -> B -> Prop) (Q : A -> D -> Prop)
    (f : B * C -> D) (l : list A) (l1 : list B) (l2 : list C) :
  Forall2 P l l1 -> List.length l2 = List.length l1 ->
  (forall a b c, P a b -> Q a (f (b, c))) ->
  Forall2 Q l (map f (combine l1 l2)).
Proof.
  intros HF; revert l2. induction HF as [|a b l l1 HP HF IH]; intros l2 Hl HQ.
  - constructor.
  - destruct l2 as [|c l2]; [discriminate|]. simpl. constructor; [apply HQ; exact HP|].
    apply IH; [simpl in Hl; lia|exact HQ].
Qed.

Lemma Forall2_combine {A B} (P : A -> B -> Prop) (l : list A) (l' : list B) :
  Forall2 P l l' -> Forall (fun ab => P (fst ab) (snd ab)) (combine l l').
Proof. induction 1; simpl; constructor; auto. Qed.

Lemma Forall2_and_l {A B} (Q : A -> Prop) (P : A -> B -> Prop) l l' :
  Forall Q l -> Forall2 P l l' -> Forall2 (fun a b => Q a /\ P a b) l l'.
Proof.
  intros HQ HP. induction HP; inversion HQ; subst; constructor; auto.
Qed.

Lemma split_from_length {R} off sizes (t : tensor R) :
  List.length (split_from off sizes t) = List.length sizes.
Proof.
  revert off; induction sizes as [|n sizes IH]; intros off; simpl; [reflexivity|].
  rewrite IH. reflexivity.
Qed.

Section Potential.

Context {R : Type} {RS : Scalar R}.
Hypothesis laws : scalar_laws R.

Add Ring scalar_ring_potential :
  (laws : ring_theory s0 s1 sadd smul ssub sopp (@eq R)).

(** The transposed contraction: what the reverse pass of [t_make_pdm]
    returns for the cotangent [g] of one shell. *)
Lemma einsum_pdm_vjp (po g : tensor R) nao na ns
    (Hpo : shape po = [nao; na; ns]) (Hg : shape g = [na; ns; ns]) :
  exists t, t_make_pdm_vjp po g = Some t /\
    shape t = [nao; nao] /\
    forall r s, get t [r; s] =
      rsum na (fun a => rsum ns (fun p => rsum ns (fun q =>
        smul (smul (get po [r; a; p]) (get g [a; p; q])) (get po [s; a; q])))).
Proof.
  unfold t_make_pdm_vjp. einsum_labels.
  cbn [combine map]. unfold ell_dims, ndim. rewrite Hpo, Hg.
  cbn [List.length Nat.eqb has_ell existsb orb named filter
       fold_right Nat.max expand flat_map app seq Nat.sub map].
  unfold contract, label_dims, summed_labels, ndim.
  cbn [combine flat_map app forallb List.length]. rewrite Hpo, Hg.
  cbn. rewrite !Nat.eqb_refl. cbn.
  eexists. split; [reflexivity|]. split; [reflexivity|].
  intros r s. cbn. reflexivity.
Qed.

(** The transposed contraction is the adjoint of the contraction of
    [t_make_pdm]: pairing the cotangent with the projected density equals
    pairing its image with the density matrix.  This is what makes it the
    reverse-mode rule of [t_make_pdm]. *)
Lemma pdm_vjp_adjoint (po g dm : tensor R) nao na ns
    (Hpo : shape po = [nao; na; ns]) (Hg : shape g = [na; ns; ns]) t :
  t_make_pdm_vjp po g = Some t ->
  rsum na (fun a => rsum ns (fun p => rsum ns (fun q =>
    smul (get g [a; p; q]) (pdm_entry po dm nao [] a p q)))) =
  rsum nao (fun r => rsum nao (fun s => smul (get t [r; s]) (get dm [r; s]))).
Proof.
  intros Ht.
  destruct (@einsum_pdm_vjp po g nao na ns Hpo Hg) as [t' [Ht' [_ He]]].
  rewrite Ht in Ht'. injection Ht' as <-.
  transitivity (rsum na (fun a => rsum ns (fun p => rsum ns (fun q =>
    rsum nao (fun r => rsum nao (fun s =>
      smul (smul (smul (get po [r; a; p]) (get g [a; p; q])) (get po [s; a; q]))
           (get dm [r; s]))))))).
  { apply rsum_ext; intros a _. apply rsum_ext; intros p _. apply rsum_ext; intros q _.
    unfold pdm_entry. cbn [app]. rewrite <- (rsum_scale_l laws).
    apply rsum_ext; intros r _. rewrite <- (rsum_scale_l laws).
    apply rsum_ext; intros s _. ring. }
  transitivity (rsum nao (fun r => rsum nao (fun s =>
    rsum na (fun a => rsum ns (fun p => rsum ns (fun q =>
      smul (smul (smul (get po [r; a; p]) (get g [a; p; q])) (get po [s; a; q]))
           (get dm [r; s]))))))).
  { (* r and s move outwards past a, p, q *)
    transitivity (rsum na (fun a => rsum ns (fun p => rsum nao (fun r =>
      rsum ns (fun q => rsum nao (fun s =>
        smul (smul (smul (get po [r; a; p]) (get g [a; p; q])) (get po [s; a; q]))
             (get dm [r; s]))))))).
    { apply rsum_ext; intros a _. apply rsum_ext; intros p _.
      apply (rsum_swap laws). }
    transitivity (rsum na (fun a => rsum nao (fun r => rsum ns (fun p =>
      rsum ns (fun q => rsum nao (fun s =>
        smul (smul (smul (get po [r; a; p]) (get g [a; p; q])) (get po [s; a; q]))
             (get dm [r; s]))))))).
    { apply rsum_ext; intros a _. apply (rsum_swap laws). }
    rewrite (rsum_swap laws). apply rsum_ext; intros r _.
    transitivity (rsum na (fun a => rsum ns (fun p => rsum nao (fun s =>
      rsum ns (fun q =>
        smul (smul (smul (get po [r; a; p]) (get g [a; p; q])) (get po [s; a; q]))
             (get dm [r; s])))))).
    { apply rsum_ext; intros a _. apply rsum_ext; intros p _.
      apply (rsum_swap laws). }
    transitivity (rsum na (fun a => rsum nao (fun s => rsum ns (fun p =>
      rsum ns (fun q =>
        smul (smul (smul (get po [r; a; p]) (get g [a; p; q])) (get po [s; a; q]))
             (get dm [r; s])))))).
    { apply rsum_ext; intros a _. apply (rsum_swap laws). }
    apply (rsum_swap laws). }
  apply rsum_ext; intros r _. apply rsum_ext; intros s _.
  rewrite He. rewrite <- (rsum_scale_r laws).
  apply rsum_ext; intros a _. rewrite <- (rsum_scale_r laws).
  apply rsum_ext; intros p _. rewrite <- (rsum_scale_r laws).
  reflexivity.
Qed.

(** A symmetric cotangent gives a symmetric matrix. *)
Lemma pdm_vjp_symmetric (po g : tensor R) nao na ns t
    (Hpo : shape po = [nao; na; ns]) (Hg : shape g = [na; ns; ns]) :
  (forall a p q, get g [a; p; q] = get g [a; q; p]) ->
  t_make_pdm_vjp po g = Some t ->
  forall r s, get t [r; s] = get t [s; r].
Proof.
  intros Hsym Ht r s.
  destruct (@einsum_pdm_vjp po g nao na ns Hpo Hg) as [t' [Ht' [_ He]]].
  rewrite Ht in Ht'. injection Ht' as <-.
  rewrite !He. apply rsum_ext; intros a _.
  rewrite (rsum_swap laws).
  apply rsum_ext; intros p _. apply rsum_ext; intros q _.
  rewrite (Hsym a q p). ring.
Qed.

Lemma fold_tadd_symmetric (parts : list (tensor R)) (z : tensor R) :
  (forall r s, get z [r; s] = get z [s; r]) ->
  Forall (fun t => forall r s, get t [r; s] = get t [s; r]) parts ->
  shape (fold_left tadd parts z) = shape z /\
  forall r s, get (fold_left tadd parts z) [r; s] = get (fold_left tadd parts z) [s; r].
Proof.
  intros Hz HF. revert z Hz. induction HF as [|t parts Ht HF IH]; intros z Hz.
  - split; [reflexivity|exact Hz].
  - cbn [fold_left]. destruct (IH (tadd z t)) as [Hs He].
    + intros r s. cbn [tadd get]. rewrite Hz, Ht. reflexivity.
    + split; [rewrite Hs; reflexivity|exact He].
Qed.

End Potential.

Section PotentialClaim.

Context {R : Type} {RS : Scalar R}.
Variable E : eigensolver R.

(** The reverse pass down to the projected density: the cotangents exist,
    have the shape of the projected density and are symmetric, when the
    eigensolver's rule returns symmetric matrices of the shape of its
    input. *)
Lemma t_make_eig_grad_pdm_returns (dm : tensor R) (ovlp_shells : list (tensor R))
    (nao na : nat) (g : tensor R) :
  (forall t n, shape t = [na; n; n] ->
     exists e, symeig E t = Some e /\ shape e = [na; n]) ->
  (forall pdm ge, shape (symeig_vjp E pdm ge) = shape pdm) ->
  (forall pdm ge a p q,
     get (symeig_vjp E pdm ge) [a; p; q] = get (symeig_vjp E pdm ge) [a; q; p]) ->
  shape dm = [nao; nao] ->
  Forall (fun po => shape po = [nao; na; last_dim po]) ovlp_shells ->
  ovlp_shells <> [] ->
  shape g = [na; fold_right Nat.add 0 (map last_dim ovlp_shells)] ->
  exists gpdm_shells,
    t_make_eig_grad_pdm E dm ovlp_shells g = Some gpdm_shells /\
    Forall2 (fun po gp =>
               shape gp = [na; last_dim po; last_dim po] /\
               forall a p q, get gp [a; p; q] = get gp [a; q; p])
            ovlp_shells gpdm_shells.
Proof.
  intros Heig Hvs Hvsym Hdm Hov Hne Hg.
  destruct (@t_make_eig_returns R RS E dm ovlp_shells nao na Heig Hdm Hov Hne)
    as (pdm_shells & eig_shells & ceig & Hpdm & Hmap & _ & _ & HF1 & HF3 & Hlast & _).
  unfold t_make_eig_grad_pdm. rewrite Hpdm. cbn [obind]. rewrite Hmap. cbn [obind].
  unfold split_last, ndim, last_dim at 2. rewrite Hlast, Hg.
  cbn [List.length last Nat.leb andb]. rewrite Nat.eqb_refl. cbn [obind].
  eexists. split; [reflexivity|].
  eapply Forall2_map_combine; [exact HF1| |].
  - rewrite split_from_length, length_map.
    apply (Forall2_length_eq HF1).
  - intros po pdm gk Hs. cbv beta. split.
    + rewrite Hvs. exact Hs.
    + apply Hvsym.
Qed.

(** C3.  With an eigensolver whose reverse-mode rule returns symmetric
    matrices of the shape of its input (and a model whose rule returns a
    cotangent of the shape of the descriptor), for every density matrix
    [nao x nao], symmetric in particular, [t_get_corr] returns the energy
    and a potential of the shape of the density matrix with
    [vc[r,s] = vc[s,r]].  (The symmetry of the density matrix is not what
    the result rests on: the potential is a sum over shells of
    [O g O^T] with [g] symmetric.) *)
Theorem correction_potential_symmetric :
  scalar_laws R ->
  forall (m : model R) (dm : tensor R) (ovlp_shells : list (tensor R))
         (nao na : nat),
    (forall t n, shape t = [na; n; n] ->
       exists e, symeig E t = Some e /\ shape e = [na; n]) ->
    (forall pdm ge, shape (symeig_vjp E pdm ge) = shape pdm) ->
    (forall pdm ge a p q,
       get (symeig_vjp E pdm ge) [a; p; q] = get (symeig_vjp E pdm ge) [a; q; p]) ->
    (forall x ge, shape (backward m x ge) = shape x) ->
    shape dm = [nao; nao] ->
    Forall (fun po => shape po = [nao; na; last_dim po]) ovlp_shells ->
    ovlp_shells <> [] ->
    (forall r s, get dm [r; s] = get dm [s; r]) ->
    exists ec vc,
      t_get_corr E m dm ovlp_shells true = Some (ec, Some vc) /\
      shape vc = shape dm /\
      forall r s, get vc [r; s] = get vc [s; r].
Proof.
  intros laws m dm ovlp_shells nao na Heig Hvs Hvsym Hback Hdm Hov Hne _.
  destruct (@t_make_eig_returns R RS E dm ovlp_shells nao na Heig Hdm Hov Hne)
    as (pdm_shells & eig_shells & ceig & _ & _ & _ & Hceig & _ & _ & _ & Hsc).
  set (g := backward m ceig (ones_like (forward m ceig))).
  assert (Hg : shape g = [na; fold_right Nat.add 0 (map last_dim ovlp_shells)]).
  { unfold g. rewrite Hback. exact Hsc. }
  destruct (@t_make_eig_grad_pdm_returns dm ovlp_shells nao na g
              Heig Hvs Hvsym Hdm Hov Hne Hg) as [gpdm [Hgpdm HFg]].
  assert (Hparts : exists parts,
    mapM (fun '(po, gk) => t_make_pdm_vjp po gk) (combine ovlp_shells gpdm)
      = Some parts /\
    Forall (fun t : tensor R => forall r s, get t [r; s] = get t [s; r]) parts).
  { assert (H2 : exists parts,
      mapM (fun '(po, gk) => t_make_pdm_vjp po gk) (combine ovlp_shells gpdm)
        = Some parts /\
      Forall2 (fun (_ : tensor R * tensor R) (t : tensor R) =>
                 forall r s, get t [r; s] = get t [s; r])
              (combine ovlp_shells gpdm) parts).
    { apply mapM_Forall2.
      pose proof (Forall2_combine (Forall2_and_l Hov HFg)) as HFc.
      eapply Forall_impl; [|exact HFc].
      intros [po gk] [Hpo [Hsg Hsym]]. cbn [fst snd] in *.
      destruct (@einsum_pdm_vjp R RS po gk nao na (last_dim po) Hpo Hsg)
        as [t [Ht [_ _]]].
      exists t. split; [exact Ht|].
      exact (@pdm_vjp_symmetric R RS laws po gk nao na (last_dim po) t Hpo Hsg Hsym Ht). }
    destruct H2 as [parts [Hp HF2]]. exists parts. split; [exact Hp|].
    eapply Forall2_Forall_r; [exact HF2|]. intros pg t Ht. exact Ht. }
  destruct Hparts as [parts [Hparts Hsymp]].
  exists (forward m ceig), (fold_left tadd parts (zeros_like dm)).
  destruct (@fold_tadd_symmetric R RS parts (zeros_like dm)) as [Hs He];
    [reflexivity|exact Hsymp|].
  split; [|split; [exact Hs|exact He]].
  unfold t_get_corr, to_ref. rewrite Hceig. cbn [obind negb].
  unfold t_make_eig_vjp. fold g. rewrite Hgpdm. cbn [obind].
  rewrite Hparts. reflexivity.
Qed.

End PotentialClaim.

(** ** Geometry resets *)

Lemma reshape_shape {R} sh (t t' : tensor R) :
  reshape sh t = Some t' -> shape t' = sh.
Proof.
  unfold reshape. destruct (numel sh =? numel (shape t)); [|discriminate].
  intros H; injection H as <-. reflexivity.
Qed.

Lemma split_last_sizes {R} sizes (t : tensor R) shells :
  split_last sizes t = Some shells -> fold_right Nat.add 0 sizes = last_dim t.
Proof.
  unfold split_last. destruct (1 <=? ndim t); cbn [andb]; [|discriminate].
  destruct (Nat.eqb_spec (fold_right Nat.add 0 sizes) (last_dim t)); [|discriminate].
  auto.
Qed.

Section Resets.

Context {R : Type} {RS : Scalar R} {Mole Basis : Type}.
Variable G : gto R Mole Basis.

(** What [prepare_integrals] leaves in the solver. *)
Lemma prepare_integrals_fresh (self self' : NetMixin.state R Mole Basis) :
  NetMixin.prepare_integrals G self = Some self' ->
  NetMixin.mol self' = NetMixin.mol self /\
  NetMixin._pbas self' = NetMixin._pbas self /\
  NetMixin._shell_sec self' = NetMixin._shell_sec self /\
  NetMixin.net self' = NetMixin.net self /\
  NetMixin._pmol self' = gen_proj_mol G (NetMixin.mol self) (NetMixin._pbas self) /\
  Some (NetMixin._t_ovlp_shells self') =
    projection_overlaps G (NetMixin._pbas self) (NetMixin._shell_sec self)
      (NetMixin.mol self).
Proof.
  unfold NetMixin.prepare_integrals, NetMixin.proj_ovlp, NetMixin.proj_intor,
    projection_overlaps.
  cbn [NetMixin.mol NetMixin._pmol NetMixin._shell_sec NetMixin._pbas
       NetMixin.is_UHF NetMixin.make_rdm1 NetMixin.net].
  destruct (natm G (NetMixin.mol self) =? 0); [discriminate|].
  destruct (reshape _ _) as [t|] eqn:Ht; cbn [obind]; [|discriminate].
  destruct (split_last _ t) as [shells|] eqn:Hs; cbn [obind]; [|discriminate].
  intros H; injection H as <-.
  cbn [NetMixin.mol NetMixin._pmol NetMixin._shell_sec NetMixin._pbas
       NetMixin.net NetMixin._t_ovlp_shells].
  repeat split.
  pose proof (split_last_sizes _ _ Hs) as Hsum.
  unfold last_dim in Hsum. rewrite (reshape_shape _ _ Ht) in Hsum.
  cbn [last] in Hsum. rewrite Hsum, Ht. cbn [obind]. rewrite Hs. reflexivity.
Qed.

(** What the gradient object's [prepare_integrals] leaves in it. *)
Lemma grad_prepare_integrals_fresh (mf : NetMixin.state R Mole Basis)
    (self self' : Gradients.state R Mole) :
  Gradients.mol self = NetMixin.mol mf ->
  NetMixin._pmol mf = gen_proj_mol G (NetMixin.mol mf) (NetMixin._pbas mf) ->
  Gradients.prepare_integrals G mf self = Some self' ->
  Gradients.mol self' = Gradients.mol self /\
  Gradients._t_ovlp_shells self' = NetMixin._t_ovlp_shells mf /\
  Some (Gradients._t_ipov_shells self') =
    derivative_overlaps G (NetMixin._pbas mf) (NetMixin._shell_sec mf)
      (NetMixin.mol mf).
Proof.
  intros Hmol Hpmol.
  unfold Gradients.prepare_integrals, NetMixin.proj_intor, derivative_overlaps,
    reshape_infer.
  rewrite Hmol, Hpmol.
  destruct ((numel _ =? 0) || _); [discriminate|].
  destruct (reshape _ _) as [t|] eqn:Ht; cbn [obind]; [|discriminate].
  destruct (split_last _ t) as [shells|] eqn:Hs; cbn [obind]; [|discriminate].
  intros H; injection H as <-.
  cbn [Gradients.mol Gradients._t_ovlp_shells Gradients._t_ipov_shells].
  repeat split.
  pose proof (split_last_sizes _ _ Hs) as Hsum.
  unfold last_dim in Hsum. rewrite (reshape_shape _ _ Ht) in Hsum.
  rewrite last_last in Hsum. cbn [app] in Ht. rewrite <- Hsum in Ht.
  rewrite Ht. cbn [obind]. rewrite Hs. reflexivity.
Qed.

(** C8 (amended).  A reset of the solver at a new geometry [m], when it
    returns, leaves in the solver the projection overlaps of [m]: they are
    rebuilt from the geometry, the local basis and the shell sizes, and
    nothing of the previous cache survives, so the solver's next
    correction query works on them.  A call of the gradient scanner at
    [m], when it returns, leaves the overlaps of [m] in the solver and, in
    the gradient object, the molecule [m], the solver's new overlaps and
    the derivative overlaps of [m]. *)
Theorem overlaps_rebuilt_on_reset :
  forall (self self' : NetMixin.state R Mole Basis) (m : Mole),
    NetMixin.reset G self (Some m) = Some self' ->
    (NetMixin.mol self' = m /\
     Some (NetMixin._t_ovlp_shells self') =
       projection_overlaps G (NetMixin._pbas self) (NetMixin._shell_sec self) m) /\
    (forall (E : eigensolver R) dm,
       NetMixin.get_corr E self' dm =
       NetMixin.get_corr E
         (NetMixin.mkState m (NetMixin.is_UHF self) (NetMixin.make_rdm1 self)
            (NetMixin.net self) (NetMixin._pbas self) (NetMixin._shell_sec self)
            (gen_proj_mol G m (NetMixin._pbas self))
            (NetMixin._t_ovlp_shells self')) dm) /\
    (forall (converge : NetMixin.state R Mole Basis -> tensor R)
            (w w' : Gradients.world R Mole Basis),
       Gradients.base w = self ->
       Gradients.scanner_call G converge w m = Some w' ->
       Some (NetMixin._t_ovlp_shells (Gradients.base w')) =
         projection_overlaps G (NetMixin._pbas self) (NetMixin._shell_sec self) m /\
       Gradients.mol (Gradients.grad w') = m /\
       Gradients._t_ovlp_shells (Gradients.grad w') =
         NetMixin._t_ovlp_shells (Gradients.base w') /\
       Some (Gradients._t_ipov_shells (Gradients.grad w')) =
         derivative_overlaps G (NetMixin._pbas self) (NetMixin._shell_sec self) m).
Proof.
  intros self self' m Hreset.
  unfold NetMixin.reset in Hreset. cbn [NetMixin.super_reset] in Hreset.
  pose proof (prepare_integrals_fresh _ Hreset) as Hfresh.
  cbn [NetMixin.mol NetMixin._pbas NetMixin._shell_sec NetMixin.net] in Hfresh.
  destruct Hfresh as (Hmol & Hpb & Hss & Hnet & Hpm & Hov).
  split; [split; assumption|]. split.
  - intros E dm. unfold NetMixin.get_corr, NetMixin.spin_sum.
    cbn [NetMixin.net NetMixin.make_rdm1 NetMixin.is_UHF NetMixin._t_ovlp_shells].
    unfold NetMixin.prepare_integrals in Hreset.
    destruct (NetMixin.proj_ovlp G _) as [t|]; cbn [obind] in Hreset; [|discriminate].
    destruct (split_last _ t) as [shells|]; cbn [obind] in Hreset; [|discriminate].
    injection Hreset as <-. reflexivity.
  - intros converge w w' Hbase Hscan.
    unfold Gradients.scanner_call, Gradients.mf_scanner in Hscan.
    rewrite Hbase in Hscan. unfold NetMixin.reset in Hscan.
    cbn [NetMixin.super_reset] in Hscan. rewrite Hreset in Hscan.
    cbn [obind] in Hscan.
    destruct (Gradients.prepare_integrals G _ _) as [g'|] eqn:Hg;
      cbn [obind] in Hscan; [|discriminate].
    injection Hscan as <-.
    cbn [Gradients.base Gradients.grad NetMixin._t_ovlp_shells].
    apply grad_prepare_integrals_fresh in Hg.
    + cbn [NetMixin._t_ovlp_shells NetMixin._pbas NetMixin._shell_sec
           NetMixin.mol Gradients.mol] in Hg.
      destruct Hg as (Hgm & Hgo & Hgi).
      rewrite Hpb, Hss, Hmol in Hgi.
      repeat split; assumption.
    + cbn [Gradients.mol NetMixin.mol]. symmetry. exact Hmol.
    + cbn [NetMixin._pmol NetMixin.mol NetMixin._pbas].
      rewrite Hpm, Hmol, Hpb. reflexivity.
Qed.

End Resets.

(** ** The two evaluation paths of the energy gradient *)

Lemma mapM_ext {A B} (f g : A -> option B) (l : list A) :
  (forall a, f a = g a) -> mapM f l = mapM g l.
Proof.
  intros H. induction l as [|a l IH]; simpl; [reflexivity|].
  rewrite H, IH. reflexivity.
Qed.

Section GradEPdm.

Context {R : Type} {RS : Scalar R}.
Variable E : eigensolver R.

(** On a single density matrix the contraction of [grad.py], written
    without ellipsis, is the one of [scf.py]. *)
Lemma einsum_pdm_plain (po dm : tensor R) :
  ndim dm = 2 ->
  einsum "rap,rs,saq->apq" [po; dm; po] =
  einsum "rap,...rs,saq->...apq" [po; dm; po].
Proof.
  intros Hnd. unfold einsum.
  repeat match goal with |- context [parse_spec ?s] =>
    let ps := eval vm_compute in (parse_spec s) in
    change (parse_spec s) with ps
  end.
  cbv beta iota zeta. cbn [combine map]. unfold ell_dims. rewrite Hnd.
  reflexivity.
Qed.

(** C4 (amended).  For a single density matrix and a model that is a
    module (so that [next(model.parameters())] returns), whose gradient
    does not depend on a leading batch dimension of size one (the
    gradient at the descriptor with the dimension added, with that
    dimension removed, is the gradient at the descriptor itself) and
    whose energy for the batched descriptor has a single element,
    [t_make_grad_e_pdm] returns exactly the cotangents of the projected
    density that the reverse pass of [t_get_corr] forms; the potential of
    [t_get_corr] is their image under the transposed contraction, summed
    over shells. *)
Theorem grad_e_pdm_agrees :
  forall (m : model R) (dm : tensor R) (ovlp_shells : list (tensor R))
         (ceig : tensor R),
    parameters m <> None ->
    ndim dm = 2 ->
    t_make_eig E dm ovlp_shells = Some ceig ->
    nelement (forward m (unsqueeze0 ceig)) = 1 ->
    teq (squeeze0 (backward m (unsqueeze0 ceig)
                     (ones_like (forward m (unsqueeze0 ceig)))))
        (backward m ceig (ones_like (forward m ceig))) ->
    t_make_grad_e_pdm E m dm ovlp_shells =
      t_make_eig_grad_pdm E dm ovlp_shells
        (backward m ceig (ones_like (forward m ceig))) /\
    t_get_corr E m dm ovlp_shells true =
      (gedm_shells <- t_make_grad_e_pdm E m dm ovlp_shells ;;
       parts <- mapM (fun '(po, gk) => t_make_pdm_vjp po gk)
                     (combine ovlp_shells gedm_shells) ;;
       Some (forward m ceig, Some (fold_left tadd parts (zeros_like dm)))).
Proof.
  intros m dm ovlp_shells ceig Hmod Hnd Hceig Hone [Hsh Hget].
  assert (Hgrad : t_make_grad_e_pdm E m dm ovlp_shells =
      t_make_eig_grad_pdm E dm ovlp_shells
        (backward m ceig (ones_like (forward m ceig)))).
  { unfold t_make_grad_e_pdm, t_make_eig_grad_pdm, next_parameters, to_ref.
    destruct (parameters m) as [[p ps]|]; [clear Hmod|contradiction].
    unfold t_make_eig in Hceig. unfold t_make_pdm in *.
    rewrite (mapM_ext _ (fun po => einsum "rap,...rs,saq->...apq" [po; dm; po]))
      by (intros po; apply einsum_pdm_plain; exact Hnd).
    destruct (mapM _ ovlp_shells) as [pdm_shells|]; cbn [obind] in *; [|reflexivity].
    change (mapM (symeig E) pdm_shells) with (mapM (t_shell_eig E) pdm_shells).
    destruct (mapM (t_shell_eig E) pdm_shells) as [eig_shells|]; cbn [obind] in *;
      [|reflexivity].
    rewrite Hceig. cbn [obind]. rewrite Hone. cbn [Nat.eqb].
    rewrite (tensor_ext _ _ Hsh Hget). reflexivity. }
  split; [exact Hgrad|].
  rewrite Hgrad. unfold t_get_corr, to_ref. rewrite Hceig. cbn [obind negb].
  unfold t_make_eig_vjp.
  destruct (t_make_eig_grad_pdm E dm ovlp_shells _) as [gpdm|]; cbn [obind];
    [|reflexivity].
  destruct (mapM _ (combine ovlp_shells gpdm)); reflexivity.
Qed.

End GradEPdm.

(* ================================================================== *)
(** * Part III.  Worked instances                                      *)
(* ================================================================== *)

(** ** The integers and the diagonal eigensolver meet the assumptions *)

Lemma Z_scalar_laws : scalar_laws Z.
Proof. exact InitialRing.Zth. Qed.

Lemma diag_symeig_shape {R} {RS : Scalar R} (t : tensor R) (sh : list nat) (n : nat) :
  shape t = sh ++ [n; n] ->
  exists e, symeig diag_eigensolver t = Some e /\ shape e = sh ++ [n].
Proof.
  intros Hs. cbn [symeig diag_eigensolver]. unfold diag_symeig.
  rewrite Hs, rev_app_distr. cbn [rev app]. rewrite Nat.eqb_refl.
  eexists. split; [reflexivity|]. cbn [shape].
  change (sh ++ [n; n]) with (sh ++ [n] ++ [n]).
  rewrite app_assoc. apply removelast_last.
Qed.

Lemma diag_symeig_vjp_shape {R} {RS : Scalar R} (pdm g : tensor R) :
  shape (symeig_vjp diag_eigensolver pdm g) = shape pdm.
Proof. reflexivity. Qed.

Lemma diag_symeig_vjp_symmetric {R} {RS : Scalar R} (pdm g : tensor R) (a p q : nat) :
  get (symeig_vjp diag_eigensolver pdm g) [a; p; q] =
  get (symeig_vjp diag_eigensolver pdm g) [a; q; p].
Proof.
  cbn. destruct (Nat.eqb_spec p q) as [->|Hne].
  - rewrite Nat.eqb_refl. reflexivity.
  - destruct (Nat.eqb_spec q p); [congruence|reflexivity].
Qed.

(** ** Facts about the inputs *)

Lemma dm_a_symmetric : forall r s, get dm_a [r; s] = get dm_a [s; r].
Proof.
  intros [|[|r]] [|[|s]]; try reflexivity; cbn;
    try (destruct s; reflexivity); try (destruct r; reflexivity).
  destruct r, s; reflexivity.
Qed.

(** ** The projection on a batch of two density matrices *)

(** Witness of C2: a stack of two density matrices and one shell of two
    functions on one atom. *)
Lemma t_make_pdm_contraction_witness :
  shape (stack [dm_a; dm_half]) = [2] ++ [2; 2] /\
  Forall (fun po => shape po = [2; 1; last_dim po]) [ovlp_a] /\
  exists pdm_shells,
    t_make_pdm (stack [dm_a; dm_half]) [ovlp_a] = Some pdm_shells /\
    Forall2 (fun po pdm =>
               shape pdm = [2] ++ [1; last_dim po; last_dim po] /\
               forall b a p q, List.length b = 1 ->
                 get pdm (b ++ [a; p; q]) =
                 pdm_entry po (stack [dm_a; dm_half]) 2 b a p q)
            [ovlp_a] pdm_shells.
Proof.
  assert (Hs : shape (stack [dm_a; dm_half]) = [2] ++ [2; 2]) by reflexivity.
  assert (Ho : Forall (fun po : tensor Z => shape po = [2; 1; last_dim po]) [ovlp_a])
    by (constructor; [reflexivity | constructor]).
  split; [exact Hs|]. split; [exact Ho|].
  destruct (t_make_pdm_contraction (stack [dm_a; dm_half]) [2] Hs Ho)
    as [pdm_shells [H1 [H2 _]]].
  exists pdm_shells. split; assumption.
Defined.

(** The projected densities of the two matrices, computed. *)
Example t_make_pdm_batch_values :
  option_map (map (fun t => (shape t,
                             entries t [[0; 0; 0; 0]; [0; 0; 0; 1]; [0; 0; 1; 1];
                                        [1; 0; 0; 0]; [1; 0; 0; 1]; [1; 0; 1; 1]])))
    (t_make_pdm (stack [dm_a; dm_half]) [ovlp_a])
  = Some [([2; 1; 2; 2], [1; 2; 3; 1; 0; 1]%Z)].
Proof. vm_compute. reflexivity. Qed.

(** ** The hook layer on a toy base solver *)

(** The energy computed from the potential [get_veff] returns is the base
    energy of the base-only potential plus the correction energy, once:
    the base potential is [dm_a] (entries 1 and 2), the correction energy
    is 7, and the single call after [get_veff] is the base energy one. *)
Example hook_layer_counts_correction_once :
  CorrMixin.tbind (CorrMixin.get_veff toy_base None (Some dm_a) None None 1%Z)
    (fun v => CorrMixin.energy_elec toy_base (Some dm_a) (Some dm_half) (Some v))
  = CorrMixin.tbind (CorrMixin.get_veff toy_base None (Some dm_a) None None 1%Z)
      (fun _ => CorrMixin.tcall
                  (CorrMixin.CallSuperEnergyElec (Some dm_a) (Some dm_half) dm_a)
                  (CorrMixin.EScalar 8%Z, CorrMixin.EScalar 9%Z)).
Proof. reflexivity. Qed.

(** Witness of C1: a restricted base solver, whose potential has the
    shape of the correction potential, and an unrestricted one, whose
    potential has the two spin channels; the energy recomputed without a
    potential. *)
Lemma hook_potential_and_energy_witness :
  (exists vtot,
     CorrMixin.get_veff toy_base None (Some dm_a) None None 1%Z =
       Some (CorrMixin.mkTagged vtot (Some (CorrMixin.EScalar 7%Z)) (Some dm_a),
             [CorrMixin.CallSuperGetVeff (Some tt) (Some dm_a) None None 1%Z;
              CorrMixin.CallGetCorr dm_a]) /\
     shape vtot = [2; 2] /\
     forall idx, get vtot idx = (get dm_a idx + get dm_half idx)%Z) /\
  (exists vtot,
     CorrMixin.get_veff toy_base_uhf None (Some dm_spin) None None 1%Z =
       Some (CorrMixin.mkTagged vtot (Some (CorrMixin.EScalar 7%Z)) (Some v0_spin),
             [CorrMixin.CallSuperGetVeff (Some tt) (Some dm_spin) None None 1%Z;
              CorrMixin.CallGetCorr dm_spin]) /\
     shape vtot = [2; 2; 2] /\
     forall s idx, get vtot (s :: idx) = (get v0_spin (s :: idx) + get vc_flat idx)%Z) /\
  (exists r1 r2,
     r1 = CorrMixin.EScalar (1 + 7)%Z /\ r2 = CorrMixin.EScalar (2 + 7)%Z /\
     CorrMixin.energy_elec toy_base_uhf (Some dm_spin) (Some dm_half) None =
       Some ((r1, r2),
             [CorrMixin.CallSuperGetVeff (Some tt) (Some dm_spin) None None 1%Z;
              CorrMixin.CallGetCorr dm_spin;
              CorrMixin.CallSuperEnergyElec (Some dm_spin) (Some dm_half) v0_spin])) /\
  CorrMixin.get_veff toy_base_mismatch None (Some dm_a) None None 1%Z = None.
Proof.
  split; [|split; [|split]].
  - destruct (@hook_potential_and_energy Z _ unit toy_base None (Some dm_a)
                (Some dm_half) None None 1%Z) as [[Hsame _] _].
    exact (Hsame eq_refl).
  - destruct (@hook_potential_and_energy Z _ unit toy_base_uhf None (Some dm_spin)
                (Some dm_half) None None 1%Z) as [(_ & Hspin & _) _].
    exact (Hspin 2 eq_refl).
  - destruct (@hook_potential_and_energy Z _ unit toy_base_uhf None (Some dm_spin)
                (Some dm_half) None None 1%Z) as [(_ & _ & _ & Hre) _].
    destruct (Hre (or_intror (ex_intro _ 2 eq_refl))) as (r1 & r2 & H1 & H2 & He & _).
    exists r1, r2.
    destruct r1 as [z1|t1]; [|contradiction H1].
    destruct r2 as [z2|t2]; [|contradiction H2].
    cbv beta iota in H1, H2.
    split; [f_equal; exact H1|]. split; [f_equal; exact H2|]. exact He.
  - destruct (@hook_potential_and_energy Z _ unit toy_base_mismatch None (Some dm_a)
                (Some dm_half) None None 1%Z) as [(_ & _ & Hbad & _) _].
    apply (Hbad [2] [2] 3 2 eq_refl eq_refl); discriminate.
Defined.

(** The potential of the unrestricted solver, computed: the correction
    potential is added to each spin channel. *)
Example hook_potential_spin_values :
  option_map (fun r => (shape (CorrMixin.arr (fst r)),
                        entries (CorrMixin.arr (fst r))
                          [[0; 0; 0]; [0; 0; 1]; [0; 1; 0]; [0; 1; 1];
                           [1; 0; 0]; [1; 0; 1]; [1; 1; 0]; [1; 1; 1]]))
    (CorrMixin.get_veff toy_base_uhf None (Some dm_spin) None None 1%Z)
  = Some ([2; 2; 2], [3; 5; 5; 8; 3; 3; 3; 6]%Z).
Proof. vm_compute. reflexivity. Qed.

(** ** The correction potential *)

(** Witness of C3: the diagonal eigensolver, the trivial model, a
    symmetric density matrix and one shell of one function on two atoms. *)
Lemma correction_potential_symmetric_witness :
  exists ec vc,
    t_get_corr diag_eigensolver (model_sum 1) dm_a [ovlp_s] true = Some (ec, Some vc) /\
    shape vc = shape dm_a /\
    forall r s, get vc [r; s] = get vc [s; r].
Proof.
  apply (@correction_potential_symmetric Z _ diag_eigensolver Z_scalar_laws
           (model_sum 1) dm_a [ovlp_s] 2 2).
  - intros t n Hs. apply (diag_symeig_shape t [2] n Hs).
  - apply diag_symeig_vjp_shape.
  - apply diag_symeig_vjp_symmetric.
  - reflexivity.
  - reflexivity.
  - constructor; [reflexivity | constructor].
  - discriminate.
  - exact dm_a_symmetric.
Defined.

(** ** The two evaluation paths *)

(** Counterexample to C4 as stated: for the model [x.dim() * w * x.sum()]
    with weight [w = 1],
    [t_make_grad_e_pdm] (model evaluated with a leading dimension, three
    dimensions) returns the gradient 3 where the reverse pass of
    [t_get_corr] (two dimensions) forms the gradient 2. *)
Lemma grad_paths_differ_for_rank_sensitive_model :
  option_map (map (fun t => get t [0; 0; 0]))
    (t_make_grad_e_pdm diag_eigensolver model_rank dm_a [ovlp_s]) = Some [3%Z] /\
  option_map (map (fun t => get t [0; 0; 0]))
    (ceig <- t_make_eig diag_eigensolver dm_a [ovlp_s] ;;
     t_make_eig_grad_pdm diag_eigensolver dm_a [ovlp_s]
       (backward model_rank ceig (ones_like (forward model_rank ceig)))) = Some [2%Z].
Proof. split; vm_compute; reflexivity. Qed.

(** The two paths differ on a second kind of model, which the amended
    statement excludes: for a callable that is not a module, here the
    function [lambda x: x.sum()], [t_get_corr] returns the energy and the
    potential it returns for the module [w * x.sum()] with [w = 1], where
    [t_make_grad_e_pdm] raises. *)
Example grad_e_pdm_raises_for_plain_callable :
  t_make_grad_e_pdm diag_eigensolver plain_sum dm_a [ovlp_s] = None /\
  option_map (fun r => (get (fst r) [],
                        option_map (fun vc => entries vc [[0; 0]; [0; 1]; [1; 0]; [1; 1]])
                                   (snd r)))
    (t_get_corr diag_eigensolver plain_sum dm_a [ovlp_s] true)
  = Some (29%Z, Some [2; 3; 3; 5]%Z).
Proof. split; vm_compute; reflexivity. Qed.

(** Witness of C4 (amended): the trivial model. *)
Lemma grad_e_pdm_agrees_witness :
  exists ceig,
    t_make_eig diag_eigensolver dm_a [ovlp_s] = Some ceig /\
    t_make_grad_e_pdm diag_eigensolver (model_sum 1) dm_a [ovlp_s] =
    t_make_eig_grad_pdm diag_eigensolver dm_a [ovlp_s]
      (backward (model_sum 1) ceig (ones_like (forward (model_sum 1) ceig))) /\
    option_map (map (fun t => get t [1; 0; 0]))
      (t_make_grad_e_pdm diag_eigensolver (model_sum 1) dm_a [ovlp_s]) = Some [1%Z].
Proof.
  destruct (t_make_eig diag_eigensolver dm_a [ovlp_s]) as [ceig|] eqn:Hc.
  - exists ceig. split; [reflexivity|]. split.
    + apply (proj1 (@grad_e_pdm_agrees Z _ diag_eigensolver (model_sum 1) dm_a
                      [ovlp_s] ceig ltac:(discriminate) eq_refl Hc eq_refl
                      (conj eq_refl (fun idx => eq_refl)))).
    + vm_compute. reflexivity.
  - exfalso. vm_compute in Hc. discriminate.
Defined.

(** ** The projected-density jacobian *)

(** Witness of C5: two atoms with one orbital and one projector each. *)
Lemma t_make_grad_pdm_x_contributions_witness :
  exists gdmx_shells,
    t_make_grad_pdm_x line_gto mol_a dm_a [ovlp_s] [ipov_s] = Some gdmx_shells /\
    Forall2 (fun '(ovlp, govx) gdmx =>
               shape gdmx = [2; 3; 2; last_dim ovlp; last_dim ovlp] /\
               forall ia x a p q, ia < 2 ->
                 get gdmx [ia; x; a; p; q] =
                   sadd (moving_atom_term govx dm_a ovlp 2
                           (aoslice_by_atom line_gto mol_a ia) ia x a p q)
                        (moving_atom_term govx dm_a ovlp 2
                           (aoslice_by_atom line_gto mol_a ia) ia x a q p) /\
                 get gdmx [ia; x; a; p; q] = get gdmx [ia; x; a; q; p])
            (combine [ovlp_s] [ipov_s]) gdmx_shells.
Proof.
  apply (@t_make_grad_pdm_x_contributions Z _ line_mol nat line_gto Z_scalar_laws
           mol_a dm_a [ovlp_s] [ipov_s] 2).
  - reflexivity.
  - constructor; [split; reflexivity | constructor].
Defined.

(** The jacobian of that input, computed: moving atom 0, direction x. *)
Example t_make_grad_pdm_x_values :
  option_map (map (fun t => entries t [[0; 0; 0; 0; 0]; [0; 0; 1; 0; 0];
                                       [1; 0; 0; 0; 0]; [1; 0; 1; 0; 0]]))
    (t_make_grad_pdm_x line_gto mol_a dm_a [ovlp_s] [ipov_s])
  = Some [[30; -20; -30; 20]%Z].
Proof. vm_compute. reflexivity. Qed.

(** ** Spin channels *)


(** ** No model *)

(** Witness of C7: a solver without model, a density matrix and the atom
    list [[1]]. *)
Lemma no_model_zero_correction_witness :
  NetMixin.net (Gradients.base world_no_model) = None /\
  (exists vc,
     NetMixin.get_corr diag_eigensolver (Gradients.base world_no_model) (Some dm_a)
       = Some (CorrMixin.EScalar 0%Z, vc) /\
     shape vc = [2; 2] /\ forall idx, get vc idx = 0%Z) /\
  (exists dec,
     Gradients.grad_corr line_gto diag_eigensolver world_no_model (Some dm_a) (Some [1])
       = Some dec /\
     shape dec = [1; 3] /\ forall idx, get dec idx = 0%Z).
Proof.
  split; [reflexivity|].
  exact (@no_model_zero_correction Z _ line_mol nat line_gto diag_eigensolver
           world_no_model (Some dm_a) (Some [1]) eq_refl).
Defined.

(** ** Empty inputs of the descriptor *)

(** Counterexample to C9 as stated: with an empty projection basis (no
    shell) [t_make_eig] raises. *)
Lemma t_make_eig_no_shells_raises :
  t_make_eig diag_eigensolver dm_a [] = None.
Proof. reflexivity. Qed.

(** Witness of C9 (amended): no atom, one shell. *)
Lemma t_make_eig_empty_inputs_witness :
  exists ceig,
    t_make_eig diag_eigensolver dm_a [ovlp_no_atoms] = Some ceig /\
    shape ceig = [0; 1] /\ nelement ceig = 0.
Proof.
  refine (proj1 (@t_make_eig_empty_inputs Z _ diag_eigensolver _ dm_a [ovlp_no_atoms] 2
                   eq_refl _) _).
  - intros t n Hs. apply (diag_symeig_shape t [0] n Hs).
  - constructor; [reflexivity | constructor].
  - discriminate.
Defined.

(** ** Geometry resets *)

(** Counterexample to C8 as stated: a gradient object is built on the
    solver at [mol_a]; the solver is then reset to [mol_b] through its
    reset protocol.  The solver holds the overlaps of [mol_b], the
    gradient object still those of [mol_a], and its force query returns,
    without an error, the force of the old geometry and not the one a
    gradient object built after the reset returns. *)
Lemma stale_gradient_after_solver_reset :
  let w0 := mf <- solver_a ;; Gradients.init line_gto mf in
  let w1 := w <- w0 ;; Gradients.solver_reset line_gto w (Some mol_b) in
  let fresh := w <- w1 ;; Gradients.init line_gto (Gradients.base w) in
  let force w := d <- Gradients.grad_corr line_gto diag_eigensolver w None None ;;
                 Some (entries d [[0; 0]; [1; 0]]) in
  let ovlp ts := map (fun t => entries t [[0; 0; 0]; [0; 1; 0]; [1; 0; 0]; [1; 1; 0]]) ts in
  option_map (fun w => ovlp (NetMixin._t_ovlp_shells (Gradients.base w))) w1
    = Some [[1; 1; 1; 5]]%Z /\
  option_map (fun w => ovlp (Gradients._t_ovlp_shells (Gradients.grad w))) w1
    = Some [[1; 1; 1; 2]]%Z /\
  (w <- w1 ;; force w) = Some [2; -2]%Z /\
  (w <- w0 ;; force w) = Some [2; -2]%Z /\
  (w <- fresh ;; force w) = Some [4; -4]%Z.
Proof. cbv zeta. repeat split; vm_compute; reflexivity. Qed.

(** Witness of C8 (amended): the solver at [mol_a] reset to [mol_b]. *)
Lemma overlaps_rebuilt_on_reset_witness :
  let self := solver_at mol_a (Some (model_sum 1)) in
  exists self',
    NetMixin.reset line_gto self (Some mol_b) = Some self' /\
    NetMixin.mol self' = mol_b /\
    Some (NetMixin._t_ovlp_shells self') = projection_overlaps line_gto 1 [1] mol_b /\
    option_map (map (fun t => entries t [[0; 0; 0]; [0; 1; 0]; [1; 0; 0]; [1; 1; 0]]))
      (projection_overlaps line_gto 1 [1] mol_b) = Some [[1; 1; 1; 5]]%Z.
Proof.
  intros self.
  destruct (NetMixin.reset line_gto self (Some mol_b)) as [self'|] eqn:Hr;
    [|exfalso; vm_compute in Hr; discriminate].
  exists self'. split; [reflexivity|].
  destruct (proj1 (@overlaps_rebuilt_on_reset Z _ line_mol nat line_gto self self'
                     mol_b Hr)) as [Hm Ho].
  split; [exact Hm|]. split; [exact Ho|].
  vm_compute. reflexivity.
Defined.

(** The gradient scanner called at [mol_b] on the same solver: both
    caches hold the integrals of [mol_b], and the force is the one of the
    new geometry. *)
Example scanner_refreshes_both_caches :
  let w0 := mf <- solver_a ;; Gradients.init line_gto mf in
  let w1 := w <- w0 ;;
            Gradients.scanner_call line_gto (fun mf => NetMixin.make_rdm1 mf) w mol_b in
  let ovlp ts := map (fun t => entries t [[0; 0; 0]; [0; 1; 0]; [1; 0; 0]; [1; 1; 0]]) ts in
  option_map (fun w => ovlp (Gradients._t_ovlp_shells (Gradients.grad w))) w1
    = Some [[1; 1; 1; 5]]%Z /\
  (w <- w1 ;; d <- Gradients.grad_corr line_gto diag_eigensolver w None None ;;
   Some (entries d [[0; 0]; [1; 0]])) = Some [4; -4]%Z.
Proof. cbv zeta. split; vm_compute; reflexivity. Qed.

(* ================================================================== *)
(** * Part IV.  Further properties of the code                         *)
(* ================================================================== *)

(** ** The projected density: symmetry and spin channels *)

Lemma Forall2_common_l {A B C} (P : A -> B -> Prop) (Q : A -> C -> Prop)
    (S : B -> C -> Prop) l l1 l2 :
  Forall2 P l l1 -> Forall2 Q l l2 ->
  (forall a b c, P a b -> Q a c -> S b c) -> Forall2 S l1 l2.
Proof.
  intros HP; revert l2. induction HP; intros l2 HQ HS; inversion HQ; subst;
    constructor; eauto.
Qed.

Section PdmAlgebra.
Context {R : Type} {RS : Scalar R}.
Hypothesis laws : scalar_laws R.
Add Ring scalar_ring_pdm : (laws : ring_theory s0 s1 sadd smul ssub sopp (@eq R)).

Lemma pdm_entry_symmetric (po dm : tensor R) nao b a p q :
  (forall r s, get dm (b ++ [r; s]) = get dm (b ++ [s; r])) ->
  pdm_entry po dm nao b a p q = pdm_entry po dm nao b a q p.
Proof.
  intros Hsym. unfold pdm_entry. rewrite (rsum_swap laws).
  apply rsum_ext; intros s _. apply rsum_ext; intros r _.
  rewrite (Hsym r s). ring.
Qed.

Lemma pdm_entry_sum0 (po dm : tensor R) n nao sh a p q :
  shape dm = n :: sh ->
  pdm_entry po (sum0 dm) nao [] a p q =
  rsum n (fun i => pdm_entry po dm nao [i] a p q).
Proof.
  intros Hs. unfold pdm_entry. cbn [app sum0 get]. rewrite Hs. cbn [hd].
  symmetry. rewrite (rsum_swap laws). apply rsum_ext; intros r _.
  rewrite (rsum_swap laws). apply rsum_ext; intros s _.
  rewrite (rsum_scale_r laws), (rsum_scale_l laws). reflexivity.
Qed.

End PdmAlgebra.

Section PdmExtras.
Context {R : Type} {RS : Scalar R} {Mole Basis : Type}.
Variable E : eigensolver R.

(** X1.  For a density matrix that is symmetric in its two orbital
    indices at every batch position, with overlaps of shape
    [nao x natm x nsph] per shell, [t_make_pdm] returns, and every
    projected density matrix it returns is symmetric in its two local
    indices: [pdm[b,a,p,q] = pdm[b,a,q,p]]. *)
Theorem t_make_pdm_symmetric :
  scalar_laws R ->
  forall (dm : tensor R) (ovlp_shells : list (tensor R)) (nao natm : nat)
         (bs : list nat),
    shape dm = bs ++ [nao; nao] ->
    Forall (fun po => shape po = [nao; natm; last_dim po]) ovlp_shells ->
    (forall b r s, List.length b = List.length bs ->
       get dm (b ++ [r; s]) = get dm (b ++ [s; r])) ->
    exists pdm_shells,
      t_make_pdm dm ovlp_shells = Some pdm_shells /\
      Forall (fun pdm => forall b a p q, List.length b = List.length bs ->
                get pdm (b ++ [a; p; q]) = get pdm (b ++ [a; q; p]))
             pdm_shells.
Proof.
  intros laws dm ovlp_shells nao natm bs Hdm Hov Hsym.
  destruct (t_make_pdm_entries dm bs Hdm Hov) as [pdm_shells [Hpdm HF]].
  exists pdm_shells. split; [exact Hpdm|].
  eapply Forall2_Forall_r; [exact HF|].
  intros po pdm [_ He] b a p q Hb. cbv beta.
  rewrite !He by assumption.
  apply (pdm_entry_symmetric laws). intros r s. apply Hsym. exact Hb.
Qed.

(** X2.  [make_pdm] does not sum spin channels where [make_eig] does:
    for an unrestricted solver and a density of shape [n x nao x nao],
    [make_pdm] returns per shell a tensor with the leading dimension [n]
    kept, [make_eig] diagonalizes the projection of the density summed over
    that dimension, and this projection is, entry by entry, the sum over
    the channels of what [make_pdm] returns. *)
Theorem make_pdm_keeps_spin_channels :
  scalar_laws R ->
  forall (self : NetMixin.state R Mole Basis) (dm : tensor R) (n nao natm : nat),
    NetMixin.is_UHF self = true ->
    shape dm = [n; nao; nao] ->
    Forall (fun po => shape po = [nao; natm; last_dim po])
           (NetMixin._t_ovlp_shells self) ->
    exists per_channel summed,
      NetMixin.make_pdm self (Some dm) false = Some (inl per_channel) /\
      NetMixin.make_eig E self (Some dm) =
        (eig_shells <- mapM (t_shell_eig E) summed ;; cat_last eig_shells) /\
      Forall2 (fun pc sm =>
                 shape pc = n :: shape sm /\
                 forall a p q,
                   get sm [a; p; q] = rsum n (fun i => get pc [i; a; p; q]))
              per_channel summed.
Proof.
  intros laws self dm n nao natm Huhf Hdm Hov.
  destruct (@t_make_pdm_entries R RS dm (NetMixin._t_ovlp_shells self) nao natm [n]
              Hdm Hov) as [pcs [Hpcs HFc]].
  assert (Hsum : shape (sum0 dm) = [] ++ [nao; nao]).
  { unfold sum0. cbn [shape]. rewrite Hdm. reflexivity. }
  destruct (@t_make_pdm_entries R RS (sum0 dm) (NetMixin._t_ovlp_shells self) nao natm []
              Hsum Hov) as [sms [Hsms HFs]].
  exists pcs, sms. split; [|split].
  - unfold NetMixin.make_pdm. rewrite Hpcs. reflexivity.
  - unfold NetMixin.make_eig, NetMixin.spin_sum, ndim. rewrite Huhf, Hdm.
    cbn [List.length Nat.leb andb]. unfold t_make_eig. rewrite Hsms. reflexivity.
  - eapply Forall2_common_l; [exact HFc|exact HFs|].
    intros po pc sm [Hsc Hec] [Hss Hes]. cbv beta. split.
    + rewrite Hsc, Hss. reflexivity.
    + intros a p q.
      pose proof (Hes [] a p q eq_refl) as H0. cbn [app] in H0. rewrite H0.
      rewrite (pdm_entry_sum0 laws po dm nao a p q Hdm).
      apply rsum_ext; intros i _. symmetry. apply (Hec [i] a p q eq_refl).
Qed.

End PdmExtras.

(** Witness of X1: the symmetric matrix [dm_a], a shell of one function
    and a shell of two. *)
Lemma t_make_pdm_symmetric_witness :
  exists pdm_shells,
    t_make_pdm dm_a [ovlp_s; ovlp_p] = Some pdm_shells /\
    Forall (fun pdm => forall b a p q, List.length b = 0 ->
              get pdm (b ++ [a; p; q]) = get pdm (b ++ [a; q; p]))
           pdm_shells.
Proof.
  apply (@t_make_pdm_symmetric Z _ Z_scalar_laws dm_a [ovlp_s; ovlp_p] 2 2 []).
  - reflexivity.
  - constructor; [reflexivity | constructor; [reflexivity | constructor]].
  - intros [|i b] r s Hb; [apply dm_a_symmetric | discriminate].
Defined.

(** The projected density of the shell of two functions, computed: one
    symmetric matrix per atom. *)
Example t_make_pdm_two_functions_values :
  option_map (map (fun t => entries t [[0; 0; 0]; [0; 0; 1]; [0; 1; 0]; [0; 1; 1];
                                       [1; 0; 0]; [1; 0; 1]; [1; 1; 0]; [1; 1; 1]]))
    (t_make_pdm dm_a [ovlp_p])
  = Some [[8; 5; 5; 3; 12; 4; 4; 1]%Z].
Proof. vm_compute. reflexivity. Qed.

(** Witness of X2: the unrestricted solver and two different channels. *)
Lemma make_pdm_keeps_spin_channels_witness :
  exists per_channel summed,
    NetMixin.make_pdm uhf_solver (Some (stack [dm_a; dm_half])) false
      = Some (inl per_channel) /\
    NetMixin.make_eig diag_eigensolver uhf_solver (Some (stack [dm_a; dm_half])) =
      (eig_shells <- mapM (t_shell_eig diag_eigensolver) summed ;; cat_last eig_shells) /\
    Forall2 (fun pc sm =>
               shape pc = 2 :: shape sm /\
               forall a p q,
                 get sm [a; p; q] = rsum 2 (fun i => get pc [i; a; p; q]))
            per_channel summed.
Proof.
  apply (@make_pdm_keeps_spin_channels Z _ line_mol nat diag_eigensolver Z_scalar_laws
           uhf_solver (stack [dm_a; dm_half]) 2 2 2).
  - reflexivity.
  - reflexivity.
  - constructor; [reflexivity | constructor].
Defined.

(** ** The correction potential as a pull-back *)

Lemma mapM_Some_Forall2 {A B} (f : A -> option B) (l : list A) (bs : list B) :
  mapM f l = Some bs -> Forall2 (fun a b => f a = Some b) l bs.
Proof.
  revert bs; induction l as [|a l IH]; intros bs H; simpl in H.
  - injection H as <-. constructor.
  - destruct (f a) as [b|] eqn:Hb; cbn [obind] in H; [|discriminate].
    destruct (mapM f l) as [bs'|]; cbn [obind] in H; [|discriminate].
    injection H as <-. constructor; auto.
Qed.

Section Pullback.
Context {R : Type} {RS : Scalar R}.
Hypothesis laws : scalar_laws R.
Add Ring scalar_ring_pullback : (laws : ring_theory s0 s1 sadd smul ssub sopp (@eq R)).

Lemma total_tmul_2 (t u : tensor R) n m :
  shape t = [n; m] ->
  total (tmul t u) =
  rsum n (fun r => rsum m (fun s => smul (get t [r; s]) (get u [r; s]))).
Proof. intros Hs. unfold total, tmul. cbn [shape get]. rewrite Hs. reflexivity. Qed.

Lemma total_tmul_3 (t u : tensor R) n m k :
  shape t = [n; m; k] ->
  total (tmul t u) =
  rsum n (fun a => rsum m (fun p => rsum k (fun q =>
    smul (get t [a; p; q]) (get u [a; p; q])))).
Proof. intros Hs. unfold total, tmul. cbn [shape get]. rewrite Hs. reflexivity. Qed.

Lemma fold_parts_pairing (ddm : tensor R) nao na :
  forall (ovlp gedm parts dpdm : list (tensor R)) (z : tensor R),
    Forall2 (fun po g => shape po = [nao; na; last_dim po] /\
                         shape g = [na; last_dim po; last_dim po]) ovlp gedm ->
    mapM (fun '(po, gk) => t_make_pdm_vjp po gk) (combine ovlp gedm) = Some parts ->
    Forall2 (fun po d => shape d = [] ++ [na; last_dim po; last_dim po] /\
               forall b a p q, List.length b = List.length (@nil nat) ->
                 get d (b ++ [a; p; q]) = pdm_entry po ddm nao b a p q) ovlp dpdm ->
    shape z = [nao; nao] ->
    total (tmul (fold_left tadd parts z) ddm) =
    sadd (total (tmul z ddm))
         (fold_right sadd s0
            (map (fun '(g, d) => total (tmul g d)) (combine gedm dpdm))).
Proof.
  intros ovlp gedm parts dpdm z HF. revert parts dpdm z.
  induction HF as [|po g ovlp gedm [Hpo Hg] HF IH]; intros parts dpdm z Hparts HFd Hz.
  - cbn in Hparts. injection Hparts as <-. cbn. ring.
  - inversion HFd as [|po' d ovlp' dpdm' [Hsd Hed] HFd']; subst.
    cbn [combine mapM] in Hparts.
    destruct (t_make_pdm_vjp po g) as [t|] eqn:Ht; cbn [obind] in Hparts; [|discriminate].
    destruct (mapM _ (combine ovlp gedm)) as [parts'|] eqn:Hp'; cbn [obind] in Hparts;
      [|discriminate].
    injection Hparts as <-. cbn [fold_left combine map fold_right].
    destruct (@einsum_pdm_vjp R RS po g nao na (last_dim po) Hpo Hg) as [t' [Ht' [Hst _]]].
    rewrite Ht in Ht'. injection Ht' as <-.
    rewrite (IH parts' dpdm' (tadd z t) eq_refl HFd') by (cbn [tadd shape]; exact Hz).
    assert (Hadd : total (tmul (tadd z t) ddm) =
                   sadd (total (tmul z ddm)) (total (tmul t ddm))).
    { rewrite !(@total_tmul_2 _ _ nao nao) by assumption.
      rewrite <- (rsum_add laws). apply rsum_ext; intros r _.
      rewrite <- (rsum_add laws). apply rsum_ext; intros s _.
      cbn [tadd get]. ring. }
    assert (Hadj : total (tmul g d) = total (tmul t ddm)).
    { rewrite (@total_tmul_3 g d na (last_dim po) (last_dim po) Hg).
      rewrite (@total_tmul_2 t ddm nao nao Hst).
      rewrite <- (@pdm_vjp_adjoint R RS laws po g ddm nao na (last_dim po) Hpo Hg t Ht).
      apply rsum_ext; intros a _. apply rsum_ext; intros p _. apply rsum_ext; intros q _.
      rewrite <- (Hed [] a p q eq_refl). reflexivity. }
    rewrite Hadd, Hadj. ring.
Qed.

Lemma total_tmul_zeros (z ddm : tensor R) n m :
  shape z = [n; m] -> (forall idx, get z idx = s0) -> total (tmul z ddm) = s0.
Proof.
  intros Hs Hz. rewrite (@total_tmul_2 z ddm n m Hs).
  transitivity (rsum n (fun _ : nat => s0)); [|apply (rsum_0 laws)].
  apply rsum_ext; intros r _.
  transitivity (rsum m (fun _ : nat => s0)); [|apply (rsum_0 laws)].
  apply rsum_ext; intros s _. rewrite Hz. ring.
Qed.

Lemma sadd_0_l (x : R) : sadd s0 x = x.
Proof. ring. Qed.

End Pullback.

Lemma mapM_length {A B} (f : A -> option B) (l : list A) (bs : list B) :
  mapM f l = Some bs -> List.length bs = List.length l.
Proof.
  intros H. apply mapM_Some_Forall2 in H. symmetry. apply (Forall2_length_eq H).
Qed.

Section PullbackClaim.
Context {R : Type} {RS : Scalar R}.
Variable E : eigensolver R.

(** X3.  The potential [t_get_corr] returns is the pull-back, through
    the projection of [t_make_pdm], of the energy gradient with respect
    to the projected density: whenever [t_get_corr] returns [(ec, vc)] for
    a single density matrix, for every matrix [ddm] of the same shape the
    sum of [vc[r,s] * ddm[r,s]] equals the sum over shells of
    [gedm[a,p,q] * pdm(ddm)[a,p,q]], where [gedm] are the cotangents the
    reverse pass forms and [pdm(ddm)] is [t_make_pdm] of [ddm].  The
    eigensolver's rule is assumed to return a tensor of the shape of its
    input. *)
Theorem correction_potential_is_pullback :
  scalar_laws R ->
  forall (m : model R) (dm : tensor R) (ovlp_shells : list (tensor R))
         (nao na : nat) (ec vc : tensor R),
    (forall pdm ge, shape (symeig_vjp E pdm ge) = shape pdm) ->
    shape dm = [nao; nao] ->
    Forall (fun po => shape po = [nao; na; last_dim po]) ovlp_shells ->
    t_get_corr E m dm ovlp_shells true = Some (ec, Some vc) ->
    exists ceig gedm,
      t_make_eig E dm ovlp_shells = Some ceig /\
      t_make_eig_grad_pdm E dm ovlp_shells
        (backward m ceig (ones_like (forward m ceig))) = Some gedm /\
      forall ddm, shape ddm = [nao; nao] ->
        exists dpdm,
          t_make_pdm ddm ovlp_shells = Some dpdm /\
          total (tmul vc ddm) =
          fold_right sadd s0
            (map (fun '(g, d) => total (tmul g d)) (combine gedm dpdm)).
Proof.
  intros laws m dm ovlp_shells nao na ec vc Hvs Hdm Hov Hcorr.
  unfold t_get_corr, to_ref in Hcorr.
  destruct (t_make_eig E dm ovlp_shells) as [ceig|] eqn:Hceig; cbn [obind negb] in Hcorr;
    [|discriminate].
  destruct (t_make_eig_vjp E dm ovlp_shells _) as [vc'|] eqn:Hvjp; cbn [obind] in Hcorr;
    [|discriminate].
  injection Hcorr as _ <-.
  unfold t_make_eig_vjp in Hvjp.
  destruct (t_make_eig_grad_pdm E dm ovlp_shells _) as [gedm|] eqn:Hg;
    cbn [obind] in Hvjp; [|discriminate].
  destruct (mapM _ (combine ovlp_shells gedm)) as [parts|] eqn:Hparts;
    cbn [obind] in Hvjp; [|discriminate].
  injection Hvjp as <-.
  exists ceig, gedm. split; [reflexivity|]. split; [exact Hg|].
  (* the shapes of the cotangents *)
  assert (HFg : Forall2 (fun po g => shape po = [nao; na; last_dim po] /\
                           shape g = [na; last_dim po; last_dim po]) ovlp_shells gedm).
  { destruct (@t_make_pdm_entries R RS dm ovlp_shells nao na [] Hdm Hov)
      as [pdm_shells [Hpdm HF]].
    unfold t_make_eig_grad_pdm in Hg. rewrite Hpdm in Hg. cbn [obind] in Hg.
    destruct (mapM (t_shell_eig E) pdm_shells) as [eig_shells|] eqn:Heig;
      cbn [obind] in Hg; [|discriminate].
    unfold split_last in Hg.
    destruct ((1 <=? ndim _) && _); cbn [obind] in Hg; [|discriminate].
    injection Hg as <-.
    eapply Forall2_map_combine; [exact (Forall2_and_l Hov HF)| |].
    - rewrite split_from_length, length_map. apply (mapM_length _ _ Heig).
    - intros po pdm gk [Hpo [Hs _]]. cbv beta. split; [exact Hpo|].
      rewrite Hvs. exact Hs. }
  intros ddm Hddm.
  destruct (@t_make_pdm_entries R RS ddm ovlp_shells nao na [] Hddm Hov)
    as [dpdm [Hdpdm HFd]].
  exists dpdm. split; [exact Hdpdm|].
  rewrite (@fold_parts_pairing R RS laws ddm nao na ovlp_shells gedm parts dpdm
             (zeros_like dm) HFg Hparts HFd) by (cbn; exact Hdm).
  rewrite (@total_tmul_zeros R RS laws (zeros_like dm) ddm nao nao)
    by (cbn; auto).
  apply (sadd_0_l laws).
Qed.

End PullbackClaim.

(** Witness of X3: the diagonal eigensolver and the trivial model. *)
Lemma correction_potential_is_pullback_witness :
  exists ec vc ceig gedm,
    t_get_corr diag_eigensolver (model_sum 1) dm_a [ovlp_s] true = Some (ec, Some vc) /\
    t_make_eig diag_eigensolver dm_a [ovlp_s] = Some ceig /\
    t_make_eig_grad_pdm diag_eigensolver dm_a [ovlp_s]
      (backward (model_sum 1) ceig (ones_like (forward (model_sum 1) ceig))) = Some gedm /\
    forall ddm, shape ddm = [2; 2] ->
      exists dpdm,
        t_make_pdm ddm [ovlp_s] = Some dpdm /\
        total (tmul vc ddm) =
        fold_right sadd s0
          (map (fun '(g, d) => total (tmul g d)) (combine gedm dpdm)).
Proof.
  destruct (t_get_corr diag_eigensolver (model_sum 1) dm_a [ovlp_s] true)
    as [[ec [vc|]]|] eqn:Hc;
    [|exfalso; vm_compute in Hc; discriminate|exfalso; vm_compute in Hc; discriminate].
  destruct (@correction_potential_is_pullback Z _ diag_eigensolver Z_scalar_laws
              (model_sum 1) dm_a [ovlp_s] 2 2 ec vc)
    as [ceig [gedm [H1 [H2 H3]]]].
  - apply diag_symeig_vjp_shape.
  - reflexivity.
  - constructor; [reflexivity | constructor].
  - exact Hc.
  - exists ec, vc, ceig, gedm. repeat split; assumption.
Defined.

(** ** The hook layer without model, and the base-only energies *)

Section ZeroAlgebra.
Context {R : Type} {RS : Scalar R}.
Hypothesis laws : scalar_laws R.
Add Ring scalar_ring_zero : (laws : ring_theory s0 s1 sadd smul ssub sopp (@eq R)).

Lemma sadd_0_r (x : R) : sadd x s0 = x.
Proof. ring. Qed.

Lemma tadd_zeros_like (t d : tensor R) : tadd t (zeros_like d) = t.
Proof.
  apply tensor_ext; [reflexivity|]. intros idx. cbn. ring.
Qed.


End ZeroAlgebra.

Section HookNoModel.
Import CorrMixin.
Context {R : Type} {RS : Scalar R} {Mole Basis : Type}.
Variable E : eigensolver R.

(** X4.  A solver whose correction is [NetMixin.get_corr] without a
    model ([net] is [None]) reproduces the base method: the correction is
    the one of the abstract [get_corr] (energy [0.], zero potential),
    and, for a base potential of the shape of the density matrix,
    [get_veff] returns the base potential itself (tagged with [ec = 0.]
    and [v0]), and [energy_elec] returns the base solver's two energies
    unchanged. *)
Theorem hooks_reduce_to_base_without_model :
  scalar_laws R ->
  forall (self : base_solver R Mole) (st : NetMixin.state R Mole Basis),
    NetMixin.net st = None ->
    (forall d, get_corr self d = NetMixin.get_corr E st (Some d)) ->
    forall (mol : option Mole) (dm h1e dm_last : option (tensor R))
           (vhf_last : option (tagged R)) (hermi : Z),
      let d := match dm with Some x => x | None => make_rdm1 self end in
      let h := match h1e with Some x => x | None => get_hcore self end in
      let m := match mol with Some x => x | None => self_mol self end in
      let v0_last := match vhf_last with Some v => tag_v0 v | None => None end in
      let v0 := super_get_veff self (Some m) (Some d) dm_last v0_last hermi in
      let v1 := super_get_veff self (Some (self_mol self)) (Some d) None None 1%Z in
      let e := super_energy_elec self (Some d) (Some h) v1 in
      get_corr self d = option_map fst (abstract_get_corr self (Some d)) /\
      (shape v0 = shape d ->
       exists calls,
         get_veff self mol dm dm_last vhf_last hermi =
           Some (tag_array v0 (EScalar s0) v0, calls)) /\
      (shape v1 = shape d ->
       exists calls,
         energy_elec self dm h1e None =
           Some ((EScalar (fst e), EScalar (snd e)), calls)).
Proof.
  intros laws self st Hnet Hcorr mol dm h1e dm_last vhf_last hermi d h m v0_last v0 v1 e.
  assert (Hc : forall x, get_corr self x = Some (EScalar s0, zeros_like x)).
  { intros x. rewrite Hcorr. unfold NetMixin.get_corr. rewrite Hnet. reflexivity. }
  split; [rewrite Hc; reflexivity|]. split.
  - intros Hs.
    pose proof (get_veff_unfold self mol dm dm_last vhf_last hermi) as Hveff.
    cbv zeta in Hveff. fold d in Hveff. fold m in Hveff. fold v0_last in Hveff.
    fold v0 in Hveff. rewrite Hveff, Hc.
    rewrite (@badd_same_shape R RS v0 (zeros_like d)) by (symmetry; exact Hs).
    rewrite (tadd_zeros_like laws). eexists; reflexivity.
  - intros Hs.
    pose proof (@energy_elec_recomputes R RS Mole self dm h1e None I) as He.
    cbv zeta in He. fold d in He. fold h in He. fold v1 in He. fold e in He.
    rewrite He, Hc.
    rewrite (@badd_same_shape R RS v1 (zeros_like d)) by (symmetry; exact Hs).
    cbn [eadd]. rewrite !(sadd_0_r laws). eexists; reflexivity.
Qed.


End HookNoModel.

(** Witness of X4: the toy base solver without model. *)
Lemma hooks_reduce_to_base_without_model_witness :
  (exists calls,
     CorrMixin.get_veff toy_base_no_model None (Some dm_a) None None 1%Z =
       Some (CorrMixin.tag_array dm_a (CorrMixin.EScalar 0%Z) dm_a, calls)) /\
  (exists calls,
     CorrMixin.energy_elec toy_base_no_model (Some dm_a) (Some dm_half) None =
       Some ((CorrMixin.EScalar 1%Z, CorrMixin.EScalar 2%Z), calls)).
Proof.
  destruct (@hooks_reduce_to_base_without_model Z _ line_mol nat diag_eigensolver
              Z_scalar_laws toy_base_no_model (solver_at mol_a None) eq_refl
              (fun d => eq_refl) None (Some dm_a) (Some dm_half) None None 1%Z)
    as (_ & Hveff & Helec).
  split; [apply Hveff|apply Helec]; reflexivity.
Defined.


(** ** The layout of the projection integrals *)

Lemma div_block (b q r : nat) : r < b -> (q * b + r) / b = q.
Proof. intros H. symmetry. apply (Nat.div_unique _ b q r H). lia. Qed.

Lemma mod_block (b q r : nat) : r < b -> (q * b + r) mod b = r.
Proof. intros H. symmetry. apply (Nat.mod_unique _ b q r H). lia. Qed.

Lemma unravel_ravel_2_3 (n0 n1 n2 r a j : nat) :
  a < n1 -> j < n2 ->
  unravel [n0; n1 * n2] (ravel [n0; n1; n2] [r; a; j] 0) = [r; a * n2 + j].
Proof.
  intros Ha Hj. cbn [ravel unravel numel fold_right].
  assert (Hlt : a * n2 + j < n1 * n2 * 1) by nia.
  replace ((((0 * n0 + r) * n1 + a) * n2 + j)) with (r * (n1 * n2 * 1) + (a * n2 + j))
    by nia.
  rewrite (div_block _ Hlt), (mod_block _ Hlt), Nat.div_1_r. reflexivity.
Qed.

Lemma unravel_ravel_3_4 (n0 n1 n2 n3 x r a j : nat) :
  r < n1 -> a < n2 -> j < n3 ->
  unravel [n0; n1; n2 * n3] (ravel [n0; n1; n2; n3] [x; r; a; j] 0) =
  [x; r; a * n3 + j].
Proof.
  intros Hr Ha Hj. cbn [ravel unravel numel fold_right].
  assert (Hlt : a * n3 + j < n2 * n3 * 1) by nia.
  assert (Hlt2 : r * (n2 * n3 * 1) + (a * n3 + j) < n1 * (n2 * n3 * 1)) by nia.
  replace (((((0 * n0 + x) * n1 + r) * n2 + a) * n3 + j))
    with (x * (n1 * (n2 * n3 * 1)) + (r * (n2 * n3 * 1) + (a * n3 + j))) by nia.
  rewrite (div_block _ Hlt2), (mod_block _ Hlt2).
  rewrite (div_block _ Hlt), (mod_block _ Hlt), Nat.div_1_r. reflexivity.
Qed.

(** The [k]-th piece of a split starts where the sizes before it end. *)
Lemma split_from_nth {R} (t : tensor R) :
  forall sizes off k n,
    nth_error sizes k = Some n ->
    nth_error (split_from off sizes t) k =
    Some (mkT (removelast (shape t) ++ [n])
              (fun idx => get t (removelast idx ++
                 [off + fold_right Nat.add 0 (firstn k sizes) + last idx 0]))).
Proof.
  induction sizes as [|s sizes IH]; intros off k n Hk; destruct k as [|k];
    cbn in Hk; try discriminate.
  - injection Hk as ->. cbn. rewrite Nat.add_0_r. reflexivity.
  - cbn [split_from nth_error firstn fold_right]. rewrite (IH (off + s) k n Hk).
    do 2 f_equal. apply functional_extensionality. intros idx.
    do 3 f_equal. lia.
Qed.

Section IntegralLayout.
Context {R : Type} {RS : Scalar R} {Mole Basis : Type}.
Variable G : gto R Mole Basis.

(** X6.  For a molecule with at least one atom whose surrogate molecule
    carries [nproj] functions per atom (the overlap integrals have shape
    [nao x (natm * nproj)]) and shell sizes adding up to [nproj],
    [prepare_integrals] returns, with one overlap tensor per shell; the
    tensor of shell [k], of size [n], has shape [nao x natm x n] and its
    entry [(r, a, p)] is the integral between orbital [r] and function
    [a * nproj + (n_0 + ... + n_{k-1}) + p] of the surrogate molecule. *)
Theorem prepare_integrals_layout :
  forall (self : NetMixin.state R Mole Basis) (nproj : nat),
    let m := NetMixin.mol self in
    let pmol := gen_proj_mol G m (NetMixin._pbas self) in
    let proj := intor_cross G "int1e_ovlp" m pmol in
    natm G m <> 0 ->
    nao G pmol = natm G m * nproj ->
    shape proj = [nao G m; nao G pmol] ->
    fold_right Nat.add 0 (NetMixin._shell_sec self) = nproj ->
    exists self',
      NetMixin.prepare_integrals G self = Some self' /\
      List.length (NetMixin._t_ovlp_shells self') =
        List.length (NetMixin._shell_sec self) /\
      forall k n, nth_error (NetMixin._shell_sec self) k = Some n ->
        exists po,
          nth_error (NetMixin._t_ovlp_shells self') k = Some po /\
          shape po = [nao G m; natm G m; n] /\
          forall r a p, a < natm G m -> p < n ->
            get po [r; a; p] =
            get proj [r; a * nproj +
                         (fold_right Nat.add 0 (firstn k (NetMixin._shell_sec self)) + p)].
Proof.
  intros self nproj m pmol proj Hnatm Hpnao Hshape Hsec.
  unfold NetMixin.prepare_integrals, NetMixin.proj_ovlp, NetMixin.proj_intor.
  cbn [NetMixin.mol NetMixin._pmol NetMixin._shell_sec NetMixin._pbas
       NetMixin.is_UHF NetMixin.make_rdm1 NetMixin.net].
  fold m. fold pmol. fold proj.
  destruct (Nat.eqb_spec (natm G m) 0) as [|_]; [contradiction|].
  assert (Hdiv : nao G pmol / natm G m = nproj).
  { rewrite Hpnao, Nat.mul_comm. apply Nat.div_mul. exact Hnatm. }
  rewrite Hdiv. unfold reshape. rewrite Hshape, Hpnao.
  assert (Hnum : numel [nao G m; natm G m; nproj] = numel [nao G m; natm G m * nproj]).
  { cbn. lia. }
  rewrite Hnum, Nat.eqb_refl. cbn [obind].
  unfold split_last, ndim, last_dim. cbn [shape List.length last Nat.leb andb].
  rewrite Hsec, Nat.eqb_refl. cbn [obind].
  eexists. split; [reflexivity|].
  cbn [NetMixin._t_ovlp_shells]. split; [apply split_from_length|].
  intros k n Hk. eexists. split; [apply split_from_nth; exact Hk|].
  cbn [shape get removelast app last]. split; [reflexivity|].
  intros r a p Ha Hp.
  assert (Hoff : fold_right Nat.add 0 (firstn k (NetMixin._shell_sec self)) + p < nproj).
  { rewrite <- Hsec. rewrite <- (firstn_skipn k (NetMixin._shell_sec self)) at 2.
    clear - Hk Hp. revert k Hk.
    induction (NetMixin._shell_sec self) as [|s l IH]; intros [|k] Hk; cbn in *;
      try discriminate.
    - injection Hk as ->. lia.
    - specialize (IH k Hk). lia. }
  rewrite unravel_ravel_2_3 by assumption. reflexivity.
Qed.

End IntegralLayout.

Section IntegralLayout2.
Context {R : Type} {RS : Scalar R} {Mole Basis : Type}.
Variable G : gto R Mole Basis.

Lemma firstn_sum_lt (sizes : list nat) k n p :
  nth_error sizes k = Some n -> p < n ->
  fold_right Nat.add 0 (firstn k sizes) + p < fold_right Nat.add 0 sizes.
Proof.
  revert k. induction sizes as [|s l IH]; intros [|k] Hk Hp; cbn in *;
    try discriminate.
  - injection Hk as ->. lia.
  - specialize (IH k Hk Hp). lia.
Qed.

(** X8.  The gradient object's [prepare_integrals]: for a molecule with
    at least one atom and one orbital, derivative integrals of shape
    [3 x nao x (natm * nproj)] and shell sizes adding up to [nproj], it
    returns, takes over the solver's overlap shells as they are, and holds
    one derivative tensor per shell; the tensor of shell [k], of size [n],
    has shape [3 x nao x natm x n] and its entry [(x, r, a, p)] is the
    derivative integral [(x, r, a * nproj + (n_0 + ... + n_{k-1}) + p)]. *)
Theorem grad_prepare_integrals_layout :
  forall (mf : NetMixin.state R Mole Basis) (self : Gradients.state R Mole)
         (nproj : nat),
    let m := Gradients.mol self in
    let raw := intor_cross G "int1e_ipovlp" (NetMixin.mol mf) (NetMixin._pmol mf) in
    nao G m <> 0 ->
    natm G m <> 0 ->
    shape raw = [3; nao G m; natm G m * nproj] ->
    fold_right Nat.add 0 (NetMixin._shell_sec mf) = nproj ->
    exists self',
      Gradients.prepare_integrals G mf self = Some self' /\
      Gradients.mol self' = m /\
      Gradients._t_ovlp_shells self' = NetMixin._t_ovlp_shells mf /\
      List.length (Gradients._t_ipov_shells self') =
        List.length (NetMixin._shell_sec mf) /\
      forall k n, nth_error (NetMixin._shell_sec mf) k = Some n ->
        exists govx,
          nth_error (Gradients._t_ipov_shells self') k = Some govx /\
          shape govx = [3; nao G m; natm G m; n] /\
          forall x r a p, r < nao G m -> a < natm G m -> p < n ->
            get govx [x; r; a; p] =
            get raw [x; r; a * nproj +
                        (fold_right Nat.add 0 (firstn k (NetMixin._shell_sec mf)) + p)].
Proof.
  intros mf self nproj m raw Hnao Hnatm Hshape Hsec.
  unfold Gradients.prepare_integrals, NetMixin.proj_intor, reshape_infer.
  fold m. fold raw. rewrite Hshape.
  assert (Hk : numel [3; nao G m; natm G m] <> 0) by (cbn; nia).
  assert (Hn : numel [3; nao G m; natm G m * nproj] =
               nproj * numel [3; nao G m; natm G m]) by (cbn; nia).
  rewrite Hn, Nat.Div0.mod_mul, Nat.div_mul by exact Hk.
  destruct (Nat.eqb_spec (numel [3; nao G m; natm G m]) 0) as [|_]; [contradiction|].
  cbn [orb negb Nat.eqb app]. unfold reshape. rewrite Hshape.
  assert (Hnum : numel [3; nao G m; natm G m; nproj] =
                 numel [3; nao G m; natm G m * nproj]) by (cbn; nia).
  rewrite Hnum, Nat.eqb_refl. cbn [obind].
  unfold split_last, ndim, last_dim. cbn [shape List.length last Nat.leb andb].
  rewrite Hsec, Nat.eqb_refl. cbn [obind].
  eexists. split; [reflexivity|].
  cbn [Gradients.mol Gradients._t_ovlp_shells Gradients._t_ipov_shells].
  split; [reflexivity|]. split; [reflexivity|].
  split; [apply split_from_length|].
  intros k n Hkn. eexists. split; [apply split_from_nth; exact Hkn|].
  cbn [shape get removelast app last]. split; [reflexivity|].
  intros x r a p Hr Ha Hp.
  assert (Hoff : fold_right Nat.add 0 (firstn k (NetMixin._shell_sec mf)) + p < nproj).
  { rewrite <- Hsec. apply (firstn_sum_lt _ _ Hkn Hp). }
  rewrite unravel_ravel_3_4 by assumption. reflexivity.
Qed.

(** X7.  Given that the integral routines return, [prepare_integrals]
    raises exactly when the molecule has no atom (the integer division
    [pnao // natm]), or the integral array does not have
    [nao * natm * (pnao // natm)] elements (the reshape), or the shell
    sizes do not add up to [pnao // natm] (the split). *)
Theorem prepare_integrals_raises_iff :
  forall (self : NetMixin.state R Mole Basis),
    let m := NetMixin.mol self in
    let pmol := gen_proj_mol G m (NetMixin._pbas self) in
    let proj := intor_cross G "int1e_ovlp" m pmol in
    NetMixin.prepare_integrals G self = None <->
    (natm G m = 0 \/
     numel (shape proj) <> numel [nao G m; natm G m; nao G pmol / natm G m] \/
     fold_right Nat.add 0 (NetMixin._shell_sec self) <> nao G pmol / natm G m).
Proof.
  intros self m pmol proj.
  unfold NetMixin.prepare_integrals, NetMixin.proj_ovlp, NetMixin.proj_intor.
  cbn [NetMixin.mol NetMixin._pmol NetMixin._shell_sec NetMixin._pbas
       NetMixin.is_UHF NetMixin.make_rdm1 NetMixin.net].
  fold m. fold pmol. fold proj.
  destruct (Nat.eqb_spec (natm G m) 0) as [H0|H0].
  - split; [intros _; left; exact H0|reflexivity].
  - unfold reshape.
    destruct (Nat.eqb_spec (numel [nao G m; natm G m; nao G pmol / natm G m])
                (numel (shape proj))) as [Hn|Hn]; cbn [obind].
    + unfold split_last, ndim, last_dim. cbn [shape List.length last Nat.leb andb].
      destruct (Nat.eqb_spec (fold_right Nat.add 0 (NetMixin._shell_sec self))
                  (nao G pmol / natm G m)) as [Hs|Hs]; cbn [obind].
      * split; [discriminate|]. intros [H|[H|H]]; congruence.
      * split; [intros _; right; right; exact Hs|reflexivity].
    + split; [intros _; right; left; congruence|reflexivity].
Qed.

End IntegralLayout2.

(** Witness of X6: two atoms, shells of one and of two functions. *)
Lemma prepare_integrals_layout_witness :
  exists self',
    NetMixin.prepare_integrals line_gto solver_two_shells = Some self' /\
    List.length (NetMixin._t_ovlp_shells self') = 2 /\
    forall k n, nth_error [1; 2] k = Some n ->
      exists po,
        nth_error (NetMixin._t_ovlp_shells self') k = Some po /\
        shape po = [2; 2; n] /\
        forall r a p, a < 2 -> p < n ->
          get po [r; a; p] =
          get (line_intor "int1e_ovlp" mol_a (mkLine [0; 1]%Z 3))
              [r; a * 3 + (fold_right Nat.add 0 (firstn k [1; 2]) + p)].
Proof.
  apply (@prepare_integrals_layout Z line_mol nat line_gto solver_two_shells 3).
  - discriminate.
  - reflexivity.
  - reflexivity.
  - reflexivity.
Defined.

(** Witness of X8: the same solver and a gradient object on it. *)
Lemma grad_prepare_integrals_layout_witness :
  exists self',
    Gradients.prepare_integrals line_gto solver_two_shells
      (Gradients.mkState mol_a [] []) = Some self' /\
    Gradients.mol self' = mol_a /\
    Gradients._t_ovlp_shells self' = [] /\
    List.length (Gradients._t_ipov_shells self') = 2 /\
    forall k n, nth_error [1; 2] k = Some n ->
      exists govx,
        nth_error (Gradients._t_ipov_shells self') k = Some govx /\
        shape govx = [3; 2; 2; n] /\
        forall x r a p, r < 2 -> a < 2 -> p < n ->
          get govx [x; r; a; p] =
          get (line_intor "int1e_ipovlp" mol_a (mkLine [0; 1]%Z 3))
              [x; r; a * 3 + (fold_right Nat.add 0 (firstn k [1; 2]) + p)].
Proof.
  apply (@grad_prepare_integrals_layout Z line_mol nat line_gto solver_two_shells
           (Gradients.mkState mol_a [] []) 3).
  - discriminate.
  - discriminate.
  - reflexivity.
  - reflexivity.
Defined.


(** ** The layout of the descriptor *)

Lemma Forall2_nth_error {A B} (P : A -> B -> Prop) l l' k a :
  Forall2 P l l' -> nth_error l k = Some a ->
  exists b, nth_error l' k = Some b /\ P a b.
Proof.
  intros HF; revert k. induction HF as [|x y l l' HP HF IH]; intros [|k] Hk;
    cbn in Hk; try discriminate.
  - injection Hk as ->. exists y. split; [reflexivity|exact HP].
  - apply IH. exact Hk.
Qed.

Lemma cat_get_nth {R} {RS : Scalar R} (ts : list (tensor R)) (pre : list nat) :
  forall k e j,
    nth_error ts k = Some e -> j < last_dim e ->
    cat_get ts pre (fold_right Nat.add 0 (map last_dim (firstn k ts)) + j) =
    get e (pre ++ [j]).
Proof.
  induction ts as [|t ts IH]; intros [|k] e j Hk Hj; cbn in Hk; try discriminate.
  - injection Hk as ->. cbn [firstn map fold_right cat_get Nat.add].
    destruct (Nat.ltb_spec j (last_dim e)); [reflexivity|lia].
  - cbn [firstn map fold_right cat_get].
    destruct (Nat.ltb_spec (last_dim t + fold_right Nat.add 0 (map last_dim (firstn k ts)) + j)
                (last_dim t)); [lia|].
    replace (last_dim t + fold_right Nat.add 0 (map last_dim (firstn k ts)) + j - last_dim t)
      with (fold_right Nat.add 0 (map last_dim (firstn k ts)) + j) by lia.
    apply IH; assumption.
Qed.

Section DescriptorLayout.
Context {R : Type} {RS : Scalar R}.
Variable E : eigensolver R.

(** X9.  The layout of the descriptor: for a single density matrix and
    at least one shell, with an eigensolver that returns [natm x n]
    eigenvalues for [natm x n x n] matrices, [t_make_eig] returns a tensor
    of shape [natm x nproj], [nproj] the sum of the shell sizes, whose
    column [n_0 + ... + n_{k-1} + j] holds, for every atom, the [j]-th
    eigenvalue of the projected density of shell [k]. *)
Theorem t_make_eig_layout :
  forall (dm : tensor R) (ovlp_shells : list (tensor R)) (nao na : nat),
    (forall t n, shape t = [na; n; n] ->
       exists e, symeig E t = Some e /\ shape e = [na; n]) ->
    shape dm = [nao; nao] ->
    Forall (fun po => shape po = [nao; na; last_dim po]) ovlp_shells ->
    ovlp_shells <> [] ->
    exists pdm_shells ceig,
      t_make_pdm dm ovlp_shells = Some pdm_shells /\
      t_make_eig E dm ovlp_shells = Some ceig /\
      shape ceig = [na; fold_right Nat.add 0 (map last_dim ovlp_shells)] /\
      forall k po, nth_error ovlp_shells k = Some po ->
        exists pdm e,
          nth_error pdm_shells k = Some pdm /\
          t_shell_eig E pdm = Some e /\
          forall a j, j < last_dim po ->
            get ceig [a; fold_right Nat.add 0 (map last_dim (firstn k ovlp_shells)) + j]
            = get e [a; j].
Proof.
  intros dm ovlp_shells nao na Heig Hdm Hov Hne.
  destruct (@t_make_eig_returns R RS E dm ovlp_shells nao na Heig Hdm Hov Hne)
    as (pdm_shells & eig_shells & ceig & Hpdm & Hmap & Hcat & Hc & HF1 & HF3 & Hlast & Hs).
  exists pdm_shells, ceig. split; [exact Hpdm|]. split; [exact Hc|]. split; [exact Hs|].
  intros k po Hk.
  destruct (Forall2_nth_error k HF1 Hk) as [pdm [Hkp _]].
  destruct (Forall2_nth_error k (mapM_Some_Forall2 _ _ Hmap) Hkp) as [e [Hke He]].
  destruct (Forall2_nth_error k HF3 Hk) as [e' [Hke' Hse]].
  rewrite Hke in Hke'. injection Hke' as <-.
  exists pdm, e. split; [exact Hkp|]. split; [exact He|].
  intros a j Hj.
  unfold cat_last in Hcat. destruct eig_shells as [|e0 rest]; [discriminate|].
  destruct (forallb _ (e0 :: rest)); [|discriminate].
  injection Hcat as <-. cbn [get removelast last].
  rewrite <- firstn_map, <- Hlast, firstn_map.
  apply (cat_get_nth (e0 :: rest) [a] k Hke).
  unfold last_dim. rewrite Hse. exact Hj.
Qed.

End DescriptorLayout.

(** Witness of X9: two shells of one function each. *)
Lemma t_make_eig_layout_witness :
  exists pdm_shells ceig,
    t_make_pdm dm_a [ovlp_s; ovlp_s] = Some pdm_shells /\
    t_make_eig diag_eigensolver dm_a [ovlp_s; ovlp_s] = Some ceig /\
    shape ceig = [2; 2] /\
    forall k po, nth_error [ovlp_s; ovlp_s] k = Some po ->
      exists pdm e,
        nth_error pdm_shells k = Some pdm /\
        t_shell_eig diag_eigensolver pdm = Some e /\
        forall a j, j < last_dim po ->
          get ceig [a; fold_right Nat.add 0 (map last_dim (firstn k [ovlp_s; ovlp_s])) + j]
          = get e [a; j].
Proof.
  apply (@t_make_eig_layout Z _ diag_eigensolver dm_a [ovlp_s; ovlp_s] 2 2).
  - intros t n Hs. apply (diag_symeig_shape t [2] n Hs).
  - reflexivity.
  - repeat constructor.
  - discriminate.
Defined.

(** ** The force as a chain rule *)

Section ForceEinsums.
Context {R : Type} {RS : Scalar R}.

Lemma einsum_xrap_apq (g e o : tensor R) nx nr ns na np nq :
  shape g = [nx; nr; na; np] -> shape e = [na; np; nq] -> shape o = [ns; na; nq] ->
  exists t, einsum "xrap,apq,saq->xrs" [g; e; o] = Some t /\
    shape t = [nx; nr; ns] /\
    forall x r s, get t [x; r; s] =
      rsum na (fun a => rsum np (fun p => rsum nq (fun q =>
        smul (smul (get g [x; r; a; p]) (get e [a; p; q])) (get o [s; a; q])))).
Proof.
  intros Hg He Ho. einsum_eval. rewrite Hg, He, Ho.
  cbn. rewrite !Nat.eqb_refl. cbn.
  eexists. split; [reflexivity|]. split; [reflexivity|].
  intros x r s. cbn. reflexivity.
Qed.

Lemma einsum_xpq (a b : tensor R) nx np nq :
  shape a = [nx; np; nq] -> shape b = [np; nq] ->
  exists t, einsum "xpq,pq->x" [a; b] = Some t /\
    shape t = [nx] /\
    forall x, get t [x] =
      rsum np (fun p => rsum nq (fun q => smul (get a [x; p; q]) (get b [p; q]))).
Proof.
  intros Ha Hb. einsum_eval. rewrite Ha, Hb.
  cbn. rewrite !Nat.eqb_refl. cbn.
  eexists. split; [reflexivity|]. split; [reflexivity|].
  intros x. cbn. reflexivity.
Qed.

Lemma einsum_xrs (a b : tensor R) nx nr ns :
  shape a = [nx; nr; ns] -> shape b = [nr; ns] ->
  exists t, einsum "xrs,rs->x" [a; b] = Some t /\
    shape t = [nx] /\
    forall x, get t [x] =
      rsum nr (fun r => rsum ns (fun s => smul (get a [x; r; s]) (get b [r; s]))).
Proof.
  intros Ha Hb. einsum_eval. rewrite Ha, Hb.
  cbn. rewrite !Nat.eqb_refl. cbn.
  eexists. split; [reflexivity|]. split; [reflexivity|].
  intros x. cbn. reflexivity.
Qed.

End ForceEinsums.


Section ForceLoops.
Context {R : Type} {RS : Scalar R} {Mole Basis : Type}.
Variable G : gto R Mole Basis.
Variables (mol : Mole) (dm ginner gouter gedm : tensor R) (nao na ss : nat).
Hypothesis Hdm : shape dm = [nao; nao].
Hypothesis Hgi : shape ginner = [3; na; ss; ss].
Hypothesis Hgo : shape gouter = [3; nao; nao].
Hypothesis Hge : shape gedm = [na; ss; ss].

(** The loop over [enumerate(atmlst)]: row [k + i] receives the two
    terms of the [i]-th listed atom, the other rows are left alone. *)
Lemma grad_corr_atoms_entries (ias : list nat) :
  Forall (fun ia => ia < natm G mol) ias ->
  forall (k : nat) (dec : tensor R),
  exists dec', grad_corr_atoms G mol dm ginner gouter gedm dec k ias = Some dec' /\
    shape dec' = shape dec /\
    forall j x,
      get dec' [j; x] =
      match (if k <=? j then nth_error ias (j - k) else None) with
      | Some ia => sadd (sadd (get dec [j; x]) (force_inner ginner gedm ss ia x))
                        (force_outer gouter dm nao (aoslice_by_atom G mol ia) x)
      | None => get dec [j; x]
      end.
Proof.
  induction 1 as [|ia ias Hia HF IH]; intros k dec.
  - exists dec. split; [reflexivity|]. split; [reflexivity|].
    intros j x. destruct (k <=? j); [destruct (j - k)|]; reflexivity.
  - cbn [grad_corr_atoms].
    destruct (Nat.ltb_spec ia (natm G mol)) as [_|]; [|lia].
    destruct (aoslice_by_atom G mol ia) as [bg ed] eqn:Hsl.
    destruct (@einsum_xpq R RS (select1 ia ginner) (select0 ia gedm) 3 ss ss)
      as [a [Ha [_ Hea]]].
    { unfold select1. cbn [shape]. rewrite Hgi. reflexivity. }
    { unfold select0. cbn [shape]. rewrite Hge. reflexivity. }
    destruct (@einsum_xrs R RS (slice1 bg ed gouter) (slice0 bg ed dm)
                3 (slice_len nao bg ed) nao) as [b [Hb [_ Heb]]].
    { unfold slice1. cbn [shape]. rewrite Hgo. reflexivity. }
    { unfold slice0. cbn [shape]. rewrite Hdm. reflexivity. }
    rewrite Ha. cbn [obind]. rewrite Hb. cbn [obind].
    destruct (IH (S k) (iadd_row k (iadd_row k dec a) b)) as [dec' [Hd [Hs He]]].
    exists dec'. split; [exact Hd|]. split; [exact Hs|].
    intros j x. rewrite He. cbn [iadd_row get].
    destruct (Nat.leb_spec (S k) j) as [Hlt|Hge'].
    + destruct (Nat.leb_spec k j) as [_|]; [|lia].
      destruct (Nat.eqb_spec j k) as [|_]; [lia|].
      replace (j - k) with (S (j - S k)) by lia. reflexivity.
    + destruct (Nat.eqb_spec j k) as [->|Hne].
      * rewrite Nat.leb_refl, Nat.sub_diag. cbn [nth_error].
        rewrite Hea, Heb, Hsl. unfold force_inner, force_outer.
        cbn [select1 select0 slice1 slice0 get fst snd]. reflexivity.
      * destruct (Nat.leb_spec k j) as [|_]; [lia|]. reflexivity.
Qed.

(** An atom the molecule does not have stops the loop with an error. *)
Lemma grad_corr_atoms_raises (ias : list nat) :
  Exists (fun ia => natm G mol <= ia) ias ->
  forall (k : nat) (dec : tensor R),
    grad_corr_atoms G mol dm ginner gouter gedm dec k ias = None.
Proof.
  intros Hex. induction ias as [|ia ias IH]; intros k dec.
  - inversion Hex.
  - cbn [grad_corr_atoms].
    destruct (Nat.ltb_spec ia (natm G mol)) as [Hlt|Hge']; [|reflexivity].
    destruct (aoslice_by_atom G mol ia) as [bg ed].
    destruct (einsum _ _) as [a|]; cbn [obind]; [|reflexivity].
    destruct (einsum _ _) as [b|]; cbn [obind]; [|reflexivity].
    apply IH. inversion Hex; subst; [lia|assumption].
Qed.

End ForceLoops.


Section ForceShells.
Context {R : Type} {RS : Scalar R} {Mole Basis : Type}.
Variable G : gto R Mole Basis.
Variables (mol : Mole) (dm : tensor R) (nao : nat) (atmlst : list nat).
Hypothesis Hdm : shape dm = [nao; nao].
Hypothesis Hatm : Forall (fun ia => ia < natm G mol) atmlst.

Lemma grad_corr_shells_entries :
  forall (gedm_shells ipov_shells ovlp_shells : list (tensor R)) (dec : tensor R),
    Forall (fun '(gedm, (govx, ovlp)) =>
              shape ovlp = [nao; natm G mol; last_dim ovlp] /\
              shape govx = [3; nao; natm G mol; last_dim ovlp] /\
              shape gedm = [natm G mol; last_dim ovlp; last_dim ovlp])
           (combine gedm_shells (combine ipov_shells ovlp_shells)) ->
    exists dec',
      grad_corr_shells G mol dm gedm_shells ipov_shells ovlp_shells atmlst dec
        = Some dec' /\
      shape dec' = shape dec /\
      forall k ia x, nth_error atmlst k = Some ia ->
        get dec' [k; x] =
        fold_left (shell_force_step dm nao (natm G mol) (aoslice_by_atom G mol ia) ia x)
                  (combine gedm_shells (combine ipov_shells ovlp_shells))
                  (get dec [k; x]).
Proof.
  induction gedm_shells as [|gedm gs IH]; intros ipov_shells ovlp_shells dec HF.
  { exists dec. repeat split. }
  destruct ipov_shells as [|govx ips].
  { exists dec. repeat split. }
  destruct ovlp_shells as [|ovlp ovs].
  { exists dec. repeat split. }
  cbn [combine] in HF. inversion HF as [|? ? Hhd HF']; subst.
  cbn beta iota in Hhd. destruct Hhd as (Hov & Hgo & Hge).
  cbn [grad_corr_shells].
  destruct (@einsum_xrap R RS govx dm ovlp 3 nao nao (natm G mol) (last_dim ovlp)
              (last_dim ovlp) Hgo Hdm Hov) as [gi [Hgi [Hsgi Hegi]]].
  destruct (@einsum_xrap_apq R RS govx gedm ovlp 3 nao nao (natm G mol) (last_dim ovlp)
              (last_dim ovlp) Hgo Hge Hov) as [go [Hgo' [Hsgo Hego]]].
  rewrite Hgi. cbn [obind]. rewrite Hgo'. cbn [obind].
  destruct (@grad_corr_atoms_entries R RS Mole Basis G mol dm (tscale gi two)
              (tscale (tneg go) two) gedm nao (natm G mol) (last_dim ovlp)
              Hdm Hsgi Hsgo Hge atmlst Hatm 0 dec) as [dec1 [Hd1 [Hs1 He1]]].
  rewrite Hd1. cbn [obind].
  destruct (IH ips ovs dec1 HF') as [dec' [Hd' [Hs' He']]].
  exists dec'. split; [exact Hd'|]. split; [congruence|].
  intros k ia x Hk. rewrite (He' k ia x Hk). cbn [combine fold_left].
  f_equal. rewrite He1. cbn [Nat.leb]. rewrite Nat.sub_0_r, Hk.
  unfold shell_force_step, force_inner, force_outer, projector_force, orbital_force.
  f_equal; [f_equal|].
  - apply rsum_ext; intros p _. apply rsum_ext; intros q _.
    cbn [tscale get]. rewrite Hegi. reflexivity.
  - apply rsum_ext; intros i _. apply rsum_ext; intros s _.
    cbn [tscale tneg get]. rewrite Hego. reflexivity.
Qed.

Lemma grad_corr_shells_raises :
  Exists (fun ia => natm G mol <= ia) atmlst ->
  forall (gedm govx ovlp : tensor R) (gs ips ovs : list (tensor R)) (dec : tensor R),
    grad_corr_shells G mol dm (gedm :: gs) (govx :: ips) (ovlp :: ovs) atmlst dec = None.
Proof.
  intros Hex gedm govx ovlp gs ips ovs dec. cbn [grad_corr_shells].
  destruct (einsum _ _) as [gi|]; cbn [obind]; [|reflexivity].
  destruct (einsum _ _) as [go|]; cbn [obind]; [|reflexivity].
  rewrite (grad_corr_atoms_raises G mol dm _ _ gedm Hex). reflexivity.
Qed.

End ForceShells.

Section ForceAlgebra.
Context {R : Type} {RS : Scalar R}.
Hypothesis laws : scalar_laws R.
Add Ring scalar_ring_force : (laws : ring_theory s0 s1 sadd smul ssub sopp (@eq R)).

(** An additive map commutes with a sum. *)
Lemma rsum_additive (g : R -> R) n (f : nat -> R) :
  g s0 = s0 -> (forall x y, g (sadd x y) = sadd (g x) (g y)) ->
  g (rsum n f) = rsum n (fun i => g (f i)).
Proof.
  intros H0 Hadd. unfold rsum. induction (seq 0 n) as [|x l IH]; simpl.
  - exact H0.
  - rewrite Hadd, IH. reflexivity.
Qed.

Lemma rsum_opp n (f : nat -> R) :
  rsum n (fun i => sopp (f i)) = sopp (rsum n f).
Proof.
  symmetry. apply (rsum_additive sopp); intros; ring.
Qed.

(** A sum against the indicator of [ia] picks the term of [ia]. *)
Lemma rsum_delta n ia (f : nat -> R) :
  ia < n ->
  rsum n (fun a => if a =? ia then f a else s0) = f ia.
Proof.
  intros Hia. unfold rsum.
  assert (H : forall l, NoDup l ->
    fold_right (fun a acc => sadd (if a =? ia then f a else s0) acc) s0 l =
    if existsb (Nat.eqb ia) l then f ia else s0).
  { induction 1 as [|a l Hnin Hnd IH]; simpl; [reflexivity|].
    rewrite IH. destruct (Nat.eqb_spec a ia) as [->|Hne].
    - rewrite Nat.eqb_refl. simpl.
      assert (Hex : existsb (Nat.eqb ia) l = false).
      { apply not_true_is_false. intros Hex. apply existsb_exists in Hex.
        destruct Hex as [y [Hy Heq]]. apply Nat.eqb_eq in Heq. subst y.
        contradiction. }
      rewrite Hex. ring.
    - destruct (Nat.eqb_spec ia a) as [|_]; [congruence|]. simpl. ring. }
  rewrite (H _ (seq_NoDup n 0)), existsb_seq.
  destruct (Nat.ltb_spec ia n); [reflexivity|lia].
Qed.

(** The innermost of three sums moved to the front. *)
Lemma rsum_rot3 n m k (f : nat -> nat -> nat -> R) :
  rsum n (fun i => rsum m (fun s => rsum k (fun a => f i s a))) =
  rsum k (fun a => rsum n (fun i => rsum m (fun s => f i s a))).
Proof.
  transitivity (rsum n (fun i => rsum k (fun a => rsum m (fun s => f i s a)))).
  - apply rsum_ext; intros i _. apply (rsum_swap laws).
  - apply (rsum_swap laws).
Qed.

Lemma two_times (x : R) : sadd x x = smul two x.
Proof. unfold two. ring. Qed.

Variables (gedm govx dm ovlp : tensor R) (nao na ss bg ed ia x : nat).
Hypothesis Hia : ia < na.
Hypothesis Hsym : forall a p q, get gedm [a; p; q] = get gedm [a; q; p].

Lemma projector_force_eq :
  projector_force gedm govx dm ovlp nao ss ia x =
  smul two (rsum ss (fun p => rsum ss (fun q =>
    smul (get gedm [ia; p; q]) (projector_term govx dm ovlp nao x ia p q)))).
Proof.
  unfold projector_force. rewrite <- (rsum_scale_l laws).
  apply rsum_ext; intros p _. rewrite <- (rsum_scale_l laws).
  apply rsum_ext; intros q _. ring.
Qed.

Lemma orbital_force_eq :
  orbital_force gedm govx dm ovlp nao na ss (bg, ed) x =
  sopp (smul two (rsum na (fun a => rsum ss (fun p => rsum ss (fun q =>
    smul (get gedm [a; p; q]) (orbital_term govx dm ovlp nao bg ed x a p q)))))).
Proof.
  unfold orbital_force, orbital_term. cbn [fst snd].
  set (K := fun i s a p q =>
    sopp (smul two (smul (get gedm [a; p; q])
      (smul (smul (get govx [x; bg + i; a; p]) (get dm [bg + i; s]))
            (get ovlp [s; a; q]))))).
  transitivity (rsum (slice_len nao bg ed) (fun i => rsum nao (fun s =>
    rsum na (fun a => rsum ss (fun p => rsum ss (fun q => K i s a p q)))))).
  { apply rsum_ext; intros i _. apply rsum_ext; intros s _.
    etransitivity.
    { apply (rsum_additive (fun y => smul (smul (sopp y) two) (get dm [bg + i; s])));
        intros; ring. }
    apply rsum_ext; intros a _. etransitivity.
    { apply (rsum_additive (fun y => smul (smul (sopp y) two) (get dm [bg + i; s])));
        intros; ring. }
    apply rsum_ext; intros p _. etransitivity.
    { apply (rsum_additive (fun y => smul (smul (sopp y) two) (get dm [bg + i; s])));
        intros; ring. }
    apply rsum_ext; intros q _. unfold K. ring. }
  transitivity (rsum na (fun a => rsum ss (fun p => rsum ss (fun q =>
    rsum (slice_len nao bg ed) (fun i => rsum nao (fun s => K i s a p q)))))).
  { rewrite rsum_rot3. apply rsum_ext; intros a _.
    rewrite rsum_rot3. apply rsum_ext; intros p _.
    apply rsum_rot3. }
  symmetry. etransitivity.
  { apply (rsum_additive (fun y => sopp (smul two y))); intros; ring. }
  apply rsum_ext; intros a _. etransitivity.
  { apply (rsum_additive (fun y => sopp (smul two y))); intros; ring. }
  apply rsum_ext; intros p _. etransitivity.
  { apply (rsum_additive (fun y => sopp (smul two y))); intros; ring. }
  apply rsum_ext; intros q _. etransitivity.
  { apply (rsum_additive (fun y => sopp (smul two (smul (get gedm [a; p; q]) y))));
      intros; ring. }
  apply rsum_ext; intros i _. etransitivity.
  { apply (rsum_additive (fun y => sopp (smul two (smul (get gedm [a; p; q]) y))));
      intros; ring. }
  apply rsum_ext; intros s _. unfold K. reflexivity.
Qed.

Lemma chain_rule_eq :
  rsum na (fun a => rsum ss (fun p => rsum ss (fun q =>
    smul (get gedm [a; p; q])
         (sadd (moving_atom_term govx dm ovlp nao (bg, ed) ia x a p q)
               (moving_atom_term govx dm ovlp nao (bg, ed) ia x a q p))))) =
  sadd (smul two (rsum ss (fun p => rsum ss (fun q =>
          smul (get gedm [ia; p; q]) (projector_term govx dm ovlp nao x ia p q)))))
       (sopp (smul two (rsum na (fun a => rsum ss (fun p => rsum ss (fun q =>
          smul (get gedm [a; p; q]) (orbital_term govx dm ovlp nao bg ed x a p q))))))).
Proof.
  set (M := fun a p q => moving_atom_term govx dm ovlp nao (bg, ed) ia x a p q).
  set (Pr := fun a => rsum ss (fun p => rsum ss (fun q =>
          smul (get gedm [a; p; q]) (projector_term govx dm ovlp nao x a p q)))).
  set (Or := fun a => rsum ss (fun p => rsum ss (fun q =>
          smul (get gedm [a; p; q]) (orbital_term govx dm ovlp nao bg ed x a p q)))).
  (* the two halves of the symmetrization agree *)
  assert (H1 : forall a,
    rsum ss (fun p => rsum ss (fun q =>
      smul (get gedm [a; p; q]) (sadd (M a p q) (M a q p)))) =
    smul two (rsum ss (fun p => rsum ss (fun q => smul (get gedm [a; p; q]) (M a p q))))).
  { intros a. rewrite <- two_times. rewrite <- (rsum_add laws).
    transitivity (rsum ss (fun p => sadd
      (rsum ss (fun q => smul (get gedm [a; p; q]) (M a p q)))
      (rsum ss (fun q => smul (get gedm [a; p; q]) (M a q p))))).
    { apply rsum_ext; intros p _. rewrite <- (rsum_add laws).
      apply rsum_ext; intros q _. ring. }
    rewrite !(rsum_add laws). f_equal.
    rewrite (rsum_swap laws). apply rsum_ext; intros q _.
    apply rsum_ext; intros p _. rewrite (Hsym a p q). reflexivity. }
  (* the term of one projection atom *)
  assert (H2 : forall a,
    rsum ss (fun p => rsum ss (fun q => smul (get gedm [a; p; q]) (M a p q))) =
    sadd (if a =? ia then Pr a else s0) (sopp (Or a))).
  { intros a. unfold Pr, Or. rewrite <- !(rsum_opp).
    destruct (Nat.eqb_spec a ia) as [->|Hne].
    - rewrite <- (rsum_add laws). apply rsum_ext; intros p _.
      rewrite <- (rsum_opp), <- (rsum_add laws). apply rsum_ext; intros q _.
      unfold M, moving_atom_term. cbn [fst snd]. rewrite Nat.eqb_refl. ring.
    - transitivity (rsum ss (fun p => sopp (rsum ss (fun q =>
        smul (get gedm [a; p; q]) (orbital_term govx dm ovlp nao bg ed x a p q))))).
      + apply rsum_ext; intros p _. rewrite <- (rsum_opp).
        apply rsum_ext; intros q _.
        unfold M, moving_atom_term. cbn [fst snd].
        destruct (Nat.eqb_spec a ia); [contradiction|]. ring.
      + ring. }
  transitivity (rsum na (fun a =>
    smul two (sadd (if a =? ia then Pr a else s0) (sopp (Or a))))).
  { apply rsum_ext; intros a _. rewrite H1, H2. reflexivity. }
  rewrite (rsum_scale_l laws), (rsum_add laws), (rsum_delta _ Hia), rsum_opp.
  unfold Pr, Or. ring.
Qed.

(** The two terms of one shell add up to the contraction of the energy
    gradient with the symmetrized jacobian entry. *)
Lemma shell_force_chain_rule :
  sadd (projector_force gedm govx dm ovlp nao ss ia x)
       (orbital_force gedm govx dm ovlp nao na ss (bg, ed) x) =
  rsum na (fun a => rsum ss (fun p => rsum ss (fun q =>
    smul (get gedm [a; p; q])
         (sadd (moving_atom_term govx dm ovlp nao (bg, ed) ia x a p q)
               (moving_atom_term govx dm ovlp nao (bg, ed) ia x a q p))))).
Proof.
  rewrite projector_force_eq, orbital_force_eq, chain_rule_eq. reflexivity.
Qed.

End ForceAlgebra.




Section EnergyGradient.
Context {R : Type} {RS : Scalar R}.
Variable E : eigensolver R.

(** What [t_make_grad_e_pdm] returns has the shapes of the projected
    densities, when the eigensolver's rule keeps the shape of its input. *)
Lemma t_make_grad_e_pdm_shapes (m : model R) (dm : tensor R)
    (ovlp_shells gedm_shells : list (tensor R)) (nao na : nat) :
  (forall pdm ge, shape (symeig_vjp E pdm ge) = shape pdm) ->
  shape dm = [nao; nao] ->
  Forall (fun po => shape po = [nao; na; last_dim po]) ovlp_shells ->
  t_make_grad_e_pdm E m dm ovlp_shells = Some gedm_shells ->
  ovlp_shells <> [] /\
  Forall2 (fun po g => shape g = [na; last_dim po; last_dim po]) ovlp_shells gedm_shells.
Proof.
  intros Hvs Hdm Hov Hg.
  destruct (@t_make_pdm_entries R RS dm ovlp_shells nao na [] Hdm Hov)
    as [pdm_shells [Hpdm HF]].
  unfold t_make_grad_e_pdm in Hg.
  rewrite (mapM_ext _ (fun po => einsum "rap,...rs,saq->...apq" [po; dm; po])) in Hg
    by (intros po; apply einsum_pdm_plain; unfold ndim; rewrite Hdm; reflexivity).
  change (mapM _ ovlp_shells) with (t_make_pdm dm ovlp_shells) in Hg.
  rewrite Hpdm in Hg. cbn [obind] in Hg.
  destruct (mapM (symeig E) pdm_shells) as [eig_shells|] eqn:Heig;
    cbn [obind] in Hg; [|discriminate].
  destruct (cat_last eig_shells) as [c|] eqn:Hcat; cbn [obind] in Hg; [|discriminate].
  destruct (next_parameters m) as [_dref|]; cbn [obind] in Hg; [|discriminate].
  destruct (nelement _ =? 1); [|discriminate].
  unfold split_last in Hg.
  destruct ((1 <=? ndim _) && _); cbn [obind] in Hg; [|discriminate].
  injection Hg as <-. split.
  - intros ->. cbn in Hpdm. injection Hpdm as <-. cbn in Heig.
    injection Heig as <-. discriminate.
  - eapply Forall2_map_combine; [exact HF| |].
    + rewrite split_from_length, length_map. apply (mapM_length _ _ Heig).
    + intros po pdm gk [Hs _]. cbv beta. rewrite Hvs. exact Hs.
Qed.

(** It returns, with symmetric matrices, when the eigensolver's rule
    returns symmetric matrices and the model returns a single energy. *)
Lemma t_make_grad_e_pdm_returns (m : model R) (dm : tensor R)
    (ovlp_shells : list (tensor R)) (nao na : nat) :
  parameters m <> None ->
  (forall t n, shape t = [na; n; n] ->
     exists e, symeig E t = Some e /\ shape e = [na; n]) ->
  (forall pdm ge, shape (symeig_vjp E pdm ge) = shape pdm) ->
  (forall pdm ge a p q,
     get (symeig_vjp E pdm ge) [a; p; q] = get (symeig_vjp E pdm ge) [a; q; p]) ->
  (forall c ge, shape (backward m c ge) = shape c) ->
  (forall c, nelement (forward m c) = 1) ->
  shape dm = [nao; nao] ->
  Forall (fun po => shape po = [nao; na; last_dim po]) ovlp_shells ->
  ovlp_shells <> [] ->
  exists gedm_shells,
    t_make_grad_e_pdm E m dm ovlp_shells = Some gedm_shells /\
    Forall2 (fun po g =>
               shape g = [na; last_dim po; last_dim po] /\
               forall a p q, get g [a; p; q] = get g [a; q; p])
            ovlp_shells gedm_shells.
Proof.
  intros Hmod Heig Hvs Hvsym Hback Hone Hdm Hov Hne.
  destruct (@t_make_eig_returns R RS E dm ovlp_shells nao na Heig Hdm Hov Hne)
    as (pdm_shells & eig_shells & ceig & Hpdm & Hmap & Hcat & _ & HF1 & HF3 & Hlast & Hsc).
  unfold t_make_grad_e_pdm, next_parameters, to_ref.
  destruct (parameters m) as [[_dref _rest]|]; [clear Hmod|contradiction].
  rewrite (mapM_ext _ (fun po => einsum "rap,...rs,saq->...apq" [po; dm; po]))
    by (intros po; apply einsum_pdm_plain; unfold ndim; rewrite Hdm; reflexivity).
  change (mapM _ ovlp_shells) with (t_make_pdm dm ovlp_shells).
  rewrite Hpdm. cbn [obind].
  change (mapM (symeig E) pdm_shells) with (mapM (t_shell_eig E) pdm_shells).
  rewrite Hmap. cbn [obind]. rewrite Hcat. cbn [obind]. rewrite Hone. cbn [Nat.eqb].
  unfold split_last, ndim, last_dim at 2. cbn [squeeze0 shape].
  rewrite Hback. cbn [unsqueeze0 shape tl]. rewrite Hlast, Hsc.
  cbn [List.length last Nat.leb andb]. rewrite Nat.eqb_refl. cbn [obind].
  eexists. split; [reflexivity|].
  eapply Forall2_map_combine; [exact HF1| |].
  - rewrite split_from_length, length_map. apply (Forall2_length_eq HF1).
  - intros po pdm gk Hs. cbv beta. split; [rewrite Hvs; exact Hs|apply Hvsym].
Qed.

(** It raises for a callable that is not a module, whatever the
    arguments. *)
Lemma t_make_grad_e_pdm_not_module (m : model R) (dm : tensor R)
    (ovlp_shells : list (tensor R)) :
  parameters m = None ->
  t_make_grad_e_pdm E m dm ovlp_shells = None.
Proof.
  intros Hmod. unfold t_make_grad_e_pdm, next_parameters. rewrite Hmod.
  destruct (mapM _ ovlp_shells) as [pdm_shells|]; cbn [obind]; [|reflexivity].
  destruct (mapM (symeig E) pdm_shells) as [eig_shells|]; cbn [obind]; [|reflexivity].
  destruct (cat_last eig_shells); reflexivity.
Qed.

End EnergyGradient.


Section ForceTheorems.
Context {R : Type} {RS : Scalar R} {Mole Basis : Type}.
Variable G : gto R Mole Basis.
Variable E : eigensolver R.

(** The entries of the jacobian for the atoms of the molecule. *)
Lemma t_make_grad_pdm_x_entries (laws : scalar_laws R) (mol : Mole) (dm : tensor R)
    (ovlp_shells ipov_shells : list (tensor R)) (nao : nat) :
  shape dm = [nao; nao] ->
  Forall2 (fun ovlp govx =>
             shape ovlp = [nao; natm G mol; last_dim ovlp] /\
             shape govx = [3; nao; natm G mol; last_dim ovlp])
          ovlp_shells ipov_shells ->
  exists gdmx_shells,
    t_make_grad_pdm_x G mol dm ovlp_shells ipov_shells = Some gdmx_shells /\
    Forall2 (fun '(ovlp, govx) gdmx =>
               forall ia x a p q, ia < natm G mol ->
                 get gdmx [ia; x; a; p; q] =
                   sadd (moving_atom_term govx dm ovlp nao
                           (aoslice_by_atom G mol ia) ia x a p q)
                        (moving_atom_term govx dm ovlp nao
                           (aoslice_by_atom G mol ia) ia x a q p))
            (combine ovlp_shells ipov_shells) gdmx_shells.
Proof.
  intros Hdm HF. unfold t_make_grad_pdm_x.
  induction HF as [|ovlp govx ovs ips [Hov Hgo] HF IH].
  - exists []. split; [reflexivity|constructor].
  - destruct IH as [rest [Hrest HFr]].
    destruct (@grad_pdm_x_shell_entries R RS Mole Basis G laws mol dm govx ovlp nao
                (last_dim ovlp) Hdm Hov Hgo) as [g [Hg [Hsg Heg]]].
    exists (g :: rest). cbn [map grad_pdm_x_shells].
    rewrite Hg. cbn [obind]. rewrite Hrest. cbn [obind].
    split; [reflexivity|]. cbn [combine]. constructor; [|exact HFr].
    intros ia x a p q Hia. apply (Heg ia x a p q Hia).
Qed.

(** The shells zipped as the loop of [t_grad_corr] sees them. *)
Lemma zipped_shell_shapes (mol : Mole) (nao : nat)
    (ovlp_shells ipov_shells gedm_shells : list (tensor R)) :
  Forall2 (fun ovlp govx =>
             shape ovlp = [nao; natm G mol; last_dim ovlp] /\
             shape govx = [3; nao; natm G mol; last_dim ovlp])
          ovlp_shells ipov_shells ->
  Forall2 (fun po g => shape g = [natm G mol; last_dim po; last_dim po])
          ovlp_shells gedm_shells ->
  Forall (fun '(gedm, (govx, ovlp)) =>
            shape ovlp = [nao; natm G mol; last_dim ovlp] /\
            shape govx = [3; nao; natm G mol; last_dim ovlp] /\
            shape gedm = [natm G mol; last_dim ovlp; last_dim ovlp])
         (combine gedm_shells (combine ipov_shells ovlp_shells)).
Proof.
  intros HF; revert gedm_shells.
  induction HF as [|ovlp govx ovs ips [Hov Hgo] HF IH]; intros gedm_shells HG;
    inversion HG; subst; cbn [combine]; constructor; auto.
Qed.

(** The accumulated force is the sum over shells of the contractions of
    the energy gradient with the jacobian. *)
Lemma force_fold_chain (laws : scalar_laws R) (mol : Mole) (dm : tensor R)
    (nao ia x : nat) :
  ia < natm G mol ->
  forall (ovlp_shells ipov_shells gedm_shells gdmx_shells : list (tensor R)) (acc : R),
    Forall2 (fun po g =>
               shape g = [natm G mol; last_dim po; last_dim po] /\
               forall a p q, get g [a; p; q] = get g [a; q; p])
            ovlp_shells gedm_shells ->
    Forall2 (fun '(ovlp, govx) gdmx =>
               forall ia x a p q, ia < natm G mol ->
                 get gdmx [ia; x; a; p; q] =
                   sadd (moving_atom_term govx dm ovlp nao
                           (aoslice_by_atom G mol ia) ia x a p q)
                        (moving_atom_term govx dm ovlp nao
                           (aoslice_by_atom G mol ia) ia x a q p))
            (combine ovlp_shells ipov_shells) gdmx_shells ->
    List.length ipov_shells = List.length ovlp_shells ->
    fold_left (shell_force_step dm nao (natm G mol) (aoslice_by_atom G mol ia) ia x)
              (combine gedm_shells (combine ipov_shells ovlp_shells)) acc =
    sadd acc
         (fold_right sadd s0
            (map (fun '(gedm, gdmx) => total (tmul gedm (select0 x (select0 ia gdmx))))
                 (combine gedm_shells gdmx_shells))).
Proof.
  intros Hia ovlp_shells ipov_shells gedm_shells gdmx_shells acc HG.
  revert ipov_shells gdmx_shells acc.
  induction HG as [|ovlp gedm ovs gs [Hge Hsym] HG IH]; intros ips gdmxs acc HX Hlen.
  - cbn. symmetry. rewrite (Radd_comm laws). apply (Radd_0_l laws).
  - destruct ips as [|govx ips]; [discriminate|].
    cbn [combine] in HX. inversion HX as [|? gdmx ? gdmxs' Hent HX']; subst.
    cbn beta iota in Hent.
    cbn [combine fold_left map fold_right].
    rewrite (IH ips gdmxs' _ HX') by (cbn in Hlen; lia).
    unfold shell_force_step at 1.
    destruct (aoslice_by_atom G mol ia) as [bg ed] eqn:Hsl.
    rewrite <- (Radd_assoc laws _ (projector_force _ _ _ _ _ _ _ _)).
    rewrite (@shell_force_chain_rule R RS laws gedm govx dm ovlp nao (natm G mol)
               (last_dim ovlp) bg ed ia x Hia Hsym).
    rewrite (@total_tmul_3 R RS gedm _ _ _ _ Hge).
    rewrite <- (Radd_assoc laws). f_equal. f_equal.
    apply rsum_ext; intros a _. apply rsum_ext; intros p _. apply rsum_ext; intros q _.
    cbn [select0 get]. rewrite (Hent ia x a p q Hia), Hsl. reflexivity.
Qed.

(** X10.  The force [t_grad_corr] returns is the chain rule through the
    projected density: with an eigensolver whose reverse-mode rule returns
    symmetric matrices of the shape of its input and a model that is a
    module (a callable that is not one makes [t_make_grad_e_pdm], and so
    [t_grad_corr], raise) and returns
    a single energy, for atoms of the molecule, row [k] of the result is,
    in each direction [x], the sum over shells and over [(a, p, q)] of
    [gedm[a,p,q] * gdmx[ia,x,a,p,q]] for [ia = atmlst[k]], where [gedm] is
    what [t_make_grad_e_pdm] returns and [gdmx] what [t_make_grad_pdm_x]
    returns. *)
Theorem t_grad_corr_chain_rule :
  scalar_laws R ->
  forall (mol : Mole) (m : model R) (dm : tensor R)
         (ovlp_shells ipov_shells : list (tensor R)) (atmlst : list nat) (nao : nat),
    parameters m <> None ->
    (forall t n, shape t = [natm G mol; n; n] ->
       exists e, symeig E t = Some e /\ shape e = [natm G mol; n]) ->
    (forall pdm ge, shape (symeig_vjp E pdm ge) = shape pdm) ->
    (forall pdm ge a p q,
       get (symeig_vjp E pdm ge) [a; p; q] = get (symeig_vjp E pdm ge) [a; q; p]) ->
    (forall c ge, shape (backward m c ge) = shape c) ->
    (forall c, nelement (forward m c) = 1) ->
    shape dm = [nao; nao] ->
    Forall2 (fun ovlp govx =>
               shape ovlp = [nao; natm G mol; last_dim ovlp] /\
               shape govx = [3; nao; natm G mol; last_dim ovlp])
            ovlp_shells ipov_shells ->
    ovlp_shells <> [] ->
    Forall (fun ia => ia < natm G mol) atmlst ->
    exists dec gedm_shells gdmx_shells,
      t_grad_corr G E mol m dm ovlp_shells ipov_shells (Some atmlst) = Some dec /\
      t_make_grad_e_pdm E m dm ovlp_shells = Some gedm_shells /\
      t_make_grad_pdm_x G mol dm ovlp_shells ipov_shells = Some gdmx_shells /\
      shape dec = [List.length atmlst; 3] /\
      forall k ia x, nth_error atmlst k = Some ia ->
        get dec [k; x] =
        fold_right sadd s0
          (map (fun '(gedm, gdmx) => total (tmul gedm (select0 x (select0 ia gdmx))))
               (combine gedm_shells gdmx_shells)).
Proof.
  intros laws mol m dm ovlp_shells ipov_shells atmlst nao
    Hmod Heig Hvs Hvsym Hback Hone Hdm HF Hne Hatm.
  assert (Hov : Forall (fun po => shape po = [nao; natm G mol; last_dim po]) ovlp_shells).
  { clear - HF. induction HF as [|? ? ? ? [H _] ? IH]; constructor; auto. }
  destruct (@t_make_grad_e_pdm_returns R RS E m dm ovlp_shells nao (natm G mol)
              Hmod Heig Hvs Hvsym Hback Hone Hdm Hov Hne) as [gedm_shells [Hgedm HG]].
  destruct (@t_make_grad_pdm_x_entries laws mol dm ovlp_shells ipov_shells nao Hdm HF)
    as [gdmx_shells [Hgdmx HX]].
  assert (HG1 : Forall2 (fun po g => shape g = [natm G mol; last_dim po; last_dim po])
                  ovlp_shells gedm_shells).
  { eapply Forall2_impl; [|exact HG]. intros po g [H _]. exact H. }
  destruct (@grad_corr_shells_entries R RS Mole Basis G mol dm nao atmlst Hdm Hatm
              gedm_shells ipov_shells ovlp_shells (zeros [List.length atmlst; 3])
              (@zipped_shell_shapes mol nao ovlp_shells ipov_shells gedm_shells HF HG1))
    as [dec [Hdec [Hs He]]].
  exists dec, gedm_shells, gdmx_shells.
  split; [unfold t_grad_corr; rewrite Hgedm; exact Hdec|].
  split; [exact Hgedm|]. split; [exact Hgdmx|]. split; [exact Hs|].
  intros k ia x Hk. rewrite (He k ia x Hk).
  assert (Hia : ia < natm G mol).
  { rewrite Forall_forall in Hatm. apply Hatm. eapply nth_error_In. exact Hk. }
  rewrite (@force_fold_chain laws mol dm nao ia x Hia ovlp_shells ipov_shells
             gedm_shells gdmx_shells _ HG HX)
    by (symmetry; apply (Forall2_length_eq HF)).
  cbn [zeros get]. apply (Radd_0_l laws).
Qed.

(** X11.  The atom list of [t_grad_corr]: when the evaluation for all
    atoms returns [full] (shape [natm x 3]), the evaluation for a list of
    atoms of the molecule returns a tensor of shape [len(atmlst) x 3]
    whose row [k] is row [atmlst[k]] of [full] (in any order, with
    repetitions), and the evaluation for a list that names an atom the
    molecule does not have raises. *)
Theorem t_grad_corr_rows :
  forall (mol : Mole) (m : model R) (dm : tensor R)
         (ovlp_shells ipov_shells : list (tensor R)) (nao : nat) (full : tensor R),
    (forall pdm ge, shape (symeig_vjp E pdm ge) = shape pdm) ->
    shape dm = [nao; nao] ->
    Forall2 (fun ovlp govx =>
               shape ovlp = [nao; natm G mol; last_dim ovlp] /\
               shape govx = [3; nao; natm G mol; last_dim ovlp])
            ovlp_shells ipov_shells ->
    t_grad_corr G E mol m dm ovlp_shells ipov_shells None = Some full ->
    shape full = [natm G mol; 3] /\
    forall atmlst : list nat,
      (Forall (fun ia => ia < natm G mol) atmlst ->
       exists dec,
         t_grad_corr G E mol m dm ovlp_shells ipov_shells (Some atmlst) = Some dec /\
         shape dec = [List.length atmlst; 3] /\
         forall k ia x, nth_error atmlst k = Some ia ->
           get dec [k; x] = get full [ia; x]) /\
      (Exists (fun ia => natm G mol <= ia) atmlst ->
       t_grad_corr G E mol m dm ovlp_shells ipov_shells (Some atmlst) = None).
Proof.
  intros mol m dm ovlp_shells ipov_shells nao full Hvs Hdm HF Hfull.
  assert (Hov : Forall (fun po => shape po = [nao; natm G mol; last_dim po]) ovlp_shells).
  { clear - HF. induction HF as [|? ? ? ? [H _] ? IH]; constructor; auto. }
  unfold t_grad_corr in Hfull.
  destruct (t_make_grad_e_pdm E m dm ovlp_shells) as [gedm_shells|] eqn:Hgedm;
    cbn [obind] in Hfull; [|discriminate].
  destruct (@t_make_grad_e_pdm_shapes R RS E m dm ovlp_shells gedm_shells nao
              (natm G mol) Hvs Hdm Hov Hgedm) as [Hne HG1].
  pose proof (@zipped_shell_shapes mol nao ovlp_shells ipov_shells gedm_shells HF HG1)
    as Hzip.
  assert (Hall : Forall (fun ia => ia < natm G mol) (seq 0 (natm G mol))).
  { apply Forall_forall. intros ia Hin. apply in_seq in Hin. lia. }
  destruct (@grad_corr_shells_entries R RS Mole Basis G mol dm nao
              (seq 0 (natm G mol)) Hdm Hall gedm_shells ipov_shells ovlp_shells
              (zeros [List.length (seq 0 (natm G mol)); 3]) Hzip)
    as [full' [Hfull' [Hsf Hef]]].
  rewrite Hfull' in Hfull. injection Hfull as <-.
  split; [rewrite Hsf; cbn [zeros shape]; rewrite length_seq; reflexivity|].
  intros atmlst. split.
  - intros Hatm.
    destruct (@grad_corr_shells_entries R RS Mole Basis G mol dm nao atmlst Hdm Hatm
                gedm_shells ipov_shells ovlp_shells (zeros [List.length atmlst; 3]) Hzip)
      as [dec [Hdec [Hs He]]].
    exists dec. unfold t_grad_corr. rewrite Hgedm. cbn [obind].
    split; [exact Hdec|]. split; [exact Hs|].
    intros k ia x Hk.
    assert (Hia : ia < natm G mol).
    { rewrite Forall_forall in Hatm. apply Hatm. eapply nth_error_In. exact Hk. }
    rewrite (He k ia x Hk).
    rewrite (Hef ia ia x) by (rewrite nth_error_seq; destruct (Nat.ltb_spec ia (natm G mol));
                              [reflexivity|lia]).
    reflexivity.
  - intros Hex. unfold t_grad_corr. rewrite Hgedm. cbn [obind].
    destruct ovlp_shells as [|ovlp ovs]; [congruence|].
    inversion HF as [|? govx ? ips _ _]; subst.
    inversion HG1 as [|? gedm ? gs _ _]; subst.
    apply grad_corr_shells_raises. exact Hex.
Qed.

End ForceTheorems.

(** Witness of X10: two atoms, one shell, the atoms listed in reverse. *)
Lemma t_grad_corr_chain_rule_witness :
  exists dec gedm_shells gdmx_shells,
    t_grad_corr line_gto diag_eigensolver mol_a (model_sum 1) dm_a [ovlp_s] [ipov_s]
      (Some [1; 0]) = Some dec /\
    t_make_grad_e_pdm diag_eigensolver (model_sum 1) dm_a [ovlp_s] = Some gedm_shells /\
    t_make_grad_pdm_x line_gto mol_a dm_a [ovlp_s] [ipov_s] = Some gdmx_shells /\
    shape dec = [2; 3] /\
    forall k ia x, nth_error [1; 0] k = Some ia ->
      get dec [k; x] =
      fold_right sadd s0
        (map (fun '(gedm, gdmx) => total (tmul gedm (select0 x (select0 ia gdmx))))
             (combine gedm_shells gdmx_shells)).
Proof.
  apply (@t_grad_corr_chain_rule Z _ line_mol nat line_gto diag_eigensolver
           Z_scalar_laws mol_a (model_sum 1) dm_a [ovlp_s] [ipov_s] [1; 0] 2).
  - discriminate.
  - intros t n Hs. apply (diag_symeig_shape t [2] n Hs).
  - apply diag_symeig_vjp_shape.
  - apply diag_symeig_vjp_symmetric.
  - reflexivity.
  - reflexivity.
  - reflexivity.
  - constructor; [split; reflexivity | constructor].
  - discriminate.
  - repeat constructor.
Defined.

(** Witness of X11: the list [[1]], and the list [[0; 2]] for a molecule
    of two atoms. *)
Lemma t_grad_corr_rows_witness :
  exists full,
    t_grad_corr line_gto diag_eigensolver mol_a (model_sum 1) dm_a [ovlp_s] [ipov_s] None
      = Some full /\
    shape full = [2; 3] /\
    (exists dec,
       t_grad_corr line_gto diag_eigensolver mol_a (model_sum 1) dm_a [ovlp_s] [ipov_s]
         (Some [1]) = Some dec /\
       shape dec = [1; 3] /\
       forall k ia x, nth_error [1] k = Some ia -> get dec [k; x] = get full [ia; x]) /\
    t_grad_corr line_gto diag_eigensolver mol_a (model_sum 1) dm_a [ovlp_s] [ipov_s]
      (Some [0; 2]) = None.
Proof.
  assert (Hret : option_map (fun _ => tt)
                   (t_grad_corr line_gto diag_eigensolver mol_a (model_sum 1) dm_a
                      [ovlp_s] [ipov_s] None) = Some tt) by (vm_compute; reflexivity).
  destruct (t_grad_corr line_gto diag_eigensolver mol_a (model_sum 1) dm_a [ovlp_s]
              [ipov_s] None) as [full|] eqn:Hf; [|discriminate Hret].
  exists full. split; [reflexivity|].
  destruct (@t_grad_corr_rows Z _ line_mol nat line_gto diag_eigensolver mol_a
              (model_sum 1) dm_a [ovlp_s] [ipov_s] 2 full) as [Hs Hrows].
  - apply diag_symeig_vjp_shape.
  - reflexivity.
  - constructor; [split; reflexivity | constructor].
  - exact Hf.
  - split; [exact Hs|]. split.
    + apply (proj1 (Hrows [1])). repeat constructor.
    + apply (proj2 (Hrows [0; 2])). apply Exists_cons_tl. apply Exists_cons_hd.
      vm_compute. lia.
Defined.

(** ** The memorized correction term and the legacy mask *)

Section SliceSums.
Context {R : Type} {RS : Scalar R}.
Hypothesis laws : scalar_laws R.
Add Ring scalar_ring_slice : (laws : ring_theory s0 s1 sadd smul ssub sopp (@eq R)).

Lemma rsum_S n (f : nat -> R) : rsum (S n) f = sadd (rsum n f) (f n).
Proof.
  unfold rsum. rewrite seq_S, fold_right_app. cbn [fold_right Nat.add].
  generalize (seq 0 n). intros l. induction l as [|x l IH]; simpl; [ring|].
  rewrite IH. ring.
Qed.

(** A sum restricted to the Python slice [bg:ed] of the index range. *)
Lemma rsum_slice n bg ed (f : nat -> R) :
  rsum n (fun r => if (bg <=? r) && (r <? ed) then f r else s0) =
  rsum (slice_len n bg ed) (fun i => f (bg + i)).
Proof.
  induction n as [|n IH].
  - unfold slice_len. rewrite !Nat.min_0_r. reflexivity.
  - rewrite rsum_S, IH. unfold slice_len.
    destruct (Nat.leb_spec bg n) as [Hb|Hb], (Nat.ltb_spec n ed) as [He|He]; cbn [andb].
    + replace (Nat.min ed (S n) - Nat.min bg (S n)) with (S (Nat.min ed n - Nat.min bg n))
        by lia.
      rewrite rsum_S. do 2 f_equal. lia.
    + replace (Nat.min ed (S n) - Nat.min bg (S n)) with (Nat.min ed n - Nat.min bg n)
        by lia.
      ring.
    + replace (Nat.min ed (S n) - Nat.min bg (S n)) with (Nat.min ed n - Nat.min bg n)
        by lia.
      ring.
    + replace (Nat.min ed (S n) - Nat.min bg (S n)) with (Nat.min ed n - Nat.min bg n)
        by lia.
      ring.
Qed.

Lemma rsum_sub_indicator n (c : bool) (d : nat -> bool) (f : nat -> R) :
  rsum n (fun r => smul (let m1 := if d r then ssub s0 s1 else s0 in
                         if c then sadd m1 s1 else m1) (f r)) =
  sadd (ssub s0 (rsum n (fun r => if d r then f r else s0)))
       (if c then rsum n f else s0).
Proof.
  induction n as [|n IH].
  - unfold rsum. cbn. destruct c; ring.
  - rewrite !rsum_S, IH. destruct c, (d n); cbn zeta; ring.
Qed.

Lemma tsub_tadd_cancel (a b c : tensor R) idx :
  get (tsub (tadd (tadd a b) c) b) idx = sadd (get a idx) (get c idx).
Proof. cbn. ring. Qed.

End SliceSums.

Section Legacy.
Context {R : Type} {RS : Scalar R} {Mole Basis : Type}.
Variable G : gto R Mole Basis.
Variable E : eigensolver R.

(** X13.  The legacy mask carries the signs of [t_make_grad_pdm_x]: for
    a surrogate molecule whose functions of atom [ia] are the columns
    [ia * nproj .. (ia + 1) * nproj], [make_mask] has the shape
    [nao x pnao], and contracting its column of function [j] of atom [a]
    with the full derivative contraction over the orbitals gives the term
    of the moving atom [ia] at projection atom [a]: minus the contraction
    over the orbitals of [ia], plus the full contraction where [a] is
    [ia]. *)
Theorem make_mask_contraction :
  scalar_laws R ->
  forall (mol pmol : Mole) (ia : nat) (mask govx dm ovlp : tensor R)
         (nproj a j x p q : nat),
    make_mask G mol pmol ia = Some mask ->
    aoslice_by_atom G pmol ia = (ia * nproj, (ia + 1) * nproj) ->
    j < nproj ->
    shape mask = [nao G mol; nao G pmol] /\
    rsum (nao G mol) (fun r => rsum (nao G mol) (fun s =>
      smul (get mask [r; a * nproj + j])
           (smul (smul (get govx [x; r; a; p]) (get dm [r; s])) (get ovlp [s; a; q]))))
    = moving_atom_term govx dm ovlp (nao G mol) (aoslice_by_atom G mol ia) ia x a p q.
Proof.
  intros laws mol pmol ia mask govx dm ovlp nproj a j x p q Hmask Hsl Hj.
  unfold make_mask in Hmask.
  destruct (ia <? natm G mol); [|discriminate].
  destruct (aoslice_by_atom G mol ia) as [bg1 ed1].
  destruct (ia <? natm G pmol); [|discriminate].
  rewrite Hsl in Hmask. injection Hmask as <-.
  split; [reflexivity|].
  cbn [iadd_cols isub_rows zeros get].
  assert (Hcol : (ia * nproj <=? a * nproj + j) && (a * nproj + j <? (ia + 1) * nproj)
                 = (a =? ia)).
  { destruct (Nat.eqb_spec a ia) as [->|Hne].
    - destruct (Nat.leb_spec (ia * nproj) (ia * nproj + j)); [|lia].
      destruct (Nat.ltb_spec (ia * nproj + j) ((ia + 1) * nproj)); [reflexivity|nia].
    - destruct (Nat.leb_spec (ia * nproj) (a * nproj + j)); [|reflexivity].
      destruct (Nat.ltb_spec (a * nproj + j) ((ia + 1) * nproj)); [|reflexivity].
      exfalso. apply Hne. nia. }
  rewrite Hcol.
  set (F := fun r => rsum (nao G mol) (fun s =>
         smul (smul (get govx [x; r; a; p]) (get dm [r; s])) (get ovlp [s; a; q]))).
  transitivity (rsum (nao G mol) (fun r =>
    smul (let m1 := if (bg1 <=? r) && (r <? ed1) then ssub s0 s1 else s0 in
          if a =? ia then sadd m1 s1 else m1) (F r))).
  { apply rsum_ext; intros r _. unfold F. rewrite (rsum_scale_l laws). reflexivity. }
  rewrite (rsum_sub_indicator laws), (rsum_slice laws).
  unfold moving_atom_term, orbital_term, projector_term. cbn [fst snd].
  destruct (a =? ia); [reflexivity|].
  rewrite (Radd_comm laws). apply (Radd_0_l laws).
Qed.

(** X12.  [get_base] fails its assertion as long as no correction term
    has been memorized.  For a molecule without symmetry, [grad_elec]
    returns the base class's gradient plus the correction term and
    memorizes that term without touching [de]; once the driver has stored
    in [de] the gradient [grad_elec] returned plus a nuclear term [nuc],
    [get_base] returns the base class's gradient plus [nuc]: the
    correction term cancels exactly. *)
Theorem get_base_recovers_base_gradient :
  scalar_laws R ->
  forall (MO : Type) (B : Gradients.grad_base R Mole MO)
         (w : Gradients.world R Mole Basis) (mm : Gradients.memo R)
         (mo : MO) (atmlst : option (list nat)),
    (Gradients.dec mm = None -> Gradients.get_base mm = None) /\
    forall g mm' nuc,
      Gradients.symmetry B (Gradients.mol (Gradients.grad w)) = false ->
      Gradients.grad_elec G E B w mm mo atmlst = Some (g, mm') ->
      Gradients.de mm' = Gradients.de mm /\
      Gradients.dec mm' = Gradients.grad_corr G E w (Some (Gradients.make_rdm1_mo B mo)) atmlst /\
      exists gb,
        Gradients.get_base (Gradients.mkMemo (Some (tadd g nuc)) (Gradients.dec mm'))
          = Some gb /\
        shape gb = shape (Gradients.super_grad_elec B mo atmlst) /\
        forall idx,
          get gb idx = sadd (get (Gradients.super_grad_elec B mo atmlst) idx) (get nuc idx).
Proof.
  intros laws MO B w mm mo atmlst. split.
  - intros Hd. unfold Gradients.get_base. rewrite Hd. destruct (Gradients.de mm); reflexivity.
  - intros g mm' nuc Hsym Hg. unfold Gradients.grad_elec in Hg.
    destruct (Gradients.grad_corr G E w _ atmlst) as [dec0|]; cbn [obind] in Hg;
      [|discriminate].
    rewrite Hsym in Hg. injection Hg as <- <-.
    cbn [Gradients.de Gradients.dec]. split; [reflexivity|]. split; [reflexivity|].
    eexists. unfold Gradients.get_base. cbn [Gradients.de Gradients.dec].
    split; [reflexivity|]. split; [reflexivity|].
    intros idx. apply (tsub_tadd_cancel laws).
Qed.

End Legacy.

(** Witness of X13: atom 0 of the two-atom molecule. *)
Lemma make_mask_contraction_witness :
  exists mask,
    make_mask line_gto mol_a (mkLine [0; 1]%Z 1) 0 = Some mask /\
    shape mask = [2; 2] /\
    rsum 2 (fun r => rsum 2 (fun s =>
      smul (get mask [r; 1 * 1 + 0])
           (smul (smul (get ipov_s [0; r; 1; 0]) (get dm_a [r; s])) (get ovlp_s [s; 1; 0]))))
    = moving_atom_term ipov_s dm_a ovlp_s 2 (aoslice_by_atom line_gto mol_a 0) 0 0 1 0 0.
Proof.
  destruct (make_mask line_gto mol_a (mkLine [0; 1]%Z 1) 0) as [mask|] eqn:Hm;
    [|exfalso; vm_compute in Hm; discriminate].
  exists mask. split; [reflexivity|].
  apply (@make_mask_contraction Z _ line_mol nat line_gto Z_scalar_laws mol_a
           (mkLine [0; 1]%Z 1) 0 mask ipov_s dm_a ovlp_s 1 1 0 0 0 0 Hm).
  - reflexivity.
  - lia.
Defined.

(** Witness of X12: a gradient object on a solver with model. *)
Lemma get_base_recovers_base_gradient_witness :
  exists g mm' gb,
    Gradients.grad_elec line_gto diag_eigensolver toy_grad_base world_with_model
      (Gradients.mkMemo None None) tt None = Some (g, mm') /\
    Gradients.get_base (Gradients.mkMemo (Some (tadd g (zeros [2; 3])))
                          (Gradients.dec mm')) = Some gb /\
    forall idx,
      get gb idx = sadd (get (matrix [[1; 0; 0]; [2; 0; 0]]%Z) idx) 0%Z.
Proof.
  assert (Hret : option_map (fun _ => tt)
                   (Gradients.grad_elec line_gto diag_eigensolver toy_grad_base
                      world_with_model (Gradients.mkMemo None None) tt None) = Some tt)
    by (vm_compute; reflexivity).
  destruct (Gradients.grad_elec line_gto diag_eigensolver toy_grad_base world_with_model
              (Gradients.mkMemo None None) tt None) as [[g mm']|] eqn:Hg;
    [|discriminate Hret].
  destruct (proj2 (@get_base_recovers_base_gradient Z _ line_mol nat line_gto
                     diag_eigensolver Z_scalar_laws unit toy_grad_base world_with_model
                     (Gradients.mkMemo None None) tt None)
                  g mm' (zeros [2; 3]) eq_refl Hg) as [_ [_ [gb [Hgb [_ He]]]]].
  exists g, mm', gb. split; [reflexivity|]. split; [exact Hgb|exact He].
Defined.

(** ** Argument dictionaries of the workflow *)

Section DictLemmas.
Variable V : Type.
Implicit Types (d : list (string * V)) (k : string) (v : V).

Lemma dict_get_set d k v k' :
  dict_get (dict_set d k v) k' = if String.eqb k k' then Some v else dict_get d k'.
Proof.
  induction d as [|[k0 v0] d IH]; simpl.
  - reflexivity.
  - destruct (String.eqb_spec k0 k) as [->|Hne]; simpl.
    + destruct (String.eqb_spec k k'); reflexivity.
    + rewrite IH. destruct (String.eqb_spec k0 k') as [->|Hne'].
      * destruct (String.eqb_spec k k'); [congruence|reflexivity].
      * reflexivity.
Qed.

Lemma dict_mem_In d k : dict_mem d k = true <-> In k (map fst d).
Proof.
  unfold dict_mem. induction d as [|[k0 v0] d IH]; simpl.
  - split; [discriminate|contradiction].
  - destruct (String.eqb_spec k0 k) as [->|Hne].
    + split; auto.
    + rewrite IH. split; [auto|]. intros [H|H]; [congruence|exact H].
Qed.

Lemma dict_set_keys_mem d k v :
  dict_mem d k = true -> map fst (dict_set d k v) = map fst d.
Proof.
  unfold dict_mem. induction d as [|[k0 v0] d IH]; simpl; [discriminate|].
  destruct (String.eqb_spec k0 k) as [->|Hne]; simpl; [reflexivity|].
  intros H. rewrite IH by exact H. reflexivity.
Qed.

Lemma dict_set_keys_new d k v :
  dict_mem d k = false -> map fst (dict_set d k v) = map fst d ++ [k].
Proof.
  unfold dict_mem. induction d as [|[k0 v0] d IH]; simpl; [reflexivity|].
  destruct (String.eqb_spec k0 k) as [->|Hne]; simpl; [discriminate|].
  intros H. rewrite IH by exact H. reflexivity.
Qed.

Lemma dict_mem_set d k v k' :
  dict_mem (dict_set d k v) k' = String.eqb k k' || dict_mem d k'.
Proof.
  unfold dict_mem. rewrite dict_get_set. destruct (String.eqb k k'); reflexivity.
Qed.

(** Lookup in [{**d1, **d2}] for [d2] with distinct keys. *)
Lemma dict_get_update d1 d2 k :
  NoDup (map fst d2) ->
  dict_get (dict_update d1 d2) k =
  match dict_get d2 k with
  | Some v => Some v
  | None => dict_get d1 k
  end.
Proof.
  unfold dict_update. intros Hnd. revert d1.
  induction d2 as [|[k0 v0] d2 IH]; intros d1; simpl; [reflexivity|].
  inversion Hnd as [|? ? Hnin Hnd']; subst.
  rewrite (IH Hnd'), dict_get_set.
  destruct (String.eqb_spec k0 k) as [->|Hne]; [|reflexivity].
  destruct (dict_get d2 k) as [v|] eqn:Hg; [|reflexivity].
  exfalso. apply Hnin. apply dict_mem_In. unfold dict_mem. rewrite Hg. reflexivity.
Qed.

(** Updating with keys that are all present keeps the keys. *)
Lemma dict_update_keys_mem d2 : forall d1,
  Forall (fun kv => dict_mem d1 (fst kv) = true) d2 ->
  map fst (dict_update d1 d2) = map fst d1.
Proof.
  unfold dict_update. induction d2 as [|[k0 v0] d2 IH]; intros d1 HF; simpl;
    [reflexivity|].
  inversion HF as [|? ? Hk HF']; subst. cbn [fst] in Hk.
  rewrite IH.
  - apply dict_set_keys_mem. exact Hk.
  - eapply Forall_impl; [|exact HF']. intros [k v] H. cbn [fst] in *.
    rewrite dict_mem_set, H. apply orb_true_r.
Qed.

(** Updating appends the new keys in their order. *)
Lemma dict_update_keys d2 : forall d1,
  NoDup (map fst d2) ->
  map fst (dict_update d1 d2) =
  map fst d1 ++ filter (fun k => negb (dict_mem d1 k)) (map fst d2).
Proof.
  unfold dict_update. induction d2 as [|[k0 v0] d2 IH]; intros d1 Hnd; simpl.
  - rewrite app_nil_r. reflexivity.
  - inversion Hnd as [|? ? Hnin Hnd']; subst. rewrite (IH _ Hnd').
    assert (Hf : filter (fun k => negb (dict_mem (dict_set d1 k0 v0) k)) (map fst d2) =
                 filter (fun k => negb (dict_mem d1 k)) (map fst d2)).
    { apply filter_ext_in. intros k Hin. rewrite dict_mem_set.
      destruct (String.eqb_spec k0 k) as [->|_]; [contradiction|reflexivity]. }
    rewrite Hf. destruct (dict_mem d1 k0) eqn:Hm; simpl.
    + rewrite dict_set_keys_mem by exact Hm. reflexivity.
    + rewrite dict_set_keys_new by exact Hm. rewrite <- app_assoc. reflexivity.
Qed.

Lemma dict_get_filter d (f : string -> bool) k :
  dict_get (filter (fun kv => f (fst kv)) d) k =
  if f k then dict_get d k else None.
Proof.
  induction d as [|[k0 v0] d IH]; simpl.
  - destruct (f k); reflexivity.
  - destruct (f k0) eqn:Hf; simpl.
    + destruct (String.eqb_spec k0 k) as [->|Hne]; [rewrite Hf; reflexivity|exact IH].
    + destruct (String.eqb_spec k0 k) as [->|Hne]; [rewrite IH, Hf; reflexivity|exact IH].
Qed.

Lemma NoDup_map_fst_filter d (f : string * V -> bool) :
  NoDup (map fst d) -> NoDup (map fst (filter f d)).
Proof.
  induction d as [|kv d IH]; simpl; intros Hnd; [constructor|].
  inversion Hnd as [|? ? Hnin Hnd']; subst.
  destruct (f kv); simpl; [|auto].
  constructor; [|auto]. intros Hin. apply Hnin.
  apply in_map_iff in Hin. destruct Hin as [x [Hx Hin]].
  apply filter_In in Hin. apply in_map_iff. exists x. tauto.
Qed.

End DictLemmas.

Section CheckArgDict.
Variable V : Type.
Variable load_yaml : string -> option (list (string * V)).
Variable repr_keys : list string -> string.

(** X14.  [check_arg_dict] in strict mode: for [data] absent the result
    is the default dict itself, with nothing printed (in either mode).
    For a dict [data], the result has exactly the keys of the default
    dict, in the default's order; the value of a key is the one [data]
    gives when [data] has the key and the default's otherwise; keys of
    [data] outside the default list are dropped, and a warning is printed
    exactly when there is such a key. *)
Theorem check_arg_dict_strict :
  forall (d default : list (string * V)),
    NoDup (map fst d) ->
    (forall strict, check_arg_dict load_yaml repr_keys (ANone V) default strict = Some (default, [])) /\
    exists r err,
      check_arg_dict load_yaml repr_keys (ADict d) default true = Some (r, err) /\
      map fst r = map fst default /\
      (forall k, dict_get r k =
                 if dict_mem default k
                 then match dict_get d k with
                      | Some v => Some v
                      | None => dict_get default k
                      end
                 else None) /\
      (err = [] <-> forall k, In k (map fst d) -> In k (map fst default)).
Proof.
  intros d default Hnd. split.
  { intros strict. unfold check_arg_dict. cbn. destruct strict; reflexivity. }
  unfold check_arg_dict. cbn [obind].
  eexists. eexists. split; [reflexivity|]. split; [|split].
  - apply dict_update_keys_mem. apply Forall_forall. intros kv Hin.
    apply filter_In in Hin. tauto.
  - intros k. rewrite dict_get_update by (apply NoDup_map_fst_filter; exact Hnd).
    rewrite (dict_get_filter d (dict_mem default) k).
    destruct (dict_mem default k) eqn:Hm.
    + destruct (dict_get d k); reflexivity.
    + unfold dict_mem in Hm. destruct (dict_get default k); [discriminate|reflexivity].
  - split.
    + intros He k Hin. apply dict_mem_In.
      destruct (dict_mem default k) eqn:Hm; [reflexivity|exfalso].
      apply in_map_iff in Hin. destruct Hin as [[k' v] [Hk Hin]]. cbn in Hk. subst k'.
      assert (Ho : In (k, v) (filter (fun kv => negb (dict_mem default (fst kv))) d)).
      { apply filter_In. split; [exact Hin|]. cbn. rewrite Hm. reflexivity. }
      destruct (filter _ d); [contradiction|discriminate].
    + intros Hall.
      assert (Ho : filter (fun kv => negb (dict_mem default (fst kv))) d = []).
      { clear Hnd. induction d as [|[k v] d' IH]; [reflexivity|]. simpl.
        assert (Hm : dict_mem default k = true).
        { apply dict_mem_In. apply Hall. left. reflexivity. }
        rewrite Hm. simpl. apply IH. intros k' Hin. apply Hall. right. exact Hin. }
      rewrite Ho. reflexivity.
Qed.

(** The keys of [data] outside the default list. *)
Lemma outside_none (d default : list (string * V)) :
  (forall k, In k (map fst d) -> In k (map fst default)) ->
  filter (fun kv => negb (dict_mem default (fst kv))) d = [].
Proof.
  intros Hall. induction d as [|[k v] d' IH]; [reflexivity|]. simpl.
  assert (Hm : dict_mem default k = true).
  { apply dict_mem_In. apply Hall. left. reflexivity. }
  rewrite Hm. simpl. apply IH. intros k' Hin. apply Hall. right. exact Hin.
Qed.

Lemma outside_some (d default : list (string * V)) (k : string) :
  In k (map fst d) -> ~ In k (map fst default) ->
  filter (fun kv => negb (dict_mem default (fst kv))) d <> [].
Proof.
  intros Hin Hout Hnil.
  apply in_map_iff in Hin. destruct Hin as [[k' v] [Hk Hin]]. cbn in Hk. subst k'.
  assert (Ho : In (k, v) (filter (fun kv => negb (dict_mem default (fst kv))) d)).
  { apply filter_In. split; [exact Hin|]. cbn.
    destruct (dict_mem default k) eqn:Hm; [|reflexivity].
    exfalso. apply Hout. apply dict_mem_In. exact Hm. }
  rewrite Hnil in Ho. contradiction.
Qed.

(** X15.  [check_arg_dict] with [strict=False]: the result has the keys
    of the default dict in the default's order followed by the keys of
    [data] that the default lacks, in the order of [data]; every key maps
    to the value of [data] when [data] has it and to the default's
    otherwise; nothing is printed when every key of [data] is in the
    default list, and when [data] has a key outside it the warning
    printed is the text ["but kept"] alone, without the list of keys. *)
Theorem check_arg_dict_loose :
  forall (d default : list (string * V)),
    NoDup (map fst d) ->
    exists r err,
      check_arg_dict load_yaml repr_keys (ADict d) default false = Some (r, err) /\
      map fst r =
        map fst default ++ filter (fun k => negb (dict_mem default k)) (map fst d) /\
      (forall k, dict_get r k =
                 match dict_get d k with
                 | Some v => Some v
                 | None => dict_get default k
                 end) /\
      ((forall k, In k (map fst d) -> In k (map fst default)) -> err = []) /\
      (forall k, In k (map fst d) -> ~ In k (map fst default) ->
         err = ["but kept"%string]).
Proof.
  intros d default Hnd. unfold check_arg_dict. cbn [obind].
  eexists. eexists. split; [reflexivity|]. split; [|split; [|split]].
  - apply dict_update_keys. exact Hnd.
  - intros k. apply dict_get_update. exact Hnd.
  - intros Hall. rewrite (outside_none d default Hall). reflexivity.
  - intros k Hin Hout. pose proof (outside_some d default k Hin Hout) as Hne.
    destruct (filter _ d); [contradiction|reflexivity].
Qed.

End CheckArgDict.

(** Witness of X14: the default settings of the SCF step and a dict with
    a key outside them. *)
Lemma check_arg_dict_strict_witness :
  let d := [("python"%string, PStr "python3"); ("nonsense"%string, PInt 7)] in
  exists r err,
    check_arg_dict (fun _ => None) (fun _ => "[...]"%string) (ADict d)
      DEFAULT_SCF_MACHINE true = Some (r, err) /\
    map fst r = map fst DEFAULT_SCF_MACHINE /\
    (forall k, dict_get r k =
               if dict_mem DEFAULT_SCF_MACHINE k
               then match dict_get d k with
                    | Some v => Some v
                    | None => dict_get DEFAULT_SCF_MACHINE k
                    end
               else None) /\
    (err = [] <-> forall k, In k (map fst d) -> In k (map fst DEFAULT_SCF_MACHINE)).
Proof.
  intros d.
  apply (proj2 (@check_arg_dict_strict pyval (fun _ => None) (fun _ => "[...]"%string)
                  d DEFAULT_SCF_MACHINE ltac:(repeat constructor; simpl; intuition discriminate))).
Defined.

(** Witness of X15: the default settings of the training step and a
    dict with a key outside them; the warning is printed. *)
Lemma check_arg_dict_loose_witness :
  let d := [("python"%string, PStr "python3"); ("nonsense"%string, PInt 7)] in
  exists r,
    check_arg_dict (fun _ => None) (fun _ => "[...]"%string) (ADict d)
      DEFAULT_TRN_MACHINE false = Some (r, ["but kept"%string]) /\
    map fst r = ["dispatcher"; "resources"; "python"; "nonsense"]%string /\
    (forall k, dict_get r k =
               match dict_get d k with
               | Some v => Some v
               | None => dict_get DEFAULT_TRN_MACHINE k
               end).
Proof.
  intros d.
  destruct (@check_arg_dict_loose pyval (fun _ => None) (fun _ => "[...]"%string)
              d DEFAULT_TRN_MACHINE
              ltac:(repeat constructor; simpl; intuition discriminate))
    as (r & err & Hr & Hk & Hv & _ & Hwarn).
  assert (He : err = ["but kept"%string]).
  { apply (Hwarn "nonsense"%string).
    - right. left. reflexivity.
    - simpl. intuition discriminate. }
  exists r. rewrite <- He. split; [exact Hr|]. split; [exact Hk|exact Hv].
Defined.

(** ** The force as a chain rule through the descriptor *)

Lemma shape_eqb_refl (sh : list nat) : shape_eqb sh sh = true.
Proof. induction sh as [|n sh IH]; simpl; [reflexivity|]. rewrite Nat.eqb_refl. exact IH. Qed.

Section DescriptorJacobianSums.
Context {R : Type} {RS : Scalar R}.
Hypothesis laws : scalar_laws R.
Add Ring scalar_ring_jacobian :
  (laws : ring_theory s0 s1 sadd smul ssub sopp (@eq R)).

Lemma rsum_app n m (f : nat -> R) :
  rsum (n + m) f = sadd (rsum n f) (rsum m (fun i => f (n + i))).
Proof.
  induction m as [|m IH].
  - rewrite Nat.add_0_r. unfold rsum at 3. cbn. ring.
  - rewrite Nat.add_succ_r, !(rsum_S laws), IH. ring.
Qed.

(** The pairing with a concatenation is the sum of the pairings with
    its pieces. *)
Lemma cat_pairing (na ia x : nat) (g : tensor R) (gvxs : list (tensor R)) :
  forall off,
    rsum na (fun a => rsum (fold_right Nat.add 0 (map last_dim gvxs)) (fun w =>
      smul (get g [a; off + w]) (cat_get gvxs [ia; x; a] w))) =
    shell_pairing na ia x g off gvxs.
Proof.
  induction gvxs as [|t rest IH]; intros off.
  - cbn [map fold_right shell_pairing].
    transitivity (rsum na (fun _ : nat => s0)); [|apply (rsum_0 laws)].
    apply rsum_ext; intros a _. reflexivity.
  - cbn [map fold_right shell_pairing]. rewrite <- IH, <- (rsum_add laws).
    apply rsum_ext; intros a _. rewrite rsum_app. f_equal.
    + apply rsum_ext; intros v Hv. cbn [cat_get].
      destruct (Nat.ltb_spec v (last_dim t)); [reflexivity|lia].
    + apply rsum_ext; intros w _. cbn [cat_get].
      destruct (Nat.ltb_spec (last_dim t + w) (last_dim t)); [lia|].
      replace (last_dim t + w - last_dim t) with w by lia.
      replace (off + (last_dim t + w)) with (off + last_dim t + w) by lia.
      reflexivity.
Qed.

(** One shell: the contraction of the energy gradient with the jacobian
    of the projected density, rewritten through the eigenvalue jacobian. *)
Lemma shell_pairing_step (gedm gdmx gk J gvx : tensor R) (na n ia x : nat) :
  shape gedm = [na; n; n] ->
  (forall a p q, p < n -> q < n ->
     get gedm [a; p; q] =
     rsum n (fun v => smul (get gk [a; v]) (get J [a; v; p; q]))) ->
  (forall b y a v, get gvx [b; y; a; v] =
     rsum n (fun p => rsum n (fun q =>
       smul (get gdmx [b; y; a; p; q]) (get J [a; v; p; q])))) ->
  total (tmul gedm (select0 x (select0 ia gdmx))) =
  rsum na (fun a => rsum n (fun v => smul (get gk [a; v]) (get gvx [ia; x; a; v]))).
Proof.
  intros Hs Hjac Hgvx. rewrite (@total_tmul_3 R RS gedm _ na n n Hs).
  apply rsum_ext; intros a _.
  transitivity (rsum n (fun p => rsum n (fun q => rsum n (fun v =>
    smul (get gk [a; v])
         (smul (get gdmx [ia; x; a; p; q]) (get J [a; v; p; q])))))).
  { apply rsum_ext; intros p Hp. apply rsum_ext; intros q Hq.
    rewrite (Hjac a p q Hp Hq). cbn [select0 get].
    rewrite <- (rsum_scale_r laws). apply rsum_ext; intros v _. ring. }
  rewrite (rsum_rot3 laws). apply rsum_ext; intros v _.
  rewrite Hgvx. rewrite <- (rsum_scale_l laws). apply rsum_ext; intros p _.
  rewrite <- (rsum_scale_l laws). reflexivity.
Qed.

End DescriptorJacobianSums.

Section DescriptorJacobianEinsum.
Context {R : Type} {RS : Scalar R}.

Lemma einsum_bxapq (g j : tensor R) nb nx na nv np nq :
  shape g = [nb; nx; na; np; nq] -> shape j = [na; nv; np; nq] ->
  exists t, einsum "bxapq,avpq->bxav" [g; j] = Some t /\
    shape t = [nb; nx; na; nv] /\
    forall b x a v, get t [b; x; a; v] =
      rsum np (fun p => rsum nq (fun q =>
        smul (get g [b; x; a; p; q]) (get j [a; v; p; q]))).
Proof.
  intros Hg Hj. einsum_eval. rewrite Hg, Hj.
  cbn. rewrite !Nat.eqb_refl. cbn.
  eexists. split; [reflexivity|]. split; [reflexivity|].
  intros b x a v. cbn. reflexivity.
Qed.

End DescriptorJacobianEinsum.

Section DescriptorJacobian.
Context {R : Type} {RS : Scalar R}.
Variable E : eigensolver R.

(** [t_make_grad_e_pdm] in explicit form. *)
Lemma t_make_grad_e_pdm_explicit (m : model R) (dm : tensor R)
    (ovlp_shells : list (tensor R)) (nao na : nat) :
  parameters m <> None ->
  (forall t n, shape t = [na; n; n] ->
     exists e, symeig E t = Some e /\ shape e = [na; n]) ->
  (forall c ge, shape (backward m c ge) = shape c) ->
  (forall c, nelement (forward m c) = 1) ->
  shape dm = [nao; nao] ->
  Forall (fun po => shape po = [nao; na; last_dim po]) ovlp_shells ->
  ovlp_shells <> [] ->
  exists pdm_shells ceig,
    t_make_pdm dm ovlp_shells = Some pdm_shells /\
    t_make_eig E dm ovlp_shells = Some ceig /\
    shape ceig = [na; fold_right Nat.add 0 (map last_dim ovlp_shells)] /\
    Forall2 (fun po pdm => shape pdm = [na; last_dim po; last_dim po])
            ovlp_shells pdm_shells /\
    t_make_grad_e_pdm E m dm ovlp_shells =
      Some (map (fun '(pdm, gk) => symeig_vjp E pdm gk)
                (combine pdm_shells
                   (split_from 0 (map last_dim ovlp_shells)
                      (squeeze0 (backward m (unsqueeze0 ceig)
                                   (ones_like (forward m (unsqueeze0 ceig)))))))).
Proof.
  intros Hmod Heig Hback Hone Hdm Hov Hne.
  destruct (@t_make_eig_returns R RS E dm ovlp_shells nao na Heig Hdm Hov Hne)
    as (pdm_shells & eig_shells & ceig & Hpdm & Hmap & Hcat & Hceig & HF1 & HF3 & Hlast & Hsc).
  exists pdm_shells, ceig. split; [exact Hpdm|]. split; [exact Hceig|].
  split; [exact Hsc|]. split; [exact HF1|].
  unfold t_make_grad_e_pdm, next_parameters, to_ref.
  destruct (parameters m) as [[_dref _rest]|]; [clear Hmod|contradiction].
  rewrite (mapM_ext _ (fun po => einsum "rap,...rs,saq->...apq" [po; dm; po]))
    by (intros po; apply einsum_pdm_plain; unfold ndim; rewrite Hdm; reflexivity).
  change (mapM _ ovlp_shells) with (t_make_pdm dm ovlp_shells).
  rewrite Hpdm. cbn [obind].
  change (mapM (symeig E) pdm_shells) with (mapM (t_shell_eig E) pdm_shells).
  rewrite Hmap. cbn [obind]. rewrite Hcat. cbn [obind]. rewrite Hone. cbn [Nat.eqb].
  unfold split_last, ndim, last_dim at 2. cbn [squeeze0 shape].
  rewrite Hback. cbn [unsqueeze0 shape tl]. rewrite Hlast, Hsc.
  cbn [List.length last Nat.leb andb]. rewrite Nat.eqb_refl. cbn [obind].
  reflexivity.
Qed.

(** The eigenvalue jacobians of the shells. *)
Lemma batch_jacobians (na : nat) (ovlp_shells pdm_shells : list (tensor R)) :
  (forall t n, shape t = [na; n; n; n] ->
     exists e, symeig E t = Some e /\ shape e = [na; n; n]) ->
  Forall2 (fun po pdm => shape pdm = [na; last_dim po; last_dim po])
          ovlp_shells pdm_shells ->
  mapM (fun pdm => t_batch_jacobian E pdm (last_dim pdm)) pdm_shells =
  Some (map (fun pdm => symeig_vjp E (repeat1 (last_dim pdm) pdm)
                    (eye_batch na (last_dim pdm))) pdm_shells).
Proof.
  intros Heig HF. induction HF as [|po pdm ovs pds Hs HF IH]; [reflexivity|].
  cbn [mapM map]. rewrite IH. unfold t_batch_jacobian at 1. rewrite Hs.
  assert (Hld : last_dim pdm = last_dim po) by (unfold last_dim at 1; rewrite Hs; reflexivity).
  rewrite Hld.
  destruct (Heig (repeat1 (last_dim po) pdm) (last_dim po)) as [y [Hy Hsy]].
  { unfold repeat1. cbn [shape]. rewrite Hs. reflexivity. }
  rewrite Hy. cbn [obind eye_batch shape]. rewrite Hsy, shape_eqb_refl.
  reflexivity.
Qed.

Lemma t_make_grad_pdm_x_shapes {Mole Basis} (G : gto R Mole Basis)
    (laws : scalar_laws R) (mol : Mole) (dm : tensor R)
    (ovlp_shells ipov_shells gdmx_shells : list (tensor R)) (nao : nat) :
  shape dm = [nao; nao] ->
  Forall2 (fun ovlp govx =>
             shape ovlp = [nao; natm G mol; last_dim ovlp] /\
             shape govx = [3; nao; natm G mol; last_dim ovlp])
          ovlp_shells ipov_shells ->
  t_make_grad_pdm_x G mol dm ovlp_shells ipov_shells = Some gdmx_shells ->
  Forall2 (fun po gdmx =>
             shape gdmx = [natm G mol; 3; natm G mol; last_dim po; last_dim po])
          ovlp_shells gdmx_shells.
Proof.
  intros Hdm HF. unfold t_make_grad_pdm_x. revert gdmx_shells.
  induction HF as [|ovlp govx ovs ips [Hov Hgo] HF IH]; intros gdmx_shells Hg.
  - cbn in Hg. injection Hg as <-. constructor.
  - cbn [map grad_pdm_x_shells] in Hg.
    destruct (@grad_pdm_x_shell_entries R RS Mole Basis G laws mol dm govx ovlp nao
                (last_dim ovlp) Hdm Hov Hgo) as [g [Hgs [Hsg _]]].
    rewrite Hgs in Hg. cbn [obind] in Hg.
    destruct (grad_pdm_x_shells G mol dm _ ips ovs) as [rest|] eqn:Hrest;
      cbn [obind] in Hg; [|discriminate].
    injection Hg as <-. constructor; [exact Hsg|]. apply IH. reflexivity.
Qed.

(** The sum over shells of the contractions with the jacobian of the
    projected density is the descriptor-level pairing. *)
Lemma shells_pairing (laws : scalar_laws R) (na ia x : nat) (g : tensor R) (ntot : nat) :
  shape g = [na; ntot] ->
  (forall pdm ge, shape (symeig_vjp E pdm ge) = shape pdm) ->
  (forall pdm ge n, shape pdm = [na; n; n] -> shape ge = [na; n] ->
     forall a p q, p < n -> q < n ->
       get (symeig_vjp E pdm ge) [a; p; q] =
       rsum n (fun v => smul (get ge [a; v])
                             (get (symeig_vjp E (repeat1 n pdm) (eye_batch na n))
                                  [a; v; p; q]))) ->
  forall (ovlps pdms gdmxs gvxs : list (tensor R)) (off : nat),
    Forall2 (fun po pdm => shape pdm = [na; last_dim po; last_dim po]) ovlps pdms ->
    Forall2 (fun po gdmx => shape gdmx = [na; 3; na; last_dim po; last_dim po])
            ovlps gdmxs ->
    mapM (fun '(gdmx, gvdm) => einsum "bxapq,avpq->bxav" [gdmx; gvdm])
         (combine gdmxs (map (fun pdm => symeig_vjp E (repeat1 (last_dim pdm) pdm)
                    (eye_batch na (last_dim pdm))) pdms)) = Some gvxs ->
    fold_right sadd s0
      (map (fun '(gedm, gdmx) => total (tmul gedm (select0 x (select0 ia gdmx))))
           (combine (map (fun '(pdm, gk) => symeig_vjp E pdm gk)
                         (combine pdms (split_from off (map last_dim ovlps) g)))
                    gdmxs)) =
    shell_pairing na ia x g off gvxs /\
    Forall2 (fun po gvx => shape gvx = [na; 3; na; last_dim po]) ovlps gvxs.
Proof.
  intros Hg Hvs Hjac ovlps pdms gdmxs gvxs off HP. revert gdmxs gvxs off.
  induction HP as [|po pdm ovs pds Hs HP IH]; intros gdmxs gvxs off HX Hmap.
  - inversion HX; subst. cbn in Hmap. injection Hmap as <-.
    split; [reflexivity|constructor].
  - inversion HX as [|? gdmx ? gxs Hsx HX']; subst.
    assert (Hld : last_dim pdm = last_dim po)
      by (unfold last_dim at 1; rewrite Hs; reflexivity).
    cbn [map combine mapM] in Hmap.
    destruct (@einsum_bxapq R RS gdmx (symeig_vjp E (repeat1 (last_dim pdm) pdm) (eye_batch na (last_dim pdm))) na 3 na (last_dim po)
                (last_dim po) (last_dim po) Hsx) as [gvx [Hgvx [Hsg Heg]]].
    { rewrite Hvs. unfold repeat1. cbn [shape]. rewrite Hs, Hld. reflexivity. }
    rewrite Hgvx in Hmap. cbn [obind] in Hmap.
    destruct (mapM _ (combine gxs _)) as [gvxs'|] eqn:Hrest; cbn [obind] in Hmap;
      [|discriminate].
    injection Hmap as <-.
    destruct (IH gxs gvxs' (off + last_dim po) HX' Hrest) as [Hsum HFv].
    split; [|constructor; assumption].
    cbn [map split_from combine fold_right shell_pairing].
    rewrite Hsum.
    assert (Hldg : last_dim gvx = last_dim po)
      by (unfold last_dim at 1; rewrite Hsg; reflexivity).
    rewrite Hldg. f_equal.
    set (gk := mkT (removelast (shape g) ++ [last_dim po])
                   (fun idx => get g (removelast idx ++ [off + last idx 0]))).
    rewrite (@shell_pairing_step R RS laws (symeig_vjp E pdm gk) gdmx gk (symeig_vjp E (repeat1 (last_dim pdm) pdm) (eye_batch na (last_dim pdm))) gvx
               na (last_dim po) ia x).
    + reflexivity.
    + rewrite Hvs. exact Hs.
    + intros a p q Hp Hq. rewrite Hld.
      apply (Hjac pdm gk (last_dim po) Hs); [|assumption|assumption].
      unfold gk. cbn [shape]. rewrite Hg. reflexivity.
    + intros b y a v. rewrite Heg. reflexivity.
Qed.

End DescriptorJacobian.

Section DescriptorJacobianTheorem.
Context {R : Type} {RS : Scalar R} {Mole Basis : Type}.
Variable G : gto R Mole Basis.
Variable E : eigensolver R.

(** X16.  The force [t_grad_corr] returns is the chain rule through the
    descriptor: row [k] of the result is, in each direction [x], the sum
    over atoms [a] and descriptor columns [w] of the model's gradient with
    respect to the descriptor, [g[a,w]], times the eigenvalue jacobian
    [t_make_grad_eig_x] returns, [gvx[ia,x,a,w]], for [ia = atmlst[k]];
    the jacobian has shape [natm x 3 x natm x nproj].  The eigensolver's
    reverse-mode rule is assumed to keep shapes, to return symmetric
    matrices, and to be the jacobian of the eigenvalues applied to the
    cotangent, matrix by matrix (which is what [t_batch_jacobian] relies
    on); the model is a module (a callable that is not one makes
    [t_grad_corr] raise) and returns a single energy. *)
Theorem t_grad_corr_descriptor_chain_rule :
  scalar_laws R ->
  forall (mol : Mole) (m : model R) (dm : tensor R)
         (ovlp_shells ipov_shells : list (tensor R)) (atmlst : list nat) (nao : nat),
    parameters m <> None ->
    (forall t sh n, shape t = sh ++ [n; n] ->
       exists e, symeig E t = Some e /\ shape e = sh ++ [n]) ->
    (forall pdm ge, shape (symeig_vjp E pdm ge) = shape pdm) ->
    (forall pdm ge a p q,
       get (symeig_vjp E pdm ge) [a; p; q] = get (symeig_vjp E pdm ge) [a; q; p]) ->
    (forall pdm ge n, shape pdm = [natm G mol; n; n] -> shape ge = [natm G mol; n] ->
       forall a p q, p < n -> q < n ->
         get (symeig_vjp E pdm ge) [a; p; q] =
         rsum n (fun v => smul (get ge [a; v])
                               (get (symeig_vjp E (repeat1 n pdm)
                                       (eye_batch (natm G mol) n))
                                    [a; v; p; q]))) ->
    (forall c ge, shape (backward m c ge) = shape c) ->
    (forall c, nelement (forward m c) = 1) ->
    shape dm = [nao; nao] ->
    Forall2 (fun ovlp govx =>
               shape ovlp = [nao; natm G mol; last_dim ovlp] /\
               shape govx = [3; nao; natm G mol; last_dim ovlp])
            ovlp_shells ipov_shells ->
    ovlp_shells <> [] ->
    Forall (fun ia => ia < natm G mol) atmlst ->
    exists dec gvx ceig,
      t_grad_corr G E mol m dm ovlp_shells ipov_shells (Some atmlst) = Some dec /\
      t_make_grad_eig_x G E mol dm ovlp_shells ipov_shells = Some gvx /\
      t_make_eig E dm ovlp_shells = Some ceig /\
      shape gvx = [natm G mol; 3; natm G mol;
                   fold_right Nat.add 0 (map last_dim ovlp_shells)] /\
      forall k ia x, nth_error atmlst k = Some ia ->
        get dec [k; x] =
        rsum (natm G mol) (fun a =>
          rsum (fold_right Nat.add 0 (map last_dim ovlp_shells)) (fun w =>
            smul (get (squeeze0 (backward m (unsqueeze0 ceig)
                                   (ones_like (forward m (unsqueeze0 ceig))))) [a; w])
                 (get gvx [ia; x; a; w]))).
Proof.
  intros laws mol m dm ovlp_shells ipov_shells atmlst nao
    Hmod Heig Hvs Hvsym Hjac Hback Hone Hdm HF Hne Hatm.
  set (na := natm G mol) in *.
  assert (Hov : Forall (fun po => shape po = [nao; na; last_dim po]) ovlp_shells).
  { clear - HF. induction HF as [|? ? ? ? [H _] ? IH]; constructor; auto. }
  assert (Heig3 : forall t n, shape t = [na; n; n] ->
            exists e, symeig E t = Some e /\ shape e = [na; n]).
  { intros t n Hs. apply (Heig t [na] n Hs). }
  assert (Heig4 : forall t n, shape t = [na; n; n; n] ->
            exists e, symeig E t = Some e /\ shape e = [na; n; n]).
  { intros t n Hs. apply (Heig t [na; n] n Hs). }
  destruct (@t_make_grad_e_pdm_explicit R RS E m dm ovlp_shells nao na
              Hmod Heig3 Hback Hone Hdm Hov Hne)
    as (pdm_shells & ceig & Hpdm & Hceig & Hsc & HP & Hgedm).
  set (g := squeeze0 (backward m (unsqueeze0 ceig)
                        (ones_like (forward m (unsqueeze0 ceig))))) in *.
  set (gedm_shells := map (fun '(pdm, gk) => symeig_vjp E pdm gk)
                          (combine pdm_shells (split_from 0 (map last_dim ovlp_shells) g)))
    in *.
  assert (Hg : shape g = [na; fold_right Nat.add 0 (map last_dim ovlp_shells)]).
  { unfold g. cbn [squeeze0 shape]. rewrite Hback. cbn [unsqueeze0 shape tl]. exact Hsc. }
  (* the energy gradient: shapes and symmetry *)
  assert (HG : Forall2 (fun po ge =>
                 shape ge = [na; last_dim po; last_dim po] /\
                 forall a p q, get ge [a; p; q] = get ge [a; q; p])
               ovlp_shells gedm_shells).
  { unfold gedm_shells. eapply Forall2_map_combine; [exact HP| |].
    - rewrite split_from_length, length_map. apply (Forall2_length_eq HP).
    - intros po pdm gk Hs. cbv beta. split; [rewrite Hvs; exact Hs|apply Hvsym]. }
  assert (HG1 : Forall2 (fun po ge => shape ge = [na; last_dim po; last_dim po])
                  ovlp_shells gedm_shells).
  { eapply Forall2_impl; [|exact HG]. intros po ge [H _]. exact H. }
  (* the jacobian of the projected density *)
  destruct (@t_make_grad_pdm_x_entries R RS Mole Basis G laws mol dm ovlp_shells
              ipov_shells nao Hdm HF) as [gdmx_shells [Hgdmx HX]].
  pose proof (@t_make_grad_pdm_x_shapes R RS Mole Basis G laws mol dm ovlp_shells
                ipov_shells gdmx_shells nao Hdm HF Hgdmx) as HXs.
  (* the eigenvalue jacobians and their contraction *)
  pose proof (@batch_jacobians R RS E na ovlp_shells pdm_shells Heig4 HP) as Hjacs.
  assert (Hgvxs : exists gvxs,
    mapM (fun '(gdmx, gvdm) => einsum "bxapq,avpq->bxav" [gdmx; gvdm])
         (combine gdmx_shells
            (map (fun pdm => symeig_vjp E (repeat1 (last_dim pdm) pdm)
                               (eye_batch na (last_dim pdm))) pdm_shells))
      = Some gvxs).
  { clear - HP HXs Hvs. revert gdmx_shells HXs.
    induction HP as [|po pdm ovs pds Hs HP IH]; intros gdmx_shells HXs;
      inversion HXs as [|? gdmx ? gxs Hsx HXs']; subst.
    - exists []. reflexivity.
    - destruct (IH gxs HXs') as [rest Hrest].
      assert (Hld : last_dim pdm = last_dim po)
        by (unfold last_dim at 1; rewrite Hs; reflexivity).
      destruct (@einsum_bxapq R RS gdmx
                  (symeig_vjp E (repeat1 (last_dim pdm) pdm) (eye_batch na (last_dim pdm)))
                  na 3 na (last_dim po) (last_dim po) (last_dim po) Hsx)
        as [gvx [Hgvx _]].
      { rewrite Hvs. unfold repeat1. cbn [shape]. rewrite Hs, Hld. reflexivity. }
      exists (gvx :: rest). cbn [map combine mapM]. rewrite Hgvx. cbn [obind].
      rewrite Hrest. reflexivity. }
  destruct Hgvxs as [gvxs Hgvxs].
  (* the concatenation *)
  assert (Hpair : forall ia x,
    fold_right sadd s0
      (map (fun '(gedm, gdmx) => total (tmul gedm (select0 x (select0 ia gdmx))))
           (combine gedm_shells gdmx_shells)) =
    shell_pairing na ia x g 0 gvxs /\
    Forall2 (fun po gvx => shape gvx = [na; 3; na; last_dim po]) ovlp_shells gvxs).
  { intros ia x.
    apply (@shells_pairing R RS E laws na ia x g _ Hg Hvs Hjac ovlp_shells pdm_shells
             gdmx_shells gvxs 0 HP HXs Hgvxs). }
  assert (HFv : Forall2 (fun po gvx => shape gvx = [na; 3; na; last_dim po])
                  ovlp_shells gvxs) by (apply (Hpair 0 0)).
  assert (Hlastv : map last_dim gvxs = map last_dim ovlp_shells).
  { clear - HFv. induction HFv as [|po gvx l l' Hs HFv IH]; simpl; [reflexivity|].
    rewrite IH. f_equal. unfold last_dim at 1. rewrite Hs. reflexivity. }
  assert (Hcat : exists gvx, cat_last gvxs = Some gvx /\
            shape gvx = [na; 3; na; fold_right Nat.add 0 (map last_dim ovlp_shells)] /\
            forall idx, get gvx idx = cat_get gvxs (removelast idx) (last idx 0)).
  { destruct gvxs as [|t0 rest].
    { apply Forall2_length_eq in HFv. destruct ovlp_shells; [congruence|discriminate]. }
    unfold cat_last.
    assert (Hall : Forall (fun t : tensor R => exists n, shape t = [na; 3; na; n])
                     (t0 :: rest)).
    { eapply Forall2_Forall_r; [exact HFv|]. intros po t Ht. exists (last_dim po). exact Ht. }
    assert (Hchk : forallb (fun u : tensor R => (1 <=? ndim u) &&
               shape_eqb (removelast (shape u)) (removelast (shape t0)))
               (t0 :: rest) = true).
    { apply forallb_forall. intros u Hu. rewrite Forall_forall in Hall.
      destruct (Hall u Hu) as [n Hn].
      destruct (Hall t0 (or_introl eq_refl)) as [n0 Hn0].
      unfold ndim. rewrite Hn, Hn0. cbn. rewrite !Nat.eqb_refl. reflexivity. }
    rewrite Hchk. eexists. split; [reflexivity|]. split; [|intros idx; reflexivity].
    rewrite Forall_forall in Hall.
    destruct (Hall t0 (or_introl eq_refl)) as [n0 Hn0].
    cbn [shape]. rewrite Hn0, Hlastv. reflexivity. }
  destruct Hcat as [gvx [Hcat [Hsgvx Hegvx]]].
  (* the force *)
  destruct (@grad_corr_shells_entries R RS Mole Basis G mol dm nao atmlst Hdm Hatm
              gedm_shells ipov_shells ovlp_shells (zeros [List.length atmlst; 3])
              (@zipped_shell_shapes R Mole Basis G mol nao ovlp_shells ipov_shells
                 gedm_shells HF HG1))
    as [dec [Hdec [Hs He]]].
  exists dec, gvx, ceig.
  split; [unfold t_grad_corr; rewrite Hgedm; exact Hdec|].
  split.
  { unfold t_make_grad_eig_x.
    rewrite (mapM_ext _ (fun po => einsum "rap,...rs,saq->...apq" [po; dm; po]))
      by (intros po; apply einsum_pdm_plain; unfold ndim; rewrite Hdm; reflexivity).
    change (mapM _ ovlp_shells) with (t_make_pdm dm ovlp_shells).
    rewrite Hpdm. cbn [obind]. rewrite Hjacs. cbn [obind].
    rewrite Hgdmx. cbn [obind]. rewrite Hgvxs. cbn [obind]. exact Hcat. }
  split; [exact Hceig|]. split; [exact Hsgvx|].
  intros k ia x Hk. rewrite (He k ia x Hk).
  assert (Hia : ia < natm G mol).
  { rewrite Forall_forall in Hatm. apply Hatm. eapply nth_error_In. exact Hk. }
  rewrite (@force_fold_chain R RS Mole Basis G laws mol dm nao ia x Hia ovlp_shells
             ipov_shells gedm_shells gdmx_shells _ HG HX)
    by (symmetry; apply (Forall2_length_eq HF)).
  cbn [zeros get]. rewrite (sadd_0_l laws).
  rewrite (proj1 (Hpair ia x)).
  rewrite <- (@cat_pairing R RS laws na ia x g gvxs 0), Hlastv.
  apply rsum_ext; intros a _. apply rsum_ext; intros w _.
  rewrite Hegvx. reflexivity.
Qed.

End DescriptorJacobianTheorem.

Section DiagonalJacobian.
Context {R : Type} {RS : Scalar R}.
Hypothesis laws : scalar_laws R.
Add Ring scalar_ring_diag :
  (laws : ring_theory s0 s1 sadd smul ssub sopp (@eq R)).

(** The diagonal eigensolver's rule is its jacobian applied to the
    cotangent. *)
Lemma diag_symeig_vjp_jacobian (pdm ge : tensor R) (na n a p q : nat) :
  p < n -> q < n ->
  get (symeig_vjp diag_eigensolver pdm ge) [a; p; q] =
  rsum n (fun v => smul (get ge [a; v])
                        (get (symeig_vjp diag_eigensolver (repeat1 n pdm) (eye_batch na n))
                             [a; v; p; q])).
Proof.
  intros Hp Hq. cbn [symeig_vjp diag_eigensolver diag_symeig_vjp get removelast last
                     eye_batch].
  destruct (Nat.eqb_spec p q) as [->|Hne].
  - rewrite <- (rsum_delta laws (fun v => get ge [a; v]) Hq).
    apply rsum_ext; intros v _. destruct (v =? q); ring.
  - transitivity (rsum n (fun _ : nat => @s0 R RS)); [symmetry; apply (rsum_0 laws)|].
    apply rsum_ext; intros v _. ring.
Qed.

End DiagonalJacobian.

(** Witness of X16: the diagonal eigensolver and the trivial model. *)
Lemma t_grad_corr_descriptor_chain_rule_witness :
  exists dec gvx ceig,
    t_grad_corr line_gto diag_eigensolver mol_a (model_sum 1) dm_a [ovlp_s] [ipov_s]
      (Some [1; 0]) = Some dec /\
    t_make_grad_eig_x line_gto diag_eigensolver mol_a dm_a [ovlp_s] [ipov_s] = Some gvx /\
    t_make_eig diag_eigensolver dm_a [ovlp_s] = Some ceig /\
    shape gvx = [2; 3; 2; 1] /\
    forall k ia x, nth_error [1; 0] k = Some ia ->
      get dec [k; x] =
      rsum 2 (fun a => rsum 1 (fun w =>
        smul (get (squeeze0 (backward (model_sum 1) (unsqueeze0 ceig)
                               (ones_like (forward (model_sum 1) (unsqueeze0 ceig)))))
                  [a; w])
             (get gvx [ia; x; a; w]))).
Proof.
  apply (@t_grad_corr_descriptor_chain_rule Z _ line_mol nat line_gto diag_eigensolver
           Z_scalar_laws mol_a (model_sum 1) dm_a [ovlp_s] [ipov_s] [1; 0] 2).
  - discriminate.
  - intros t sh n Hs. apply (diag_symeig_shape t sh n Hs).
  - apply diag_symeig_vjp_shape.
  - apply diag_symeig_vjp_symmetric.
  - intros pdm ge n _ _ a p q Hp Hq.
    apply (diag_symeig_vjp_jacobian Z_scalar_laws pdm ge 2 a Hp Hq).
  - reflexivity.
  - reflexivity.
  - reflexivity.
  - constructor; [split; reflexivity | constructor].
  - discriminate.
  - repeat constructor.
Defined.

(** The eigenvalue jacobian of that input, computed: direction x. *)
Example t_make_grad_eig_x_values :
  option_map (fun t => (shape t, entries t [[0; 0; 0; 0]; [0; 0; 1; 0];
                                            [1; 0; 0; 0]; [1; 0; 1; 0]]))
    (t_make_grad_eig_x line_gto diag_eigensolver mol_a dm_a [ovlp_s] [ipov_s])
  = Some ([2; 3; 2; 1], [30; -20; -30; 20]%Z).
Proof. vm_compute. reflexivity. Qed.

(** ** Flattened layouts *)

Section FlattenLayout.
Context {R : Type} {RS : Scalar R}.

Lemma flatten_last2_entries (t : tensor R) (pre : list nat) (n : nat) :
  shape t = pre ++ [n; n] ->
  exists f, flatten_last2 t = Some f /\
    shape f = pre ++ [n * n] /\
    last_dim f = n * n /\
    forall ipre p q, q < n ->
      get f (ipre ++ [p * n + q]) = get t (ipre ++ [p; q]).
Proof.
  intros Hs. unfold flatten_last2. rewrite Hs, rev_app_distr. cbn [rev app].
  eexists. split; [reflexivity|]. cbn [shape get]. rewrite rev_involutive.
  split; [reflexivity|]. split; [unfold last_dim; cbn [shape]; apply last_last|].
  intros ipre p q Hq. rewrite removelast_last, last_last.
  rewrite (div_block _ Hq), (mod_block _ Hq). reflexivity.
Qed.

(** The shells' matrices, unrolled and concatenated: [sizes] are the
    shell sizes, [pre] the dimensions in front of the matrices. *)
Lemma flatten_cat_layout (pre : list nat) :
  forall (sizes : list nat) (ts : list (tensor R)),
    Forall2 (fun n t => shape t = pre ++ [n; n]) sizes ts ->
    ts <> [] ->
    exists flat,
      (fs <- mapM flatten_last2 ts ;; cat_last fs) = Some flat /\
      shape flat = pre ++ [fold_right Nat.add 0 (map (fun n => n * n) sizes)] /\
      forall k n t, nth_error sizes k = Some n -> nth_error ts k = Some t ->
        forall ipre p q, p < n -> q < n ->
          get flat (ipre ++ [fold_right Nat.add 0 (map (fun n => n * n) (firstn k sizes))
                             + (p * n + q)]) =
          get t (ipre ++ [p; q]).
Proof.
  intros sizes ts HF Hne.
  assert (Hfs : exists fs, mapM flatten_last2 ts = Some fs /\
            Forall2 (fun n f => shape f = pre ++ [n * n]) sizes fs /\
            Forall2 (fun t f => forall n, shape t = pre ++ [n; n] ->
                       forall ipre p q, q < n ->
                         get f (ipre ++ [p * n + q]) = get t (ipre ++ [p; q])) ts fs).
  { clear Hne. induction HF as [|n t sizes ts Hs HF IH].
    - exists []. repeat split; constructor.
    - destruct IH as [fs [Hfs [HF1 HF2]]].
      destruct (@flatten_last2_entries t pre n Hs) as [f [Hf [Hsf [_ Hef]]]].
      exists (f :: fs). cbn [mapM]. rewrite Hf. cbn [obind]. rewrite Hfs. cbn [obind].
      split; [reflexivity|]. split; constructor; auto.
      intros n' Hs' ipre p q Hq.
      assert (n' = n).
      { rewrite Hs in Hs'. apply app_inv_head in Hs'. congruence. }
      subst n'. apply Hef. exact Hq. }
  destruct Hfs as [fs [Hfs [HF1 HF2]]]. rewrite Hfs. cbn [obind].
  assert (Hlast : map last_dim fs = map (fun n => n * n) sizes).
  { clear - HF1. induction HF1 as [|n f l l' Hs HF1 IH]; simpl; [reflexivity|].
    rewrite IH. f_equal. unfold last_dim. rewrite Hs. apply last_last. }
  destruct fs as [|f0 rest].
  { apply Forall2_length_eq in HF2. destruct ts; [congruence|discriminate]. }
  unfold cat_last.
  assert (Hall : Forall (fun f : tensor R => exists m, shape f = pre ++ [m]) (f0 :: rest)).
  { eapply Forall2_Forall_r; [exact HF1|]. intros n f Hf. exists (n * n). exact Hf. }
  assert (Hchk : forallb (fun u : tensor R => (1 <=? ndim u) &&
             shape_eqb (removelast (shape u)) (removelast (shape f0)))
             (f0 :: rest) = true).
  { apply forallb_forall. intros u Hu. rewrite Forall_forall in Hall.
    destruct (Hall u Hu) as [m Hm].
    destruct (Hall f0 (or_introl eq_refl)) as [m0 Hm0].
    unfold ndim. rewrite Hm, Hm0, !removelast_last, shape_eqb_refl, length_app.
    cbn [List.length]. destruct (Nat.leb_spec 1 (List.length pre + 1)); [reflexivity|lia]. }
  rewrite Hchk. eexists. split; [reflexivity|]. cbn [shape get]. split.
  - rewrite Forall_forall in Hall.
    destruct (Hall f0 (or_introl eq_refl)) as [m0 Hm0].
    rewrite Hm0, removelast_last, Hlast. reflexivity.
  - intros k n t Hk Ht ipre p q Hp Hq.
    rewrite removelast_last, last_last.
    destruct (Forall2_nth_error k HF2 Ht) as [f [Hkf Hef]].
    destruct (Forall2_nth_error k HF1 Hk) as [f' [Hkf' Hsf]].
    rewrite Hkf in Hkf'. injection Hkf' as <-.
    destruct (Forall2_nth_error k HF Hk) as [t' [Hkt Hst]].
    rewrite Ht in Hkt. injection Hkt as <-.
    rewrite <- firstn_map, <- Hlast, firstn_map.
    rewrite (@cat_get_nth R RS (f0 :: rest) ipre k f (p * n + q) Hkf).
    + apply (Hef n Hst). exact Hq.
    + unfold last_dim. rewrite Hsf, last_last. nia.
Qed.

End FlattenLayout.

Section FlattenTheorems.
Context {R : Type} {RS : Scalar R} {Mole Basis : Type}.
Variable G : gto R Mole Basis.

(** X17.  [make_pdm] with [flatten=True]: for a single density matrix
    and at least one shell, the result has shape [natm x sum_k n_k^2] and
    holds, for every atom [a], entry [(p, q)] of the projected density of
    shell [k], as [make_pdm] returns it without flattening, in column
    [n_0^2 + ... + n_{k-1}^2 + p * n_k + q]. *)
Theorem make_pdm_flatten_layout :
  forall (self : NetMixin.state R Mole Basis) (dm : tensor R) (nao na : nat),
    shape dm = [nao; nao] ->
    Forall (fun po => shape po = [nao; na; last_dim po]) (NetMixin._t_ovlp_shells self) ->
    NetMixin._t_ovlp_shells self <> [] ->
    exists pdm_shells flat,
      NetMixin.make_pdm self (Some dm) false = Some (inl pdm_shells) /\
      NetMixin.make_pdm self (Some dm) true = Some (inr flat) /\
      shape flat =
        [na; fold_right Nat.add 0
               (map (fun po => last_dim po * last_dim po) (NetMixin._t_ovlp_shells self))] /\
      forall k po pdm,
        nth_error (NetMixin._t_ovlp_shells self) k = Some po ->
        nth_error pdm_shells k = Some pdm ->
        forall a p q, p < last_dim po -> q < last_dim po ->
          get flat [a; fold_right Nat.add 0
                         (map (fun po => last_dim po * last_dim po)
                              (firstn k (NetMixin._t_ovlp_shells self)))
                       + (p * last_dim po + q)] =
          get pdm [a; p; q].
Proof.
  intros self dm nao na Hdm Hov Hne.
  destruct (@t_make_pdm_entries R RS dm (NetMixin._t_ovlp_shells self) nao na []
              Hdm Hov) as [pdm_shells [Hpdm HF]].
  assert (HF' : Forall2 (fun n t => shape t = [na] ++ [n; n])
                  (map last_dim (NetMixin._t_ovlp_shells self)) pdm_shells).
  { clear - HF. induction HF as [|po pdm l l' [Hs _] HF IH]; simpl; constructor; auto. }
  assert (Hne' : pdm_shells <> []).
  { intros ->. apply Forall2_length_eq in HF.
    destruct (NetMixin._t_ovlp_shells self); [congruence|discriminate]. }
  destruct (flatten_cat_layout [na] HF' Hne') as [flat [Hflat [Hs He]]].
  exists pdm_shells, flat. unfold NetMixin.make_pdm. rewrite Hpdm. cbn [obind negb].
  split; [reflexivity|]. split.
  { destruct (mapM flatten_last2 pdm_shells) as [fs|]; cbn [obind] in *; [|discriminate].
    rewrite Hflat. reflexivity. }
  split.
  { rewrite Hs, map_map. reflexivity. }
  intros k po pdm Hk Hp a p q Hlp Hlq.
  pose proof (He k (last_dim po) pdm (map_nth_error last_dim k _ Hk) Hp [a] p q Hlp Hlq)
    as H.
  rewrite firstn_map, map_map in H. exact H.
Qed.

(** X18.  [make_grad_pdm_x] with [flatten=True]: the result has shape
    [natm x 3 x natm x sum_k n_k^2] and holds entry [(ia, x, a, p, q)] of
    the jacobian of shell [k], as returned without flattening, at
    [(ia, x, a, n_0^2 + ... + n_{k-1}^2 + p * n_k + q)]. *)
Theorem make_grad_pdm_x_flatten_layout :
  scalar_laws R ->
  forall (w : Gradients.world R Mole Basis) (dm : tensor R) (nao : nat),
    let self := Gradients.grad w in
    let na := natm G (Gradients.mol self) in
    shape dm = [nao; nao] ->
    Forall2 (fun ovlp govx =>
               shape ovlp = [nao; na; last_dim ovlp] /\
               shape govx = [3; nao; na; last_dim ovlp])
            (Gradients._t_ovlp_shells self) (Gradients._t_ipov_shells self) ->
    Gradients._t_ovlp_shells self <> [] ->
    exists gdmx_shells flat,
      Gradients.make_grad_pdm_x G w (Some dm) false = Some (inl gdmx_shells) /\
      Gradients.make_grad_pdm_x G w (Some dm) true = Some (inr flat) /\
      shape flat =
        [na; 3; na;
         fold_right Nat.add 0
           (map (fun po => last_dim po * last_dim po) (Gradients._t_ovlp_shells self))] /\
      forall k po gdmx,
        nth_error (Gradients._t_ovlp_shells self) k = Some po ->
        nth_error gdmx_shells k = Some gdmx ->
        forall ia x a p q, p < last_dim po -> q < last_dim po ->
          get flat [ia; x; a;
                    fold_right Nat.add 0
                      (map (fun po => last_dim po * last_dim po)
                           (firstn k (Gradients._t_ovlp_shells self)))
                    + (p * last_dim po + q)] =
          get gdmx [ia; x; a; p; q].
Proof.
  intros laws w dm nao self na Hdm HF Hne.
  destruct (@t_make_grad_pdm_x_entries R RS Mole Basis G laws (Gradients.mol self) dm
              (Gradients._t_ovlp_shells self) (Gradients._t_ipov_shells self) nao Hdm HF)
    as [gdmx_shells [Hgdmx _]].
  pose proof (@t_make_grad_pdm_x_shapes R RS Mole Basis G laws (Gradients.mol self) dm
                (Gradients._t_ovlp_shells self) (Gradients._t_ipov_shells self)
                gdmx_shells nao Hdm HF Hgdmx) as HXs.
  fold na in HXs.
  assert (HF' : Forall2 (fun n t => shape t = [na; 3; na] ++ [n; n])
                  (map last_dim (Gradients._t_ovlp_shells self)) gdmx_shells).
  { clear - HXs. induction HXs as [|po g l l' Hs HXs IH]; simpl; constructor; auto. }
  assert (Hne' : gdmx_shells <> []).
  { intros ->. apply Forall2_length_eq in HXs.
    destruct (Gradients._t_ovlp_shells self); [congruence|discriminate]. }
  destruct (flatten_cat_layout [na; 3; na] HF' Hne') as [flat [Hflat [Hs He]]].
  exists gdmx_shells, flat. unfold Gradients.make_grad_pdm_x. fold self.
  rewrite Hgdmx. cbn [obind negb].
  split; [reflexivity|]. split.
  { destruct (mapM flatten_last2 gdmx_shells) as [fs|]; cbn [obind] in *; [|discriminate].
    rewrite Hflat. reflexivity. }
  split.
  { rewrite Hs, map_map. reflexivity. }
  intros k po gdmx Hk Hg ia x a p q Hlp Hlq.
  pose proof (He k (last_dim po) gdmx (map_nth_error last_dim k _ Hk) Hg [ia; x; a] p q
                Hlp Hlq) as H.
  rewrite firstn_map, map_map in H. exact H.
Qed.

End FlattenTheorems.

(** Witness of X17: a shell of one and a shell of two functions. *)
Lemma make_pdm_flatten_layout_witness :
  exists pdm_shells flat,
    NetMixin.make_pdm solver_flat (Some dm_a) false = Some (inl pdm_shells) /\
    NetMixin.make_pdm solver_flat (Some dm_a) true = Some (inr flat) /\
    shape flat = [2; 5] /\
    forall k po pdm,
      nth_error [ovlp_s; ovlp_p] k = Some po ->
      nth_error pdm_shells k = Some pdm ->
      forall a p q, p < last_dim po -> q < last_dim po ->
        get flat [a; fold_right Nat.add 0
                       (map (fun po => last_dim po * last_dim po)
                            (firstn k [ovlp_s; ovlp_p]))
                     + (p * last_dim po + q)] =
        get pdm [a; p; q].
Proof.
  apply (@make_pdm_flatten_layout Z _ line_mol nat solver_flat dm_a 2 2).
  - reflexivity.
  - repeat constructor.
  - discriminate.
Defined.

(** The flattened projected density of that input, computed: the entry
    of the first shell, then the four entries of the second, for each
    atom. *)
Example make_pdm_flat_values :
  option_map (fun r => match r with
                       | inr t => (shape t, entries t [[0; 0]; [0; 1]; [0; 2]; [0; 3]; [0; 4];
                                                       [1; 0]; [1; 1]; [1; 2]; [1; 3]; [1; 4]])
                       | inl _ => ([], [])
                       end)
    (NetMixin.make_pdm solver_flat (Some dm_a) true)
  = Some ([2; 5], [8; 8; 5; 5; 3; 21; 12; 4; 4; 1]%Z).
Proof. vm_compute. reflexivity. Qed.

(** Witness of X18: a gradient object holding a shell of one function
    and a shell of two. *)
Lemma make_grad_pdm_x_flatten_layout_witness :
  exists gdmx_shells flat,
    Gradients.make_grad_pdm_x line_gto world_two_shells (Some dm_a) false
      = Some (inl gdmx_shells) /\
    Gradients.make_grad_pdm_x line_gto world_two_shells (Some dm_a) true
      = Some (inr flat) /\
    shape flat = [2; 3; 2; 5] /\
    forall k po gdmx,
      nth_error [ovlp_s; ovlp_p] k = Some po ->
      nth_error gdmx_shells k = Some gdmx ->
      forall ia x a p q, p < last_dim po -> q < last_dim po ->
        get flat [ia; x; a;
                  fold_right Nat.add 0
                    (map (fun po => last_dim po * last_dim po)
                         (firstn k [ovlp_s; ovlp_p]))
                  + (p * last_dim po + q)] =
        get gdmx [ia; x; a; p; q].
Proof.
  apply (@make_grad_pdm_x_flatten_layout Z _ line_mol nat line_gto Z_scalar_laws
           world_two_shells dm_a 2).
  - reflexivity.
  - constructor; [split; reflexivity|].
    constructor; [split; reflexivity | constructor].
  - discriminate.
Defined.

(** ** From the constructors to the results *)

(** The pieces [torch.split] cuts along the last dimension keep the
    leading dimensions. *)
Lemma split_from_shapes {R} (t : tensor R) (pre : list nat) (m : nat) :
  shape t = pre ++ [m] ->
  forall sizes off,
    Forall2 (fun n u => shape u = pre ++ [n]) sizes (split_from off sizes t).
Proof.
  intros Hs. induction sizes as [|n sizes IH]; intros off; cbn [split_from];
    constructor; [|apply IH].
  cbn [shape]. rewrite Hs, removelast_last. reflexivity.
Qed.

Section PreparedShells.
Context {R : Type} {Mole Basis : Type}.
Variable G : gto R Mole Basis.

(** What [prepare_integrals] leaves on the solver: the shells' shapes,
    and every other attribute as it was. *)
Lemma prepare_integrals_shells (self : NetMixin.state R Mole Basis) (nproj : nat) :
  let m := NetMixin.mol self in
  let pmol := gen_proj_mol G m (NetMixin._pbas self) in
  natm G m <> 0 ->
  nao G pmol = natm G m * nproj ->
  shape (intor_cross G "int1e_ovlp" m pmol) = [nao G m; nao G pmol] ->
  fold_right Nat.add 0 (NetMixin._shell_sec self) = nproj ->
  exists self',
    NetMixin.prepare_integrals G self = Some self' /\
    NetMixin.mol self' = m /\
    NetMixin._pmol self' = pmol /\
    NetMixin.net self' = NetMixin.net self /\
    NetMixin.is_UHF self' = NetMixin.is_UHF self /\
    NetMixin._shell_sec self' = NetMixin._shell_sec self /\
    Forall2 (fun n po => shape po = [nao G m; natm G m; n])
            (NetMixin._shell_sec self) (NetMixin._t_ovlp_shells self').
Proof.
  intros m pmol Hnatm Hpnao Hshape Hsec.
  unfold NetMixin.prepare_integrals, NetMixin.proj_ovlp, NetMixin.proj_intor.
  cbn [NetMixin.mol NetMixin._pmol NetMixin._shell_sec NetMixin._pbas
       NetMixin.is_UHF NetMixin.make_rdm1 NetMixin.net].
  fold m. fold pmol.
  destruct (Nat.eqb_spec (natm G m) 0) as [|_]; [contradiction|].
  assert (Hdiv : nao G pmol / natm G m = nproj).
  { rewrite Hpnao, Nat.mul_comm. apply Nat.div_mul. exact Hnatm. }
  rewrite Hdiv. unfold reshape. rewrite Hshape, Hpnao.
  assert (Hnum : numel [nao G m; natm G m; nproj] = numel [nao G m; natm G m * nproj]).
  { cbn. lia. }
  rewrite Hnum, Nat.eqb_refl. cbn [obind].
  unfold split_last, ndim, last_dim. cbn [shape List.length last Nat.leb andb].
  rewrite Hsec, Nat.eqb_refl. cbn [obind].
  eexists. split; [reflexivity|].
  cbn [NetMixin.mol NetMixin._pmol NetMixin._shell_sec NetMixin._pbas
       NetMixin.is_UHF NetMixin.make_rdm1 NetMixin.net NetMixin._t_ovlp_shells].
  repeat (split; [reflexivity|]).
  apply (@split_from_shapes R _ [nao G m; natm G m] nproj). reflexivity.
Qed.

(** The same for the gradient object. *)
Lemma grad_prepare_integrals_shells (mf : NetMixin.state R Mole Basis)
    (self : Gradients.state R Mole) (nproj : nat) :
  let m := Gradients.mol self in
  nao G m <> 0 ->
  natm G m <> 0 ->
  shape (intor_cross G "int1e_ipovlp" (NetMixin.mol mf) (NetMixin._pmol mf))
    = [3; nao G m; natm G m * nproj] ->
  fold_right Nat.add 0 (NetMixin._shell_sec mf) = nproj ->
  exists self',
    Gradients.prepare_integrals G mf self = Some self' /\
    Gradients.mol self' = m /\
    Gradients._t_ovlp_shells self' = NetMixin._t_ovlp_shells mf /\
    Forall2 (fun n govx => shape govx = [3; nao G m; natm G m; n])
            (NetMixin._shell_sec mf) (Gradients._t_ipov_shells self').
Proof.
  intros m Hnao Hnatm Hshape Hsec.
  unfold Gradients.prepare_integrals, NetMixin.proj_intor, reshape_infer.
  fold m. rewrite Hshape.
  assert (Hk : numel [3; nao G m; natm G m] <> 0) by (cbn; nia).
  assert (Hn : numel [3; nao G m; natm G m * nproj] =
               nproj * numel [3; nao G m; natm G m]) by (cbn; nia).
  rewrite Hn, Nat.Div0.mod_mul, Nat.div_mul by exact Hk.
  destruct (Nat.eqb_spec (numel [3; nao G m; natm G m]) 0) as [|_]; [contradiction|].
  cbn [orb negb Nat.eqb app]. unfold reshape. rewrite Hshape.
  assert (Hnum : numel [3; nao G m; natm G m; nproj] =
                 numel [3; nao G m; natm G m * nproj]) by (cbn; nia).
  rewrite Hnum, Nat.eqb_refl. cbn [obind].
  unfold split_last, ndim, last_dim. cbn [shape List.length last Nat.leb andb].
  rewrite Hsec, Nat.eqb_refl. cbn [obind].
  eexists. split; [reflexivity|].
  cbn [Gradients.mol Gradients._t_ovlp_shells Gradients._t_ipov_shells].
  split; [reflexivity|]. split; [reflexivity|].
  apply (@split_from_shapes R _ [3; nao G m; natm G m] nproj). reflexivity.
Qed.

End PreparedShells.

Section Pipeline.
Context {R : Type} {RS : Scalar R} {Mole Basis : Type}.
Variable G : gto R Mole Basis.
Variable E : eigensolver R.

(** X19.  What a solver whose net is any callable, with integrals set
    up by [prepare_integrals], and the gradient object constructed on it
    do on a density matrix [nao x nao]: for a molecule with atoms and
    orbitals, integral arrays of shapes [nao x pnao] and [3 x nao x pnao]
    with [pnao = natm * nproj], and a non-empty list of shell sizes adding
    up to [nproj] (an eigensolver and a model as in C3, the model
    returning a single energy), both constructions return, and then
    [make_eig] returns a descriptor of shape [natm x nproj] and [get_corr]
    returns a scalar energy with a potential of shape [nao x nao]; for
    every list of atoms of the molecule, [grad_corr] returns a force of
    shape [len(atmlst) x 3] when the net is a module, and raises when it
    is a callable that is not one. *)
Theorem prepared_objects_return :
  forall (self : NetMixin.state R Mole Basis) (m : model R) (nproj : nat),
    let mol := NetMixin.mol self in
    let pmol := gen_proj_mol G mol (NetMixin._pbas self) in
    let na := natm G mol in
    natm G mol <> 0 ->
    nao G mol <> 0 ->
    nao G pmol = natm G mol * nproj ->
    shape (intor_cross G "int1e_ovlp" mol pmol) = [nao G mol; nao G pmol] ->
    shape (intor_cross G "int1e_ipovlp" mol pmol) = [3; nao G mol; nao G pmol] ->
    fold_right Nat.add 0 (NetMixin._shell_sec self) = nproj ->
    NetMixin._shell_sec self <> [] ->
    NetMixin.net self = Some m ->
    (forall t n, shape t = [na; n; n] ->
       exists e, symeig E t = Some e /\ shape e = [na; n]) ->
    (forall pdm ge, shape (symeig_vjp E pdm ge) = shape pdm) ->
    (forall pdm ge a p q,
       get (symeig_vjp E pdm ge) [a; p; q] = get (symeig_vjp E pdm ge) [a; q; p]) ->
    (forall c ge, shape (backward m c ge) = shape c) ->
    (forall c, nelement (forward m c) = 1) ->
    exists self' w,
      NetMixin.prepare_integrals G self = Some self' /\
      Gradients.init G self' = Some w /\
      forall dm, shape dm = [nao G mol; nao G mol] ->
        (exists ceig,
           NetMixin.make_eig E self' (Some dm) = Some ceig /\
           shape ceig = [na; nproj]) /\
        (exists ec vc,
           NetMixin.get_corr E self' (Some dm) = Some (CorrMixin.EScalar ec, vc) /\
           shape vc = [nao G mol; nao G mol]) /\
        forall atmlst, Forall (fun ia => ia < na) atmlst ->
          match parameters m with
          | Some _ =>
              exists dec,
                Gradients.grad_corr G E w (Some dm) (Some atmlst) = Some dec /\
                shape dec = [List.length atmlst; 3]
          | None => Gradients.grad_corr G E w (Some dm) (Some atmlst) = None
          end.
Proof.
  intros self m nproj mol pmol na Hnatm Hnao Hpnao Hso Hsi Hsec Hne Hnet
    Heig Hvs Hvsym Hback Hone.
  destruct (@prepare_integrals_shells R Mole Basis G self nproj Hnatm Hpnao Hso Hsec)
    as (self' & Hprep & Hmol & Hpmol & Hnet' & Huhf & Hsec' & HSo).
  fold mol in Hmol, HSo. fold pmol in Hpmol. fold na in HSo.
  assert (Hsec2 : fold_right Nat.add 0 (NetMixin._shell_sec self') = nproj)
    by (rewrite Hsec'; exact Hsec).
  destruct (@grad_prepare_integrals_shells R Mole Basis G self'
              (Gradients.mkState (NetMixin.mol self') [] []) nproj)
    as (g' & Hgprep & Hgmol & Hgov & HSi).
  { cbn [Gradients.mol]. rewrite Hmol. exact Hnao. }
  { cbn [Gradients.mol]. rewrite Hmol. exact Hnatm. }
  { cbn [Gradients.mol]. rewrite Hpmol, Hmol, <- Hpnao. exact Hsi. }
  { exact Hsec2. }
  cbn [Gradients.mol] in Hgmol, HSi. rewrite Hmol in Hgmol, HSi. rewrite Hsec' in HSi.
  fold na in HSi.
  exists self', (Gradients.mkWorld self' g').
  split; [exact Hprep|].
  split; [unfold Gradients.init; rewrite Hgprep; reflexivity|].
  set (ovs := NetMixin._t_ovlp_shells self') in *.
  set (ips := Gradients._t_ipov_shells g') in *.
  assert (HF : Forall2 (fun ovlp govx =>
                 shape ovlp = [nao G mol; na; last_dim ovlp] /\
                 shape govx = [3; nao G mol; na; last_dim ovlp]) ovs ips).
  { eapply Forall2_common_l; [exact HSo|exact HSi|].
    intros n o g Ho Hg. cbv beta in *. unfold last_dim. rewrite Ho, Hg.
    cbn [app last]. split; reflexivity. }
  assert (Hov : Forall (fun po => shape po = [nao G mol; na; last_dim po]) ovs).
  { clear - HF. induction HF as [|? ? ? ? [H _] ? IH]; constructor; auto. }
  assert (Hlast : map last_dim ovs = NetMixin._shell_sec self).
  { clear - HSo. induction HSo as [|n o l l' Ho HSo IH]; simpl; [reflexivity|].
    rewrite IH. f_equal. unfold last_dim. rewrite Ho. reflexivity. }
  assert (Hne' : ovs <> []).
  { intros H0. apply Hne. rewrite <- Hlast, H0. reflexivity. }
  intros dm Hdm.
  destruct (@t_make_eig_returns R RS E dm ovs (nao G mol) na Heig Hdm Hov Hne')
    as (pdm_shells & eig_shells & ceig & Hpdm & Hmap & Hcat & Hceig & HF1 & HF3 & Hl & Hsc).
  rewrite Hlast, Hsec in Hsc.
  split; [|split].
  - exists ceig. unfold NetMixin.make_eig, NetMixin.spin_sum, ndim.
    rewrite Hdm. cbn [List.length Nat.leb andb]. split; [exact Hceig|exact Hsc].
  - unfold NetMixin.get_corr, NetMixin.spin_sum, ndim.
    rewrite Hnet', Hnet, Hdm. cbn [List.length Nat.leb andb]. fold ovs.
    set (g := backward m ceig (ones_like (forward m ceig))).
    assert (Hg : shape g = [na; fold_right Nat.add 0 (map last_dim ovs)]).
    { unfold g. rewrite Hback, Hlast, Hsec. exact Hsc. }
    destruct (@t_make_eig_grad_pdm_returns R RS E dm ovs (nao G mol) na g
                Heig Hvs Hvsym Hdm Hov Hne' Hg) as [gpdm [Hgpdm HFg]].
    assert (Hparts : exists parts,
      mapM (fun '(po, gk) => t_make_pdm_vjp po gk) (combine ovs gpdm) = Some parts).
    { clear - HFg Hov. revert Hov.
      induction HFg as [|po ge l l' [Hge _] HG IH]; intros Hov.
      - exists []. reflexivity.
      - inversion Hov as [|? ? Hpo Hov']; subst.
        destruct (IH Hov') as [rest Hrest].
        destruct (@einsum_pdm_vjp R RS po ge (nao G mol) na (last_dim po) Hpo Hge)
          as [t [Ht _]].
        exists (t :: rest). cbn [combine mapM]. rewrite Ht. cbn [obind].
        rewrite Hrest. reflexivity. }
    destruct Hparts as [parts Hparts].
    unfold t_get_corr, to_ref. rewrite Hceig. cbn [obind negb].
    unfold t_make_eig_vjp. fold g. rewrite Hgpdm. cbn [obind].
    rewrite Hparts. cbn [obind]. unfold NetMixin.energy_of. rewrite Hone.
    cbn [Nat.eqb].
    eexists. eexists. split; [reflexivity|].
    rewrite <- Hdm. change (shape dm) with (shape (zeros_like dm)).
    generalize (zeros_like dm). clear.
    induction parts as [|t parts IH]; intros z; cbn [fold_left]; [reflexivity|].
    rewrite IH. reflexivity.
  - intros atmlst Hatm.
    unfold Gradients.grad_corr. cbn [Gradients.grad Gradients.base].
    rewrite Hnet', Hnet, Hgmol, Hgov. fold ovs. fold ips.
    destruct (parameters m) as [ps|] eqn:Hmod;
      [|unfold t_grad_corr;
        rewrite (@t_make_grad_e_pdm_not_module R RS E m dm ovs Hmod); reflexivity].
    assert (Hmod' : parameters m <> None) by (rewrite Hmod; discriminate).
    destruct (@t_make_grad_e_pdm_returns R RS E m dm ovs (nao G mol) na
                Hmod' Heig Hvs Hvsym Hback Hone Hdm Hov Hne') as [gedm_shells [Hgedm HG]].
    assert (HG1 : Forall2 (fun po g => shape g = [na; last_dim po; last_dim po])
                    ovs gedm_shells).
    { clear - HG. induction HG as [|? ? ? ? [H _] ? IH]; constructor; auto. }
    unfold t_grad_corr. rewrite Hgedm. cbn [obind].
    destruct (@grad_corr_shells_entries R RS Mole Basis G mol dm (nao G mol) atmlst
                Hdm Hatm gedm_shells ips ovs (zeros [List.length atmlst; 3])
                (@zipped_shell_shapes R Mole Basis G mol (nao G mol) ovs ips
                   gedm_shells HF HG1))
      as [dec [Hdec [Hs _]]].
    exists dec. split; [exact Hdec|exact Hs].
Qed.

End Pipeline.

(** Witness of X19: the two-atom molecule with shells of one and two
    functions and the diagonal eigensolver, with the trivial model and
    with the function [lambda x: x.sum()]. *)
Lemma prepared_objects_return_witness :
  (exists self' w,
     NetMixin.prepare_integrals line_gto solver_with_model = Some self' /\
     Gradients.init line_gto self' = Some w /\
     forall dm, shape dm = [2; 2] ->
       (exists ceig,
          NetMixin.make_eig diag_eigensolver self' (Some dm) = Some ceig /\
          shape ceig = [2; 3]) /\
       (exists ec vc,
          NetMixin.get_corr diag_eigensolver self' (Some dm)
            = Some (CorrMixin.EScalar ec, vc) /\
          shape vc = [2; 2]) /\
       forall atmlst, Forall (fun ia => ia < 2) atmlst ->
         exists dec,
           Gradients.grad_corr line_gto diag_eigensolver w (Some dm) (Some atmlst)
             = Some dec /\
           shape dec = [List.length atmlst; 3]) /\
  (exists self' w,
     NetMixin.prepare_integrals line_gto solver_with_callable = Some self' /\
     Gradients.init line_gto self' = Some w /\
     forall dm, shape dm = [2; 2] ->
       (exists ceig,
          NetMixin.make_eig diag_eigensolver self' (Some dm) = Some ceig /\
          shape ceig = [2; 3]) /\
       (exists ec vc,
          NetMixin.get_corr diag_eigensolver self' (Some dm)
            = Some (CorrMixin.EScalar ec, vc) /\
          shape vc = [2; 2]) /\
       forall atmlst, Forall (fun ia => ia < 2) atmlst ->
         Gradients.grad_corr line_gto diag_eigensolver w (Some dm) (Some atmlst) = None).
Proof.
  split.
  - apply (@prepared_objects_return Z _ line_mol nat line_gto diag_eigensolver
             solver_with_model (model_sum 1) 3).
    + discriminate.
    + discriminate.
    + reflexivity.
    + reflexivity.
    + reflexivity.
    + reflexivity.
    + discriminate.
    + reflexivity.
    + intros t n Hs. apply (diag_symeig_shape t [2] n Hs).
    + apply diag_symeig_vjp_shape.
    + apply diag_symeig_vjp_symmetric.
    + reflexivity.
    + reflexivity.
  - apply (@prepared_objects_return Z _ line_mol nat line_gto diag_eigensolver
             solver_with_callable plain_sum 3).
    + discriminate.
    + discriminate.
    + reflexivity.
    + reflexivity.
    + reflexivity.
    + reflexivity.
    + discriminate.
    + reflexivity.
    + intros t n Hs. apply (diag_symeig_shape t [2] n Hs).
    + apply diag_symeig_vjp_shape.
    + apply diag_symeig_vjp_symmetric.
    + reflexivity.
    + reflexivity.
Defined.
